(** * The Lorl SDK protocol engine (src/js/library.js), embedded in Rocq

    The engine is the first script of [src/js/library.js]: one implicit
    session kept in module-level variables, an event emitter, a socket
    opener, a message dispatcher, the lobby API, the legacy room API and
    the platform init hook.

    The embedding is shallow.  Module-level variables become the fields of
    [state]; every JavaScript function becomes a Rocq function of the same
    name that passes the state along.  What the host environment owns
    (sockets, timers, promises, the microtask queue, the clock, the
    [Math.random] supply and an observation log) is kept in further fields
    of the same record, and the environment's moves are the constructors of
    [event].

    Wire messages are typed as the header of the file and the protocol
    table document them: a field is either absent ([None], read as
    [undefined]) or carries a value of its documented type.  Handlers
    subscribed by the game are observers: they are called, may throw, and do
    not call back into the engine while it is publishing.

    The player table [_players] is a plain object that the engine uses as a
    map from ids to players.  It is kept as JavaScript keeps it: its own
    properties in the order in which [Object.values] lists them, and its
    prototype, which an assignment under the id [__proto__] replaces.  A
    [state_update] for an id that names something inherited writes a [data]
    property to [Object.prototype] or to one of its functions; these
    properties are fields of [state] as well, since every object without a
    [data] of its own reads the first of them.

    [new WebSocket(url)] throws a [SyntaxError] for a URL that the host does
    not accept.  Which URLs those are is the field [refused] of the state,
    fixed when the script is loaded. *)

From stdpp Require Import gmap strings list.

Set Warnings "-register-all".
Open Scope string_scope.
Open Scope list_scope.

(** ** Values on the wire *)

(** Opaque application payloads: the engine stores and forwards them and
    never looks inside. *)
Inductive json :=
| JNull
| JBool (b : bool)
| JNum (n : Z)
| JStr (s : string)
| JArr (l : list json)
| JObj (fields : list (string * json)).

(** [{id, username, data}], the entries of [_players]. *)
Record player := mkPlayer {
  p_id : option string;
  p_username : option string;
  p_data : option (gmap string json);
}.

(** ** Plain objects *)

(** The property names that every JavaScript object inherits from
    [Object.prototype]: eleven functions, and the accessor [__proto__].  On
    the plain objects [_handlers] and [_players] a lookup under one of them
    finds what is inherited when the object has no property of its own
    under that name, and an assignment to [__proto__] makes no property. *)
Definition inherited : list string :=
  ["constructor"; "__defineGetter__"; "__defineSetter__"; "hasOwnProperty";
   "__lookupGetter__"; "__lookupSetter__"; "isPrototypeOf"; "propertyIsEnumerable";
   "toString"; "valueOf"; "__proto__"; "toLocaleString"].

(** A key under which a plain object holds what was assigned and nothing
    else. *)
Definition own_key (k : string) : bool := bool_decide (k ∉ inherited).

Definition digit (a : Ascii.ascii) : option N :=
  let n := Ascii.N_of_ascii a in
  if ((48 <=? n) && (n <=? 57))%N then Some (n - 48)%N else None.

Fixpoint numeral (acc : N) (k : string) : option N :=
  match k with
  | EmptyString => Some acc
  | String a k' =>
      match digit a with
      | Some d => numeral (10 * acc + d)%N k'
      | None => None
      end
  end.

(** The keys that are array indices: the decimal numerals, without leading
    zeros, of the integers below 2^32 - 1.  The properties under them come
    first when the properties of an object are listed, in ascending
    order. *)
Definition array_index (k : string) : option N :=
  if decide (k = "0") then Some 0%N
  else if decide (k = "") then None
  else if String.prefix "0" k then None
  else match numeral 0 k with
       | Some n => if (n <? 4294967295)%N then Some n else None
       | None => None
       end.

(** The object [_players]: its own properties in the order in which
    [Object.values] visits them (array indices ascending, then the other
    keys in the order of their creation), and its prototype when an
    assignment to [__proto__] has put an object there; [None] is
    [Object.prototype], the prototype of every [{}]. *)
Record table := mkTable {
  props : list (string * player);
  proto : option player;
}.

Fixpoint assoc (k : string) (l : list (string * player)) : option player :=
  match l with
  | [] => None
  | (k', p) :: l' => if decide (k' = k) then Some p else assoc k l'
  end.

(** Where the property for a new key goes. *)
Fixpoint place (k : string) (p : player) (l : list (string * player)) :
    list (string * player) :=
  match l with
  | [] => [(k, p)]
  | (k', p') :: l' =>
      match array_index k, array_index k' with
      | Some n, Some n' => if (n' <? n)%N then (k', p') :: place k p l' else (k, p) :: l
      | Some _, None => (k, p) :: l
      | None, _ => (k', p') :: place k p l'
      end
  end.

(** A write to a property that is there keeps its place. *)
Fixpoint replace (k : string) (p : player) (l : list (string * player)) :
    list (string * player) :=
  match l with
  | [] => []
  | (k', p') :: l' =>
      if decide (k' = k) then (k, p) :: l' else (k', p') :: replace k p l'
  end.

(** [{}], the own property under a key, a write to it, and [delete]. *)
#[global] Instance table_empty : Empty table := mkTable [] None.

#[global] Instance table_lookup : Lookup string player table :=
  λ k t, assoc k (props t).

#[global] Instance table_insert : Insert string player table :=
  λ k p t,
    mkTable match assoc k (props t) with
            | Some _ => replace k p (props t)
            | None => place k p (props t)
            end (proto t).

#[global] Instance table_delete : Delete string table :=
  λ k t, mkTable (List.filter (λ e, negb (bool_decide (e.1 = k))) (props t)) (proto t).

(** [_players[k] = p]: under [__proto__] the assignment goes to the
    accessor, which makes [p] the prototype of [_players]. *)
Definition assign (k : string) (p : player) (t : table) : table :=
  if decide (k = "__proto__") then mkTable (props t) (Some p) else <[k := p]> t.

(** What [_players[k]] evaluates to: the player under an own property, the
    prototype of [_players] under [__proto__], a built-in function under
    one of the other inherited names, and [undefined] else.

    Two lookups are not followed further and read as [undefined] here.
    When the prototype of [_players] is a player object, [_players] also
    inherits the properties [id], [username] and [data] of that object; and
    when [Object.prototype] has a [data] property, [_players] inherits it
    under the key [data].  What is found there is a string or a data
    object, not a player. *)
Inductive looked :=
| Entry (p : player)
| Proto
| Builtin
| Undefined.

Definition get (k : string) (t : table) : looked :=
  match t !! k with
  | Some p => Entry p
  | None =>
      if decide (k = "__proto__") then Proto
      else if bool_decide (k ∈ inherited) then Builtin
      else Undefined
  end.

(** The object held by [_lobbyInfo].  [lobby_created] builds it without an
    [ownerId] property, [lobby_state] with one. *)
Record lobby_info := mkLobby {
  li_lobbyId : option string;
  li_lobbyName : option string;
  li_isPublic : option bool;
  li_ownerId : option string;
  li_maxPlayers : option Z;
}.

(** Inbound messages, by [msg.type]. *)
Inductive msg :=
| lobby_created (lobbyId lobbyName : option string) (isPublic : option bool)
    (maxPlayers : option Z) (playerId : option string)
| lobby_state (lobbyId lobbyName : option string) (isPublic : option bool)
    (ownerId : option string) (maxPlayers : option Z)
    (players : option (list player))
| lobby_player_joined (playerId username : option string)
| lobby_player_left (playerId reason : option string)
| lobby_left
| lobby_kicked (reason : option string)
| lobby_closed
| lobby_owner_changed (newOwnerId : option string)
| lobby_list (lobbies : option (list json))
| state_update (playerId username : option string)
    (data : option (gmap string json))
| custom (playerId event : option string) (data : option json)
| player_joined (playerId username : option string)
| player_left (playerId : option string)
| room_state (players : option (list player))
| error_msg (message : option string)
| unknown_type (type : string).

(** Outbound messages, the arguments of [_send]. *)
Inductive out_msg :=
| lobby_create (gameId lobbyId : option string) (lobbyName : string)
    (maxPlayers : Z) (playerId : option string) (username : string)
| lobby_join (gameId lobbyId playerId : option string) (username : string)
| lobby_leave
| lobby_list_request (gameId : option string)
| lobby_kick (targetId : option string)
| lobby_close
| join (gameId : string) (roomId playerId : option string) (username : string)
| state_update_out (playerId : option string) (data : option (gmap string json))
| custom_out (playerId event : option string) (data : option json).

(** What an ['error'] event or a rejected promise carries. *)
Inductive err :=
| TimedOut                 (* new Error('Connection timed out') *)
| TransportError           (* the socket's error event *)
| ServerError (message : option string)   (* new Error(msg.message) *)
| SyntaxError.             (* what [new WebSocket] throws for a URL it refuses *)

(** How a call of the API ends: it returns a value or it throws. *)
Inductive completion (A : Type) :=
| Normal (a : A)
| Abrupt (e : err).

Arguments Normal {A} a.
Arguments Abrupt {A} e.

(** Payloads of the events published through [emit], as they are when
    [emit] is called.  The players of [PRoomState] and [PLobbyJoined] are
    the objects of the player table, to which a later [state_update]
    writes: the payload has their content at the time of the call. *)
Inductive payload :=
| PReady (multiplayer : bool)
| PConnected (playerId : option string)
| PEmpty
| PError (e : err)
| PPlayerJoined (id username : option string)
| PPlayerLeft (id username reason : option string)
| PPlayerUpdated (id : option string) (data : option (gmap string json))
| PRoomState (players : list player)
| PMessage (from event : option string) (data : option json)
| PLobbyCreated (info : lobby_info) (playerId : option string)
| PLobbyJoined (lobbyId lobbyName ownerId : option string) (players : list player)
| PLobbyKicked (reason : option string)
| PLobbyOwnerChanged (newOwnerId : option string)
| PLobbyList (lobbies : list json).

(** ** Handlers *)

(** A function of the game: a reference (functions are compared by
    identity) and what a call does, [Some e] when it throws [e]. *)
Record user_fn := mkFn {
  fn_ref : nat;
  fn_body : payload → option string;
}.

(** The members of [_handlers]: functions of the game, and the one-shot
    closures that [createLobby], [joinLobby] and [listLobbies] subscribe
    for the promise of call [c]. *)
Inductive handler :=
| User (f : user_fn)
| onCreated (c : nat)
| onErr_create (c : nat)
| onJoined (c : nat)
| onErr_join (c : nat)
| onList (c : nat).

(** [h === handler] on function references. *)
Definition same_fn (a b : handler) : bool :=
  match a, b with
  | User f, User g => Nat.eqb (fn_ref f) (fn_ref g)
  | onCreated c, onCreated d
  | onErr_create c, onErr_create d
  | onJoined c, onJoined d
  | onErr_join c, onErr_join d
  | onList c, onList d => Nat.eqb c d
  | _, _ => false
  end.

(** ** The host environment *)

Inductive ready_state := CONNECTING | OPEN | CLOSING | CLOSED.

(** Which callbacks a socket carries.  A socket made by [_openWS] for the
    promise of call [c] has [onopen] and the rejecting [onerror] until it
    opens, and [onmessage], [onclose] and the publishing [onerror] after;
    a socket made by [connect] has all four from the start. *)
Inductive role :=
| Opening (c : nat) (timeout : nat)
| Managed
| Legacy.

Record socket := mkSocket {
  url : string;
  readyState : ready_state;
  callbacks : role;
}.

Inductive timer_kind :=
| OpenTimeout (k : nat) (c : nat)   (* _openWS, 8000 ms *)
| ListTimeout (c : nat).            (* listLobbies, 5000 ms *)

Record timer := mkTimer {
  t_kind : timer_kind;
  t_deadline : N;
  t_live : bool;
}.

(** The promise returned by an async API call, with what its continuation
    captured. *)
Inductive call_kind :=
| CreateCall (gameId lobbyId : option string) (lobbyName : string) (maxPlayers : Z)
| JoinCall (gameId lobbyId : option string)
| ListCall (gameId : option string).

(** What a promise is fulfilled with, as it is when the promise settles.
    The reactions of the promise run in the microtask checkpoint of the
    task that settles it, and see this content. *)
Inductive value :=
| VPayload (d : payload)
| VList (lobbies : list json)
| VUndefined.

Inductive phase :=
| AwaitOpen               (* suspended at [await _openWS(serverUrl)] *)
| Handshake               (* the inner promise is pending *)
| Resolved (v : value)
| Rejected (e : err).

(** The [.then(..).catch(..)] that [_init] chains on the promise. *)
Inductive reaction :=
| InitFallback (serverUrl : string) (roomId username : option string).

Record call := mkCall {
  c_kind : call_kind;
  c_phase : phase;
  c_then : option reaction;
}.

(** Microtasks. *)
Inductive job :=
| JOpened (c : nat)               (* [_openWS] resolved: resume call [c] *)
| JOpenFailed (c : nat) (e : err) (* [_openWS] rejected: call [c] throws *)
| JSettled (c : nat).             (* run the reaction chained on call [c] *)

(** Observations, in the order they happen. *)
Inductive obs :=
| TEmit (event : string) (data : payload)
| TInvoke (fn : handler) (data : payload)
| TConsoleError (e : string)
| TConsoleWarn (m : string)
| TNewSocket (k : nat) (url : string)
| TSend (k : nat) (m : out_msg).

(** ** Internal state *)

Record state := mkState {
  _ws : option nat;
  _connected : bool;
  _playerId : option string;
  _username : string;
  _gameId : option string;
  _roomId : option string;
  _players : table;
  _lobbyInfo : option nat;
  _isHost : bool;
  _handlers : gmap string (list handler);
  heap : list lobby_info;       (* lobby objects, by reference *)
  exported : list nat;          (* references returned to the game *)
  sockets : list socket;
  timers : list timer;
  calls : list call;
  jobs : list job;
  now : N;
  entropy : nat → string;       (* what Math.random()...slice(2, 9) yields *)
  draws : nat;
  trace : list obs;
  refused : string → bool;      (* the URLs for which [new WebSocket] throws *)
  Object_prototype_data : option (gmap string json);  (* [Object.prototype.data] *)
  builtin_data : gmap string (gmap string json);  (* [Object.prototype[k].data] *)
}.

Definition set_ws v s := mkState v (_connected s) (_playerId s) (_username s) (_gameId s) (_roomId s) (_players s) (_lobbyInfo s) (_isHost s) (_handlers s) (heap s) (exported s) (sockets s) (timers s) (calls s) (jobs s) (now s) (entropy s) (draws s) (trace s) (refused s) (Object_prototype_data s) (builtin_data s).
Definition set_connected v s := mkState (_ws s) v (_playerId s) (_username s) (_gameId s) (_roomId s) (_players s) (_lobbyInfo s) (_isHost s) (_handlers s) (heap s) (exported s) (sockets s) (timers s) (calls s) (jobs s) (now s) (entropy s) (draws s) (trace s) (refused s) (Object_prototype_data s) (builtin_data s).
Definition set_playerId v s := mkState (_ws s) (_connected s) v (_username s) (_gameId s) (_roomId s) (_players s) (_lobbyInfo s) (_isHost s) (_handlers s) (heap s) (exported s) (sockets s) (timers s) (calls s) (jobs s) (now s) (entropy s) (draws s) (trace s) (refused s) (Object_prototype_data s) (builtin_data s).
Definition set_username v s := mkState (_ws s) (_connected s) (_playerId s) v (_gameId s) (_roomId s) (_players s) (_lobbyInfo s) (_isHost s) (_handlers s) (heap s) (exported s) (sockets s) (timers s) (calls s) (jobs s) (now s) (entropy s) (draws s) (trace s) (refused s) (Object_prototype_data s) (builtin_data s).
Definition set_gameId v s := mkState (_ws s) (_connected s) (_playerId s) (_username s) v (_roomId s) (_players s) (_lobbyInfo s) (_isHost s) (_handlers s) (heap s) (exported s) (sockets s) (timers s) (calls s) (jobs s) (now s) (entropy s) (draws s) (trace s) (refused s) (Object_prototype_data s) (builtin_data s).
Definition set_roomId v s := mkState (_ws s) (_connected s) (_playerId s) (_username s) (_gameId s) v (_players s) (_lobbyInfo s) (_isHost s) (_handlers s) (heap s) (exported s) (sockets s) (timers s) (calls s) (jobs s) (now s) (entropy s) (draws s) (trace s) (refused s) (Object_prototype_data s) (builtin_data s).
Definition set_players v s := mkState (_ws s) (_connected s) (_playerId s) (_username s) (_gameId s) (_roomId s) v (_lobbyInfo s) (_isHost s) (_handlers s) (heap s) (exported s) (sockets s) (timers s) (calls s) (jobs s) (now s) (entropy s) (draws s) (trace s) (refused s) (Object_prototype_data s) (builtin_data s).
Definition set_lobbyInfo v s := mkState (_ws s) (_connected s) (_playerId s) (_username s) (_gameId s) (_roomId s) (_players s) v (_isHost s) (_handlers s) (heap s) (exported s) (sockets s) (timers s) (calls s) (jobs s) (now s) (entropy s) (draws s) (trace s) (refused s) (Object_prototype_data s) (builtin_data s).
Definition set_isHost v s := mkState (_ws s) (_connected s) (_playerId s) (_username s) (_gameId s) (_roomId s) (_players s) (_lobbyInfo s) v (_handlers s) (heap s) (exported s) (sockets s) (timers s) (calls s) (jobs s) (now s) (entropy s) (draws s) (trace s) (refused s) (Object_prototype_data s) (builtin_data s).
Definition set_handlers v s := mkState (_ws s) (_connected s) (_playerId s) (_username s) (_gameId s) (_roomId s) (_players s) (_lobbyInfo s) (_isHost s) v (heap s) (exported s) (sockets s) (timers s) (calls s) (jobs s) (now s) (entropy s) (draws s) (trace s) (refused s) (Object_prototype_data s) (builtin_data s).
Definition set_heap v s := mkState (_ws s) (_connected s) (_playerId s) (_username s) (_gameId s) (_roomId s) (_players s) (_lobbyInfo s) (_isHost s) (_handlers s) v (exported s) (sockets s) (timers s) (calls s) (jobs s) (now s) (entropy s) (draws s) (trace s) (refused s) (Object_prototype_data s) (builtin_data s).
Definition set_exported v s := mkState (_ws s) (_connected s) (_playerId s) (_username s) (_gameId s) (_roomId s) (_players s) (_lobbyInfo s) (_isHost s) (_handlers s) (heap s) v (sockets s) (timers s) (calls s) (jobs s) (now s) (entropy s) (draws s) (trace s) (refused s) (Object_prototype_data s) (builtin_data s).
Definition set_sockets v s := mkState (_ws s) (_connected s) (_playerId s) (_username s) (_gameId s) (_roomId s) (_players s) (_lobbyInfo s) (_isHost s) (_handlers s) (heap s) (exported s) v (timers s) (calls s) (jobs s) (now s) (entropy s) (draws s) (trace s) (refused s) (Object_prototype_data s) (builtin_data s).
Definition set_timers v s := mkState (_ws s) (_connected s) (_playerId s) (_username s) (_gameId s) (_roomId s) (_players s) (_lobbyInfo s) (_isHost s) (_handlers s) (heap s) (exported s) (sockets s) v (calls s) (jobs s) (now s) (entropy s) (draws s) (trace s) (refused s) (Object_prototype_data s) (builtin_data s).
Definition set_calls v s := mkState (_ws s) (_connected s) (_playerId s) (_username s) (_gameId s) (_roomId s) (_players s) (_lobbyInfo s) (_isHost s) (_handlers s) (heap s) (exported s) (sockets s) (timers s) v (jobs s) (now s) (entropy s) (draws s) (trace s) (refused s) (Object_prototype_data s) (builtin_data s).
Definition set_jobs v s := mkState (_ws s) (_connected s) (_playerId s) (_username s) (_gameId s) (_roomId s) (_players s) (_lobbyInfo s) (_isHost s) (_handlers s) (heap s) (exported s) (sockets s) (timers s) (calls s) v (now s) (entropy s) (draws s) (trace s) (refused s) (Object_prototype_data s) (builtin_data s).
Definition set_now v s := mkState (_ws s) (_connected s) (_playerId s) (_username s) (_gameId s) (_roomId s) (_players s) (_lobbyInfo s) (_isHost s) (_handlers s) (heap s) (exported s) (sockets s) (timers s) (calls s) (jobs s) v (entropy s) (draws s) (trace s) (refused s) (Object_prototype_data s) (builtin_data s).
Definition set_draws v s := mkState (_ws s) (_connected s) (_playerId s) (_username s) (_gameId s) (_roomId s) (_players s) (_lobbyInfo s) (_isHost s) (_handlers s) (heap s) (exported s) (sockets s) (timers s) (calls s) (jobs s) (now s) (entropy s) v (trace s) (refused s) (Object_prototype_data s) (builtin_data s).
Definition set_trace v s := mkState (_ws s) (_connected s) (_playerId s) (_username s) (_gameId s) (_roomId s) (_players s) (_lobbyInfo s) (_isHost s) (_handlers s) (heap s) (exported s) (sockets s) (timers s) (calls s) (jobs s) (now s) (entropy s) (draws s) v (refused s) (Object_prototype_data s) (builtin_data s).
Definition set_Object_prototype_data v s := mkState (_ws s) (_connected s) (_playerId s) (_username s) (_gameId s) (_roomId s) (_players s) (_lobbyInfo s) (_isHost s) (_handlers s) (heap s) (exported s) (sockets s) (timers s) (calls s) (jobs s) (now s) (entropy s) (draws s) (trace s) (refused s) v (builtin_data s).
Definition set_builtin_data v s := mkState (_ws s) (_connected s) (_playerId s) (_username s) (_gameId s) (_roomId s) (_players s) (_lobbyInfo s) (_isHost s) (_handlers s) (heap s) (exported s) (sockets s) (timers s) (calls s) (jobs s) (now s) (entropy s) (draws s) (trace s) (refused s) (Object_prototype_data s) v.

(** The variables as the script initialises them, on a host whose
    [WebSocket] constructor refuses the URLs [refused]; nothing exists yet
    in the environment, and the built-in objects are as the host made
    them. *)
Definition boot (refused : string → bool) (rnd : nat → string) : state :=
  mkState None false None "Player" None None ∅ None false ∅
          [] [] [] [] [] [] 0%N rnd 0 [] refused None ∅.

(** The same on a host that refuses no URL. *)
Definition init (rnd : nat → string) : state := boot (λ _, false) rnd.

(** ** JavaScript idioms used by the engine *)

(** Truthiness of a string-or-absent value. *)
Definition truthy (o : option string) : bool :=
  match o with
  | Some x => negb (bool_decide (x = ""))
  | None => false
  end.

(** [a || b] with [b] a string. *)
Definition or_str (a : option string) (b : string) : string :=
  match a with
  | Some x => if bool_decide (x = "") then b else x
  | None => b
  end.

(** [a || undefined]. *)
Definition or_undefined (a : option string) : option string :=
  if truthy a then a else None.

(** [n || d] on a number-or-absent value: [0] is falsy. *)
Definition or_num (a : option Z) (d : Z) : Z :=
  match a with
  | Some n => if bool_decide (n = 0%Z) then d else n
  | None => d
  end.

(** The property key [_players[id]] uses: an absent id reads as the
    string "undefined". *)
Definition key (id : option string) : string := default "undefined" id.

(** [field === _playerId]: an absent message field is [undefined], an
    unassigned player id is [null], and neither equals anything else. *)
Definition strict_eq (field pid : option string) : bool :=
  match field, pid with
  | Some a, Some b => bool_decide (a = b)
  | _, _ => false
  end.

(** [{ ...a, ...b }] on data objects; spreading [undefined] adds nothing,
    keys of [b] win. *)
Definition spread (a b : option (gmap string json)) : gmap string json :=
  default ∅ b ∪ default ∅ a.

(** [Object.values(_players)]: the own properties, in their order. *)
Definition Object_values (t : table) : list player := (props t).*2.

(** [x.data] for an object [x] whose own [data] property is [d]: an object
    without one inherits the one of [Object.prototype]. *)
Definition inherit (d : option (gmap string json)) (s : state) :
    option (gmap string json) :=
  match d with
  | Some _ => d
  | None => Object_prototype_data s
  end.

(** The same where the property can hold any value; the inherited object
    is given with its keys in the order of the map. *)
Definition inherit_json (d : option json) (s : state) : option json :=
  match d with
  | Some _ => d
  | None => (λ o, JObj (map_to_list o)) <$> Object_prototype_data s
  end.

Definition log (o : obs) (s : state) : state := set_trace (trace s ++ [o]) s.

(** ['p_' + Math.random().toString(36).slice(2, 9)]. *)
Definition random_id (s : state) : string * state :=
  ("p_" +:+ entropy s (draws s), set_draws (S (draws s)) s).

(** [_playerId = _playerId || ('p_' + ...)]. *)
Definition assign_playerId (s : state) : state :=
  if truthy (_playerId s) then s
  else let (id, s1) := random_id s in set_playerId (Some id) s1.

(** ** Promises *)

Definition is_pending (p : phase) : bool :=
  match p with
  | AwaitOpen | Handshake => true
  | Resolved _ | Rejected _ => false
  end.

Definition enqueue (j : job) (s : state) : state := set_jobs (jobs s ++ [j]) s.

Definition set_phase (c : nat) (p : phase) (s : state) : state :=
  set_calls (alter (λ cl, mkCall (c_kind cl) p (c_then cl)) c (calls s)) s.

(** Settling the promise of call [c]: only the first settlement counts,
    and a chained reaction is queued as a microtask. *)
Definition settle (c : nat) (p : phase) (s : state) : state :=
  match calls s !! c with
  | Some cl =>
      if is_pending (c_phase cl) then
        let s1 := set_phase c p s in
        match c_then cl with
        | Some _ => enqueue (JSettled c) s1
        | None => s1
        end
      else s
  | None => s
  end.

Definition resolve (c : nat) (v : value) : state → state := settle c (Resolved v).
Definition reject (c : nat) (e : err) : state → state := settle c (Rejected e).

(** ** Event emitter *)

(** [_handlers[event] || []]. *)
Definition handlers_of (event : string) (s : state) : list handler :=
  default [] (_handlers s !! event).

Definition on (event : string) (handler : handler) (s : state) : state :=
  set_handlers (<[event := handlers_of event s ++ [handler]]> (_handlers s)) s.

Definition off (event : string) (handler : handler) (s : state) : state :=
  match _handlers s !! event with
  | None => s
  | Some hs =>
      set_handlers
        (<[event := List.filter (λ h, negb (same_fn h handler)) hs]> (_handlers s)) s
  end.

Inductive outcome := Returned | Threw (e : string).

(** [{ lobbies }] of the argument of [onList]. *)
Definition lobbies_of (d : payload) : value :=
  match d with
  | PLobbyList l => VList l
  | _ => VUndefined
  end.

(** [fn(data)].  The one-shot closures unsubscribe their pair and settle
    their promise. *)
Definition call_fn (fn : handler) (data : payload) (s : state) : outcome * state :=
  let s := log (TInvoke fn data) s in
  match fn with
  | User f =>
      match fn_body f data with
      | Some e => (Threw e, s)
      | None => (Returned, s)
      end
  | onCreated c =>
      (Returned, resolve c (VPayload data)
                   (off "error" (onErr_create c) (off "lobbyCreated" (onCreated c) s)))
  | onErr_create c =>
      (Returned, reject c (match data with PError e => e | _ => TransportError end)
                   (off "error" (onErr_create c) (off "lobbyCreated" (onCreated c) s)))
  | onJoined c =>
      (Returned, resolve c (VPayload data)
                   (off "error" (onErr_join c) (off "lobbyJoined" (onJoined c) s)))
  | onErr_join c =>
      (Returned, reject c (match data with PError e => e | _ => TransportError end)
                   (off "error" (onErr_join c) (off "lobbyJoined" (onJoined c) s)))
  | onList c =>
      (Returned, resolve c (lobbies_of data) (off "lobbyList" (onList c) s))
  end.

(** [try { body } catch (e) { handle(e) }]. *)
Definition try_catch (body : state → outcome * state)
    (handle : string → state → outcome * state) (s : state) : outcome * state :=
  match body s with
  | (Threw e, s1) => handle e s1
  | r => r
  end.

(** [Array.prototype.forEach]: an exception of the callback ends the loop
    and goes to the caller. *)
Fixpoint forEach {A} (cb : A → state → outcome * state) (l : list A)
    (s : state) : outcome * state :=
  match l with
  | [] => (Returned, s)
  | x :: l' =>
      match cb x s with
      | (Returned, s1) => forEach cb l' s1
      | thrown => thrown
      end
  end.

Definition console_error (e : string) (s : state) : outcome * state :=
  (Returned, log (TConsoleError e) s).

(** [emit(event, data)].  The array is read once, before the loop:
    [off] replaces it and [on] appends to it, and [forEach] visits the
    elements that were there when it started. *)
Definition emit (event : string) (data : payload) (s : state) : outcome * state :=
  forEach (λ fn, try_catch (call_fn fn data) console_error)
          (handlers_of event s) (log (TEmit event data) s).

(** A statement [emit(..);] inside the engine: what follows runs in the
    state that [emit] leaves. *)
Definition emit_ (event : string) (data : payload) (s : state) : state :=
  (emit event data s).2.

(** ** Low-level WebSocket connect *)

Definition ws_open (s : state) : option nat :=
  match _ws s with
  | Some k =>
      match sockets s !! k with
      | Some sk => match readyState sk with OPEN => Some k | _ => None end
      | None => None
      end
  | None => None
  end.

(** [ws.close()]. *)
Definition ws_close (k : nat) (s : state) : state :=
  match sockets s !! k with
  | Some sk =>
      match readyState sk with
      | CONNECTING | OPEN =>
          set_sockets (<[k := mkSocket (url sk) CLOSING (callbacks sk)]> (sockets s)) s
      | CLOSING | CLOSED => s
      end
  | None => s
  end.

(** [new WebSocket(serverUrl)] with its callbacks; [None] when the
    constructor throws, which it does for a URL that the host refuses. *)
Definition new_socket (serverUrl : string) (r : role) (s : state) : option state :=
  if refused s serverUrl then None
  else Some (log (TNewSocket (length (sockets s)) serverUrl)
                 (set_sockets (sockets s ++ [mkSocket serverUrl CONNECTING r]) s)).

Definition setTimeout (kind : timer_kind) (delay : N) (s : state) : state :=
  set_timers (timers s ++ [mkTimer kind (now s + delay) true]) s.

Definition clearTimeout (t : nat) (s : state) : state :=
  match timers s !! t with
  | Some tm => set_timers (<[t := mkTimer (t_kind tm) (t_deadline tm) false]> (timers s)) s
  | None => s
  end.

(** The executor of the promise [_openWS(serverUrl)] that call [c] awaits.
    An exception of the constructor ends the executor and rejects the
    promise. *)
Definition _openWS (serverUrl : string) (c : nat) (s : state) : state :=
  match ws_open s with
  | Some _ => enqueue (JOpened c) s
  | None =>
      let s1 := match _ws s with
                | Some k => set_ws None (ws_close k s)
                | None => s
                end in
      let k := length (sockets s1) in
      let t := length (timers s1) in
      match new_socket serverUrl (Opening c t) s1 with
      | Some s2 => setTimeout (OpenTimeout k c) 8000 s2
      | None => enqueue (JOpenFailed c SyntaxError) s1
      end
  end.

Definition _send (m : out_msg) (s : state) : state :=
  match ws_open s with
  | Some k => log (TSend k m) s
  | None => s
  end.

(** ** Message dispatcher *)

(** The object [_lobbyInfo] refers to. *)
Definition lobby_obj (s : state) : option lobby_info :=
  _lobbyInfo s ≫= (heap s !!.).

(** [{ ..._lobbyInfo }]: the properties of that object, none for [null]. *)
Definition spread_lobbyInfo (s : state) : lobby_info :=
  default (mkLobby None None None None None) (lobby_obj s).

(** [_lobbyInfo = { ... }]: a new object. *)
Definition new_lobbyInfo (li : lobby_info) (s : state) : state :=
  set_lobbyInfo (Some (length (heap s))) (set_heap (heap s ++ [li]) s).

Definition with_ownerId (o : option string) (li : lobby_info) : lobby_info :=
  mkLobby (li_lobbyId li) (li_lobbyName li) (li_isPublic li) o (li_maxPlayers li).

(** [_players = {}; (msg.players || []).forEach(p => { _players[p.id] = p; })]. *)
Definition load_players (players : option (list player)) : table :=
  foldl (λ t p, assign (key (p_id p)) p t) ∅ (default [] players).

(** [leaving && leaving.username] for what [_players[k]] evaluated to. *)
Definition username_of (x : looked) (t : table) : option string :=
  match x with
  | Entry p => p_username p
  | Proto => proto t ≫= p_username
  | Builtin | Undefined => None
  end.

(** [x.data = { ...x.data, ...data }] with the data of player [p]. *)
Definition merge_data (p : player) (data : option (gmap string json))
    (s : state) : player :=
  mkPlayer (p_id p) (p_username p) (Some (spread (inherit (p_data p) s) data)).

(** The [if] of the [state_update] case, with [data] what [msg.data]
    evaluates to.  What is found under the key is an object, so the first
    branch is taken, unless nothing is found: a player gets the merged
    data, and so does the prototype of [_players] or the built-in function
    that the key names; they are no entries of the table. *)
Definition update_data (k : string) (playerId username : option string)
    (data : option (gmap string json)) (s : state) : state :=
  match get k (_players s) with
  | Entry p => set_players (<[k := merge_data p data s]> (_players s)) s
  | Proto =>
      match proto (_players s) with
      | Some p => set_players (mkTable (props (_players s)) (Some (merge_data p data s))) s
      | None =>
          set_Object_prototype_data (Some (spread (Object_prototype_data s) data)) s
      end
  | Builtin =>
      set_builtin_data
        (<[k := spread (inherit (builtin_data s !! k) s) data]> (builtin_data s)) s
  | Undefined =>
      set_players
        (<[k := mkPlayer playerId (Some (or_str username "Player"))
                         (Some (default ∅ data))]> (_players s)) s
  end.

Definition _handleMessage (m : msg) (s : state) : state :=
  match m with
  | lobby_created lobbyId lobbyName isPublic maxPlayers playerId =>
      let s := new_lobbyInfo (mkLobby lobbyId lobbyName isPublic None maxPlayers) s in
      let s := set_isHost true s in
      emit_ "lobbyCreated" (PLobbyCreated (spread_lobbyInfo s) playerId) s
  | lobby_state lobbyId lobbyName isPublic ownerId maxPlayers players =>
      let s := set_players (load_players players) s in
      let s := new_lobbyInfo (mkLobby lobbyId lobbyName isPublic ownerId maxPlayers) s in
      let s := set_isHost (strict_eq ownerId (_playerId s)) s in
      emit_ "lobbyJoined"
            (PLobbyJoined lobbyId lobbyName ownerId (Object_values (_players s))) s
  | lobby_player_joined playerId username =>
      let s := set_players
                 (assign (key playerId) (mkPlayer playerId username (Some ∅))
                         (_players s)) s in
      emit_ "playerJoined" (PPlayerJoined playerId username) s
  | lobby_player_left playerId reason =>
      let leaving := username_of (get (key playerId) (_players s)) (_players s) in
      let s := set_players (delete (key playerId) (_players s)) s in
      emit_ "playerLeft" (PPlayerLeft playerId leaving reason) s
  | lobby_left =>
      emit_ "lobbyLeft" PEmpty
            (set_players ∅ (set_isHost false (set_lobbyInfo None s)))
  | lobby_kicked reason =>
      emit_ "lobbyKicked" (PLobbyKicked reason)
            (set_players ∅ (set_isHost false (set_lobbyInfo None s)))
  | lobby_closed =>
      emit_ "lobbyClosed" PEmpty
            (set_players ∅ (set_isHost false (set_lobbyInfo None s)))
  | lobby_owner_changed newOwnerId =>
      let s := match _lobbyInfo s with
               | Some l => set_heap (alter (with_ownerId newOwnerId) l (heap s)) s
               | None => s
               end in
      let s := set_isHost (strict_eq newOwnerId (_playerId s)) s in
      emit_ "lobbyOwnerChanged" (PLobbyOwnerChanged newOwnerId) s
  | lobby_list lobbies =>
      emit_ "lobbyList" (PLobbyList (default [] lobbies)) s
  | state_update playerId username data =>
      let s := update_data (key playerId) playerId username (inherit data s) s in
      emit_ "playerUpdated" (PPlayerUpdated playerId (inherit data s)) s
  | custom playerId event data =>
      emit_ "message" (PMessage playerId event (inherit_json data s)) s
  | player_joined playerId username =>
      let s := set_players
                 (assign (key playerId) (mkPlayer playerId username (Some ∅))
                         (_players s)) s in
      emit_ "playerJoined" (PPlayerJoined playerId username) s
  | player_left playerId =>
      let leaving := username_of (get (key playerId) (_players s)) (_players s) in
      let s := set_players (delete (key playerId) (_players s)) s in
      emit_ "playerLeft" (PPlayerLeft playerId leaving None) s
  | room_state players =>
      let s := set_players (load_players players) s in
      emit_ "roomState" (PRoomState (Object_values (_players s))) s
  | error_msg message =>
      emit_ "error" (PError (ServerError message))
            (log (TConsoleWarn "[Lorl server error]") s)
  | unknown_type _ => s
  end.

(** ** Lobby API *)

Record create_opts := mkCreate {
  co_serverUrl : string;
  co_gameId : option string;
  co_lobbyId : option string;
  co_lobbyName : option string;
  co_maxPlayers : option Z;
  co_username : option string;
}.

Record join_opts := mkJoin {
  jo_serverUrl : string;
  jo_gameId : option string;
  jo_lobbyId : option string;
  jo_username : option string;
}.

(** The promise object of a call that has just started. *)
Definition new_call (k : call_kind) (s : state) : state :=
  set_calls (calls s ++ [mkCall k AwaitOpen None]) s.

(** [createLobby], up to [await _openWS(serverUrl)]; the number of the
    returned promise comes with the state. *)
Definition createLobby (o : create_opts) (s : state) : nat * state :=
  let s := assign_playerId s in
  let s := set_username (or_str (co_username o) (_username s)) s in
  let s := set_gameId (co_gameId o) s in
  let c := length (calls s) in
  let s := new_call (CreateCall (co_gameId o) (co_lobbyId o)
                                (default "My Lobby" (co_lobbyName o))
                                (default 8%Z (co_maxPlayers o))) s in
  (c, _openWS (co_serverUrl o) c s).

(** [createLobby], after the [await]. *)
Definition createLobby_resume (c : nat) (gameId lobbyId : option string)
    (lobbyName : string) (maxPlayers : Z) (s : state) : state :=
  let s := emit_ "connected" (PConnected (_playerId s)) s in
  let s := on "lobbyCreated" (onCreated c) s in
  let s := on "error" (onErr_create c) s in
  _send (lobby_create gameId (or_undefined lobbyId) lobbyName maxPlayers
                      (_playerId s) (_username s)) s.

Definition joinLobby (o : join_opts) (s : state) : nat * state :=
  let s := assign_playerId s in
  let s := set_username (or_str (jo_username o) (_username s)) s in
  let s := set_gameId (jo_gameId o) s in
  let c := length (calls s) in
  let s := new_call (JoinCall (jo_gameId o) (jo_lobbyId o)) s in
  (c, _openWS (jo_serverUrl o) c s).

Definition joinLobby_resume (c : nat) (gameId lobbyId : option string)
    (s : state) : state :=
  let s := emit_ "connected" (PConnected (_playerId s)) s in
  let s := on "lobbyJoined" (onJoined c) s in
  let s := on "error" (onErr_join c) s in
  _send (lobby_join gameId lobbyId (_playerId s) (_username s)) s.

Definition leaveLobby (s : state) : state :=
  let s := _send lobby_leave s in
  set_players ∅ (set_isHost false (set_lobbyInfo None s)).

Definition listLobbies (serverUrl : string) (gameId : option string)
    (s : state) : nat * state :=
  let c := length (calls s) in
  let s := new_call (ListCall gameId) s in
  (c, _openWS serverUrl c s).

Definition listLobbies_resume (c : nat) (gameId : option string)
    (s : state) : state :=
  let s := on "lobbyList" (onList c) s in
  let s := _send (lobby_list_request gameId) s in
  setTimeout (ListTimeout c) 5000 s.

Definition kickFromLobby (targetPlayerId : option string) : state → state :=
  _send (lobby_kick targetPlayerId).

Definition closeLobby : state → state := _send lobby_close.

(** [_lobbyInfo ? { ..._lobbyInfo } : null]: the copy is a new object, and
    its reference is now in the hands of the game. *)
Definition getLobbyInfo (s : state) : option nat * state :=
  match _lobbyInfo s with
  | Some _ =>
      let l := length (heap s) in
      (Some l, set_exported (l :: exported s)
                 (set_heap (heap s ++ [spread_lobbyInfo s]) s))
  | None => (None, s)
  end.

(** ** Legacy room API *)

(** [connect] throws what the constructor throws, with the three
    assignments made. *)
Definition connect (serverUrl : string) (roomId username : option string)
    (s : state) : completion (option string) * state :=
  let s := assign_playerId s in
  let s := set_username (or_str username (_username s)) s in
  let s := set_roomId roomId s in
  let k := length (sockets s) in
  match new_socket serverUrl Legacy s with
  | Some s =>
      let s := set_ws (Some k) s in
      (Normal (_playerId s), s)
  | None => (Abrupt SyntaxError, s)
  end.

Definition disconnect (s : state) : state :=
  let s := match _ws s with
           | Some k => set_ws None (ws_close k s)
           | None => s
           end in
  set_isHost false (set_lobbyInfo None (set_connected false s)).

(** ** Shared API *)

Definition updateState (data : option (gmap string json)) (s : state) : state :=
  _send (state_update_out (_playerId s) data) s.

Definition sendMessage (event : option string) (data : option json)
    (s : state) : state :=
  _send (custom_out (_playerId s) event data) s.

Definition getPlayers (s : state) : list player := Object_values (_players s).
Definition getPlayerId (s : state) : option string := _playerId s.
Definition getUsername (s : state) : string := _username s.
Definition isConnected (s : state) : bool := _connected s.
Definition isHost (s : state) : bool := _isHost s.
Definition myId (s : state) : option string := _playerId s.

(** [(_players[pid] && _players[pid].data) || {}]. *)
Definition getState (pid : option string) (s : state) : gmap string json :=
  default ∅
    match get (key pid) (_players s) with
    | Entry p => inherit (p_data p) s
    | Proto =>
        match proto (_players s) with
        | Some p => inherit (p_data p) s
        | None => Object_prototype_data s
        end
    | Builtin => inherit (builtin_data s !! key pid) s
    | Undefined => None
    end.

(** ** Platform init hook *)

Inductive lobby_ctx :=
| ctx_createLobby (lobbyName : option string) (maxPlayers : option Z)
| ctx_joinLobbyId (joinLobbyId : string).

(** [promise.then(..).catch(..)]. *)
Definition chain (c : nat) (r : reaction) (s : state) : state :=
  set_calls (alter (λ cl, mkCall (c_kind cl) (c_phase cl) (Some r)) c (calls s)) s.

Definition _init (serverUrl roomId username gameId : option string)
    (lobbyCtx : option lobby_ctx) (s : state) : state :=
  let s := set_gameId (Some (or_str gameId "unknown")) s in
  let s := set_username (or_str username "Player") s in
  if negb (truthy serverUrl) then emit_ "ready" (PReady false) s
  else
    let url := default "" serverUrl in
    let legacy s :=
      match connect url roomId username s with
      | (Normal _, s) => emit_ "ready" (PReady true) s
      | (Abrupt _, s) => s
      end in
    match lobbyCtx with
    | Some (ctx_createLobby lobbyName maxPlayers) =>
        let (c, s1) :=
          createLobby (mkCreate url (_gameId s) None
                                (Some (or_str lobbyName "My Lobby"))
                                (Some (or_num maxPlayers 8)) username) s in
        chain c (InitFallback url roomId username) s1
    | Some (ctx_joinLobbyId joinLobbyId) =>
        if truthy (Some joinLobbyId) then
          let (c, s1) :=
            joinLobby (mkJoin url (_gameId s) (Some joinLobbyId) username) s in
          chain c (InitFallback url roomId username) s1
        else legacy s
    | None => legacy s
    end.

(** ** Microtasks *)

(** Call [c] resumes after its [await]; when the rest of the function has
    run, its inner promise is pending. *)
Definition resume (c : nat) (s : state) : state :=
  match calls s !! c with
  | Some cl =>
      match c_phase cl with
      | AwaitOpen =>
          set_phase c Handshake
            match c_kind cl with
            | CreateCall gameId lobbyId lobbyName maxPlayers =>
                createLobby_resume c gameId lobbyId lobbyName maxPlayers s
            | JoinCall gameId lobbyId => joinLobby_resume c gameId lobbyId s
            | ListCall gameId => listLobbies_resume c gameId s
            end
      | _ => s
      end
  | None => s
  end.

(** The [await] of call [c] throws: the async function rejects its promise. *)
Definition fail_open (c : nat) (e : err) (s : state) : state :=
  match calls s !! c with
  | Some cl =>
      match c_phase cl with
      | AwaitOpen => reject c e s
      | _ => s
      end
  | None => s
  end.

(** The text of the [console.warn] in the [catch] of [_init]. *)
Definition fallback_warning (k : call_kind) : string :=
  match k with
  | CreateCall _ _ _ _ => "[Lorl] createLobby failed, falling back to legacy room:"
  | _ => "[Lorl] joinLobby failed, falling back to legacy room:"
  end.

(** What [_init] chained on the promise of call [c]. *)
Definition react (c : nat) (s : state) : state :=
  match calls s !! c with
  | Some cl =>
      match c_then cl, c_phase cl with
      | Some (InitFallback serverUrl roomId username), Resolved _ =>
          emit_ "ready" (PReady true) s
      | Some (InitFallback serverUrl roomId username), Rejected _ =>
          let s := log (TConsoleWarn (fallback_warning (c_kind cl))) s in
          match connect serverUrl roomId username s with
          | (Normal _, s) => emit_ "ready" (PReady true) s
          | (Abrupt _, s) => s
          end
      | _, _ => s
      end
  | None => s
  end.

Definition run_job (j : job) (s : state) : state :=
  match j with
  | JOpened c => resume c s
  | JOpenFailed c e => fail_open c e s
  | JSettled c => react c s
  end.

(** The microtask checkpoint: jobs run first in, first out, until the queue
    is empty. *)
Fixpoint drain_n (n : nat) (s : state) : state :=
  match n with
  | 0 => s
  | S n' =>
      match jobs s with
      | [] => s
      | j :: js => drain_n n' (run_job j (set_jobs js s))
      end
  end.

Definition drain (s : state) : state := drain_n (2 * length (jobs s)) s.

(** ** Socket and timer callbacks *)

Definition set_readyState (k : nat) (r : ready_state) (s : state) : state :=
  set_sockets (alter (λ sk, mkSocket (url sk) r (callbacks sk)) k (sockets s)) s.

Definition set_callbacks (k : nat) (r : role) (s : state) : state :=
  set_sockets (alter (λ sk, mkSocket (url sk) (readyState sk) r) k (sockets s)) s.

Definition callbacks_of (k : nat) (s : state) : option role :=
  callbacks <$> sockets s !! k.

Definition onopen (k : nat) (s : state) : state :=
  match callbacks_of k s with
  | Some (Opening c t) =>
      let s := clearTimeout t s in
      let s := set_ws (Some k) s in
      let s := set_connected true s in
      let s := set_callbacks k Managed s in
      enqueue (JOpened c) s
  | Some Legacy =>
      let s := set_connected true s in
      let s := _send (join (or_str (_gameId s) "unknown") (_roomId s)
                           (_playerId s) (_username s)) s in
      emit_ "connected" (PConnected (_playerId s)) s
  | _ => s
  end.

(** [None] is a frame that [JSON.parse] refuses: the [catch] drops it. *)
Definition onmessage (k : nat) (frame : option msg) (s : state) : state :=
  match callbacks_of k s, frame with
  | Some Managed, Some m | Some Legacy, Some m => _handleMessage m s
  | _, _ => s
  end.

Definition onclose (k : nat) (s : state) : state :=
  match callbacks_of k s with
  | Some Managed =>
      let s := set_connected false s in
      let s := set_lobbyInfo None s in
      let s := set_isHost false s in
      emit_ "disconnected" PEmpty s
  | Some Legacy =>
      let s := set_connected false s in
      emit_ "disconnected" PEmpty s
  | _ => s
  end.

Definition onerror (k : nat) (s : state) : state :=
  match callbacks_of k s with
  | Some (Opening c t) => enqueue (JOpenFailed c TransportError) (clearTimeout t s)
  | Some Managed | Some Legacy => emit_ "error" (PError TransportError) s
  | None => s
  end.

(** The callback of timer [t]. *)
Definition timeout (t : nat) (s : state) : state :=
  match t_kind <$> timers s !! t with
  | Some (OpenTimeout k c) => enqueue (JOpenFailed c TimedOut) (ws_close k s)
  | Some (ListTimeout c) => resolve c (VList []) (off "lobbyList" (onList c) s)
  | None => s
  end.

(** ** The event loop *)

(** What the game calls on [window.Lorl]; the accessors that only read are
    the functions above. *)
Inductive api :=
| Connect (serverUrl : string) (roomId username : option string)
| Disconnect
| UpdateState (data : option (gmap string json))
| SendMessage (event : option string) (data : option json)
| On (event : string) (f : user_fn)
| Off (event : string) (f : user_fn)
| CreateLobby (o : create_opts)
| JoinLobby (o : join_opts)
| LeaveLobby
| ListLobbies (serverUrl : string) (gameId : option string)
| KickFromLobby (targetPlayerId : option string)
| CloseLobby
| GetLobbyInfo
| Init (serverUrl roomId username gameId : option string) (lobbyCtx : option lobby_ctx).

Definition api_call (a : api) (s : state) : state :=
  match a with
  | Connect serverUrl roomId username => (connect serverUrl roomId username s).2
  | Disconnect => disconnect s
  | UpdateState data => updateState data s
  | SendMessage event data => sendMessage event data s
  | On event f => on event (User f) s
  | Off event f => off event (User f) s
  | CreateLobby o => (createLobby o s).2
  | JoinLobby o => (joinLobby o s).2
  | LeaveLobby => leaveLobby s
  | ListLobbies serverUrl gameId => (listLobbies serverUrl gameId s).2
  | KickFromLobby targetPlayerId => kickFromLobby targetPlayerId s
  | CloseLobby => closeLobby s
  | GetLobbyInfo => (getLobbyInfo s).2
  | Init serverUrl roomId username gameId lobbyCtx =>
      _init serverUrl roomId username gameId lobbyCtx s
  end.

(** The moves of the environment.  [Call] is a call made by the game while
    its own task runs and [Yield] the end of that task; [Mutate] is the game
    writing into an object it got from [getLobbyInfo]; the others are tasks
    of the host: a socket opened, delivered a frame, failed, closed, a timer
    ran out, time passed. *)
Inductive event :=
| Call (a : api)
| Yield
| Mutate (l : nat) (v : lobby_info)
| Elapse (dt : N)
| SockOpen (k : nat)
| SockMessage (k : nat) (frame : option msg)
| SockError (k : nat)
| SockClose (k : nat)
| TimerFire (t : nat).

Definition readyState_of (k : nat) (s : state) : option ready_state :=
  readyState <$> sockets s !! k.

Definition timer_due (t : nat) (s : state) : bool :=
  match timers s !! t with
  | Some tm => t_live tm && bool_decide (t_deadline tm ≤ now s)%N
  | None => false
  end.

(** One task.  A host task first lets the microtasks of the task before it
    finish, runs its callback if the object is in a state where the host
    fires it, and ends with a microtask checkpoint; a failing socket fires
    [error] and then [close]. *)
Definition step (e : event) (s : state) : state :=
  match e with
  | Call a => api_call a s
  | Yield => drain s
  | Mutate l v =>
      if bool_decide (l ∈ exported s) then set_heap (<[l := v]> (heap s)) s else s
  | Elapse dt => set_now (now s + dt)%N s
  | SockOpen k =>
      let s := drain s in
      match readyState_of k s with
      | Some CONNECTING => drain (onopen k (set_readyState k OPEN s))
      | _ => s
      end
  | SockMessage k frame =>
      let s := drain s in
      match readyState_of k s with
      | Some OPEN => drain (onmessage k frame s)
      | _ => s
      end
  | SockError k =>
      let s := drain s in
      match readyState_of k s with
      | Some CLOSED | None => s
      | Some _ => drain (onclose k (drain (onerror k (set_readyState k CLOSED s))))
      end
  | SockClose k =>
      let s := drain s in
      match readyState_of k s with
      | Some CLOSED | None => s
      | Some _ => drain (onclose k (set_readyState k CLOSED s))
      end
  | TimerFire t =>
      let s := drain s in
      if timer_due t s then drain (timeout t (clearTimeout t s)) else s
  end.

Definition run (es : list event) (s : state) : state := foldl (λ s e, step e s) s es.

(** The states the engine can be in. *)
Inductive reachable : state → Prop :=
| reachable_boot refused rnd : reachable (boot refused rnd)
| reachable_step s e : reachable s → reachable (step e s).

(** ** Vocabulary of the statements *)

(** What a call of [fn] with [data] throws, if it throws. *)
Definition thrown (fn : handler) (data : payload) : option string :=
  match fn with
  | User f => fn_body f data
  | _ => None
  end.

(** What one isolated handler call leaves in the log. *)
Definition invocation (data : payload) (fn : handler) : list obs :=
  TInvoke fn data ::
  match thrown fn data with
  | Some e => [TConsoleError e]
  | None => []
  end.

(** The handlers called in a stretch of the log, in order. *)
Definition invoked (tr : list obs) : list handler :=
  omap (λ o, match o with TInvoke fn _ => Some fn | _ => None end) tr.

(** The variables that publishing never assigns: all but [_handlers], and
    the promises, microtasks and log of the environment. *)
Definition frame_emit (s s' : state) : Prop :=
  _ws s' = _ws s ∧ _connected s' = _connected s ∧ _playerId s' = _playerId s ∧
  _username s' = _username s ∧ _gameId s' = _gameId s ∧ _roomId s' = _roomId s ∧
  _players s' = _players s ∧ _lobbyInfo s' = _lobbyInfo s ∧ _isHost s' = _isHost s ∧
  heap s' = heap s ∧ exported s' = exported s ∧ sockets s' = sockets s ∧
  timers s' = timers s ∧ now s' = now s ∧ entropy s' = entropy s ∧
  draws s' = draws s ∧ refused s' = refused s ∧
  Object_prototype_data s' = Object_prototype_data s ∧
  builtin_data s' = builtin_data s.

(** The shallow merge of payloads in arrival order, in the words of the
    specification: the keys of a later payload override those of the
    earlier ones. *)
Fixpoint shallow_merge (payloads : list (gmap string json)) : gmap string json :=
  match payloads with
  | [] => ∅
  | p :: later => shallow_merge later ∪ p
  end.

(** A [state_update] as it arrives: player id, username, payload. *)
Definition update : Type :=
  option string * option string * option (gmap string json).

Definition update_msg (u : update) : msg := state_update u.1.1 u.1.2 u.2.

(** The payloads, in arrival order, of the updates that are for [pid]. *)
Definition payloads_for (pid : option string) (us : list update) :
    list (gmap string json) :=
  omap (λ u : update, if bool_decide (key u.1.1 = key pid)
                      then Some (default ∅ u.2) else None) us.

(** Frames handled one after the other. *)
Definition dispatch (ms : list msg) (s : state) : state :=
  foldl (λ s m, _handleMessage m s) s ms.

(** The sockets that are open. *)
Definition open_sockets (s : state) : list nat :=
  List.filter (λ k, match readyState_of k s with Some OPEN => true | _ => false end)
              (seq 0 (length (sockets s))).

(** A session that creates a lobby, sees a peer join, and loses its
    socket. *)
Definition lost_connection : list event :=
  [Call (CreateLobby (mkCreate "wss://host" (Some "g1") None (Some "Arena")
                               (Some 4%Z) (Some "Ann")));
   SockOpen 0;
   SockMessage 0 (Some (lobby_created (Some "L1") (Some "Arena") (Some false)
                                      (Some 4%Z) (Some "p_k3x9q0a")));
   SockMessage 0 (Some (lobby_player_joined (Some "p_bob") (Some "Bob")));
   SockClose 0].

(** The platform starts a game with a lobby to create, the server refuses
    the lobby, and the fallback room socket opens. *)
Definition refused_lobby : list event :=
  [Call (Init (Some "wss://host") (Some "room_g1_multi") (Some "Ann") (Some "g1")
              (Some (ctx_createLobby (Some "Arena") (Some 4%Z))));
   SockOpen 0;
   SockMessage 0 (Some (error_msg (Some "lobby limit reached")));
   SockOpen 1].

(** ** Invariants *)

Inductive tag := TCreate | TJoin | TList.

Definition tag_of (k : call_kind) : tag :=
  match k with
  | CreateCall _ _ _ _ => TCreate
  | JoinCall _ _ => TJoin
  | ListCall _ => TList
  end.

(** Which async function call [c] is a call of. *)
Definition kind_tag (c : nat) (s : state) : option tag :=
  (λ cl, tag_of (c_kind cl)) <$> calls s !! c.

Definition phase_of (c : nat) (s : state) : option phase :=
  c_phase <$> calls s !! c.

(** A one-shot closure sits under the event its call subscribed it to. *)
Definition handler_ok (s : state) (event : string) (h : handler) : Prop :=
  match h with
  | User _ => True
  | onCreated c => event = "lobbyCreated" ∧ kind_tag c s = Some TCreate
  | onErr_create c => event = "error" ∧ kind_tag c s = Some TCreate
  | onJoined c => event = "lobbyJoined" ∧ kind_tag c s = Some TJoin
  | onErr_join c => event = "error" ∧ kind_tag c s = Some TJoin
  | onList c => event = "lobbyList" ∧ kind_tag c s = Some TList
  end.

(** What holds of the engine whenever one of its functions has returned:
    - the one-shot closures are where their calls put them;
    - a listing timer belongs to a [listLobbies] call;
    - a [listLobbies] call that waits for its answer has its closure
      subscribed;
    - the lobby object is not among the objects handed to the game, and
      all references point into the heap;
    - a session with a [createLobby] or [joinLobby] call has a player id. *)
Record typed (s : state) : Prop := mkTyped {
  typed_handlers : ∀ event h, h ∈ handlers_of event s → handler_ok s event h;
  typed_timers : ∀ t tm c, timers s !! t = Some tm → t_kind tm = ListTimeout c →
                           kind_tag c s = Some TList;
  typed_listing : ∀ c cl, calls s !! c = Some cl → tag_of (c_kind cl) = TList →
                          c_phase cl = Handshake → onList c ∈ handlers_of "lobbyList" s;
  typed_exported : ∀ l, l ∈ exported s → l < length (heap s);
  typed_lobby : ∀ l, _lobbyInfo s = Some l → l < length (heap s) ∧ l ∉ exported s;
  typed_playerId : ∀ c cl, calls s !! c = Some cl → tag_of (c_kind cl) ≠ TList →
                           truthy (_playerId s) = true;
}.

(** What a function may do besides what every function may do: resolve
    the promises of one kind of call, reject promises, assign the lobby
    variables. *)
Record perm := mkPerm {
  may_resolve : tag → bool;
  may_reject : bool;
  may_lobby : bool;
}.

Definition strict : perm := mkPerm (λ _, false) false false.
Definition rejecting : perm := mkPerm (λ _, false) true false.
Definition free : perm := mkPerm (λ _, true) true true.

(** How a promise can change while the engine runs: it keeps its kind and
    its chained reaction, stays settled once settled, a [listLobbies]
    promise past its [await] can only resolve, with a list, and promises
    resolve and reject only where that is permitted. *)
Definition call_evolves (R : perm) (cl cl' : call) : Prop :=
  c_kind cl' = c_kind cl ∧ c_then cl' = c_then cl ∧
  (is_pending (c_phase cl) = false → c_phase cl' = c_phase cl) ∧
  (tag_of (c_kind cl) = TList → c_phase cl = Handshake →
   c_phase cl' = Handshake ∨ ∃ l, c_phase cl' = Resolved (VList l)) ∧
  (∀ v, c_phase cl' = Resolved v →
        c_phase cl = Resolved v ∨ may_resolve R (tag_of (c_kind cl)) = true) ∧
  (∀ e, c_phase cl' = Rejected e → c_phase cl = Rejected e ∨ may_reject R = true).

Definition socket_evolves (sk sk' : socket) : Prop :=
  url sk' = url sk ∧ (callbacks sk = Legacy → callbacks sk' = Legacy).

(** What the [catch] of [_init] logs: the warning, the socket of the legacy
    [connect], and [ready]. *)
Definition fallback_trace (m : string) (k : nat) (serverUrl : string) : list obs :=
  [TConsoleWarn m; TNewSocket k serverUrl; TEmit "ready" (PReady true)].

(** Between [s] and [s'] the fallback to [serverUrl] ran. *)
Definition fallback_logged (serverUrl : string) (s s' : state) : Prop :=
  ∃ m k pre post,
    trace s' = trace s ++ pre ++ fallback_trace m k serverUrl ++ post ∧
    ∃ sk, sockets s' !! k = Some sk ∧ url sk = serverUrl ∧ callbacks sk = Legacy.

(** The promise of call [c] is rejected and [_init] chained a fallback to
    [serverUrl] on it, a URL that the host does not refuse. *)
Definition fallback_due (c : nat) (serverUrl : string) (s : state) : Prop :=
  ∃ cl e roomId username,
    calls s !! c = Some cl ∧ c_phase cl = Rejected e ∧
    c_then cl = Some (InitFallback serverUrl roomId username) ∧
    refused s serverUrl = false.

(** What every function of the engine respects. *)
Record evolves (R : perm) (s s' : state) : Prop := mkEvolves {
  ev_trace : trace s `prefix_of` trace s';
  ev_sockets : ∀ k sk, sockets s !! k = Some sk →
                       ∃ sk', sockets s' !! k = Some sk' ∧ socket_evolves sk sk';
  ev_calls : ∀ c cl, calls s !! c = Some cl →
                     ∃ cl', calls s' !! c = Some cl' ∧ call_evolves R cl cl';
  ev_playerId : truthy (_playerId s) = true → _playerId s' = _playerId s;
  ev_lobby : may_lobby R = false →
             _lobbyInfo s' = _lobbyInfo s ∧ heap s' = heap s ∧
             _isHost s' = _isHost s ∧ exported s' = exported s;
  ev_settled : ∀ c cl serverUrl roomId username,
      calls s !! c = Some cl → is_pending (c_phase cl) = true →
      c_then cl = Some (InitFallback serverUrl roomId username) →
      fallback_due c serverUrl s' →
      JSettled c ∈ jobs s' ∨ fallback_logged serverUrl s s';
  ev_jobs : ∀ c serverUrl,
      JSettled c ∈ jobs s → fallback_due c serverUrl s →
      JSettled c ∈ jobs s' ∨ fallback_logged serverUrl s s';
  ev_refused : refused s' = refused s;
}.

(** A function of the engine is sound when it keeps the invariant and
    changes the state only as [evolves] allows. *)
Definition sound (R : perm) (s s' : state) : Prop :=
  typed s → typed s' ∧ evolves R s s'.

(** The payload that an event comes with, where a closure reads it. *)
Definition payload_ok (event : string) (data : payload) : Prop :=
  event = "lobbyList" → ∃ l, data = PLobbyList l.

(** What publishing an event needs to be permitted. *)
Definition emit_perm (R : perm) (event : string) : Prop :=
  (event = "lobbyCreated" → may_resolve R TCreate = true) ∧
  (event = "lobbyJoined" → may_resolve R TJoin = true) ∧
  (event = "lobbyList" → may_resolve R TList = true) ∧
  (event = "error" → may_reject R = true).

(** The events under which no one-shot closure is ever subscribed. *)
Definition plain (event : string) : Prop :=
  event ≠ "lobbyCreated" ∧ event ≠ "lobbyJoined" ∧ event ≠ "lobbyList" ∧
  event ≠ "error".

(** What dispatching a message does besides what every function may do. *)
Definition msg_perm (m : msg) : perm :=
  match m with
  | lobby_created _ _ _ _ _ =>
      mkPerm (λ t, match t with TCreate => true | _ => false end) false true
  | lobby_state _ _ _ _ _ _ =>
      mkPerm (λ t, match t with TJoin => true | _ => false end) false true
  | lobby_left | lobby_kicked _ | lobby_closed | lobby_owner_changed _ =>
      mkPerm (λ _, false) false true
  | lobby_list _ =>
      mkPerm (λ t, match t with TList => true | _ => false end) false false
  | error_msg _ => rejecting
  | _ => strict
  end.

Definition api_perm (a : api) : perm :=
  match a with
  | Disconnect | LeaveLobby | GetLobbyInfo => mkPerm (λ _, false) false true
  | _ => strict
  end.

(** [R] and rejecting promises. *)
Definition or_reject (R : perm) : perm := mkPerm (may_resolve R) true (may_lobby R).

(** What a task does besides what every function may do; a host task ends
    with a microtask checkpoint, where a failed [await] rejects. *)
Definition event_perm (e : event) : perm :=
  match e with
  | Call a => api_perm a
  | Mutate _ _ => mkPerm (λ _, false) false true
  | Elapse _ => strict
  | SockMessage _ (Some m) => or_reject (msg_perm m)
  | SockError _ | SockClose _ => mkPerm (λ _, false) true true
  | TimerFire _ => mkPerm (λ t, match t with TList => true | _ => false end) true false
  | _ => rejecting
  end.

(** [R'] permits what [R] permits. *)
Definition perm_le (R R' : perm) : Prop :=
  (∀ t, may_resolve R t = true → may_resolve R' t = true) ∧
  (may_reject R = true → may_reject R' = true) ∧
  (may_lobby R = true → may_lobby R' = true).

(** The microtasks a queue can still give rise to: a failed [await] queues
    at most the reaction chained on its promise. *)
Definition weight (j : job) : nat :=
  match j with
  | JOpenFailed _ _ => 2
  | _ => 1
  end.

Definition load (js : list job) : nat := sum_list_with weight js.

(** The platform asks for a lobby. *)
Definition asks_for_lobby (lobbyCtx : lobby_ctx) : bool :=
  match lobbyCtx with
  | ctx_createLobby _ _ => true
  | ctx_joinLobbyId joinLobbyId => truthy (Some joinLobbyId)
  end.

(** A listing whose connection fails: the socket of [listLobbies] reports
    an error before it opens. *)
Definition listing_without_server : list event :=
  [Call (ListLobbies "wss://down" (Some "g1")); SockError 0].

(** A listing on a connection that opens. *)
Definition listing_started : list event :=
  [Call (ListLobbies "wss://host" (Some "g1")); SockOpen 0].

(** ** Who hosts the lobby *)

(** [a == b] on values that are a string, [undefined] or [null]: the two
    absent values equal each other and nothing else. *)
Definition loose_eq (field pid : option string) : bool :=
  match field, pid with
  | Some a, Some b => bool_decide (a = b)
  | None, None => true
  | _, _ => false
  end.

(** The invariant in the words of the specification:
    [isHost == (lobbyInfo.ownerId == session.playerId)] whenever
    [lobbyInfo] is non-null. *)
Definition host_matches_owner (s : state) : Prop :=
  ∀ li, lobby_obj s = Some li → _isHost s = loose_eq (li_ownerId li) (_playerId s).

(** The invariant the code keeps: the stored owner decides, except that
    the lobby stored at [lobby_created] has no owner and its creator
    hosts it. *)
Definition host_inv (s : state) : Prop :=
  ∀ li, lobby_obj s = Some li →
        _isHost s = strict_eq (li_ownerId li) (_playerId s) ∨
        (li_ownerId li = None ∧ _isHost s = true).

Definition host_ok (s : state) : Prop :=
  typed s ∧ truthy (_playerId s) = true ∧ host_inv s.

(** A lobby is asked for on an open connection. *)
Definition lobby_requested : list event :=
  [Call (CreateLobby (mkCreate "wss://host" (Some "g1") None (Some "Arena")
                               (Some 4%Z) (Some "Ann")));
   SockOpen 0].

Definition lobby_granted : event :=
  SockMessage 0 (Some (lobby_created (Some "L1") (Some "Arena") (Some false)
                                     (Some 4%Z) (Some "p_k3x9q0a"))).

(** ** The session server *)

Definition public_marker : string := "PUBLIC_".

(** Modelled from the spec: the session server, which is not part of the
    sources.  Its answer to a [lobby_create] request is
    [lobby_created{lobbyId, lobbyName, isPublic, maxPlayers, playerId}],
    where [isPublic] is derived from the naming convention: a [lobbyName]
    prefixed with the reserved marker token denotes public listing.  The
    ids in the answer are the server's choice. *)
Definition server_lobby_created (lobbyId playerId : option string)
    (request : out_msg) : option msg :=
  match request with
  | lobby_create _ _ lobbyName maxPlayers _ _ =>
      Some (lobby_created lobbyId (Some lobbyName)
                          (Some (String.prefix public_marker lobbyName))
                          (Some maxPlayers) playerId)
  | _ => None
  end.

(** A public lobby is asked for and granted. *)
Definition public_lobby : list event :=
  [Call (CreateLobby (mkCreate "wss://host" (Some "g1") None (Some "PUBLIC_Arena")
                               (Some 4%Z) (Some "Ann")));
   SockOpen 0;
   SockMessage 0 (server_lobby_created (Some "L1") (Some "p_k3x9q0a")
                    (lobby_create (Some "g1") None "PUBLIC_Arena" 4 (Some "p_k3x9q0a")
                                  "Ann"))].

(** ** Objects in the hands of the game *)

(** The state with other lobby objects and other references given out. *)
Definition store (h : list lobby_info) (x : list nat) (s : state) : state :=
  set_exported x (set_heap h s).

(** Two states of the engine that differ at most in the content of the
    objects that [getLobbyInfo] gave to the game. *)
Definition indistinguishable (s1 s2 : state) : Prop :=
  store [] [] s1 = store [] [] s2 ∧ exported s1 = exported s2 ∧
  length (heap s1) = length (heap s2) ∧
  ∀ l, l ∉ exported s1 → heap s1 !! l = heap s2 !! l.

(** A session whose lobby was granted. *)
Definition in_lobby : state :=
  run (lobby_requested ++ [lobby_granted]) (init (λ _, "k3x9q0a")).

(** The request that a call sends when its [await] has returned. *)
Definition request_of (k : call_kind) (s : state) : out_msg :=
  match k with
  | CreateCall gameId lobbyId lobbyName maxPlayers =>
      lobby_create gameId (or_undefined lobbyId) lobbyName maxPlayers
                   (_playerId s) (_username s)
  | JoinCall gameId lobbyId => lobby_join gameId lobbyId (_playerId s) (_username s)
  | ListCall gameId => lobby_list_request gameId
  end.

(** ** Promises that wait for the server *)

(** The one-shot closures that a call subscribes when its [await] has
    returned, with the events it subscribes them to. *)
Definition closures (k : call_kind) (c : nat) : list (string * handler) :=
  match k with
  | CreateCall _ _ _ _ => [("lobbyCreated", onCreated c); ("error", onErr_create c)]
  | JoinCall _ _ => [("lobbyJoined", onJoined c); ("error", onErr_join c)]
  | ListCall _ => [("lobbyList", onList c)]
  end.

(** The call whose promise a closure settles. *)
Definition closure_call (h : handler) : option nat :=
  match h with
  | User _ => None
  | onCreated c | onErr_create c | onJoined c | onErr_join c | onList c => Some c
  end.

(** What a closure settles its promise with, when called with [data]. *)
Definition closure_phase (h : handler) (data : payload) : phase :=
  match h with
  | onErr_create _ | onErr_join _ =>
      Rejected (match data with PError e => e | _ => TransportError end)
  | onList _ => Resolved (lobbies_of data)
  | _ => Resolved (VPayload data)
  end.

(** Every promise in its handshake has its closures subscribed. *)
Definition awaits (s : state) : Prop :=
  ∀ c cl event h, calls s !! c = Some cl → c_phase cl = Handshake →
                  (event, h) ∈ closures (c_kind cl) c → h ∈ handlers_of event s.

(** The same for all calls but [c]. *)
Definition awaits_but (c : nat) (s : state) : Prop :=
  ∀ c' cl event h, c' ≠ c → calls s !! c' = Some cl → c_phase cl = Handshake →
                   (event, h) ∈ closures (c_kind cl) c' → h ∈ handlers_of event s.

(** ** The [then] of [_init] *)

(** The message of the server that answers a lobby call of kind [k]. *)
Definition answers (k : call_kind) (m : msg) : bool :=
  match k, m with
  | CreateCall _ _ _ _, lobby_created _ _ _ _ _ => true
  | JoinCall _ _, lobby_state _ _ _ _ _ _ => true
  | _, _ => false
  end.

(** Every microtask in the queue is the reaction on a resolved promise. *)
Definition resolved_jobs (s : state) : Prop :=
  ∀ j, j ∈ jobs s → ∃ c v, j = JSettled c ∧ phase_of c s = Some (Resolved v).

(** The handlers that reject no promise. *)
Definition resolving (h : handler) : Prop :=
  match h with
  | onErr_create _ | onErr_join _ => False
  | _ => True
  end.

(** The platform starts a game that creates a lobby, and the socket opens. *)
Definition init_lobby_requested : list event :=
  [Call (Init (Some "wss://host") (Some "r1") (Some "Ann") (Some "g1")
              (Some (ctx_createLobby (Some "Arena") (Some 4%Z))));
   SockOpen 0].

(** ** Identifiers that name inherited properties *)

(** The prototypes are as the host made them: [Object.prototype] has no
    [data] property, and the prototype of [_players] is
    [Object.prototype]. *)
Definition pristine (s : state) : Prop :=
  Object_prototype_data s = None ∧ proto (_players s) = None.

(** A key under which [get] follows the lookup [_players[k]] to its end:
    every key while the prototypes are untouched, and at any time a key
    that is not the name of a property of a player. *)
Definition followed (k : string) (s : state) : Prop :=
  pristine s ∨ k ∉ ["id"; "username"; "data"].

(** A legacy room is joined and its socket opens. *)
Definition room_joined : list event :=
  [Call (Connect "wss://host" (Some "room1") (Some "Ann")); SockOpen 0].

(** Two updates: one for the id [__proto__], one for the peer. *)
Definition polluting_updates : list update :=
  [(Some "__proto__", None, Some {[ "evil" := JNum 1 ]});
   (Some "p_bob", None, Some {[ "hp" := JNum 3 ]})].

(** In the room is one peer, without data; the two updates arrive. *)
Definition polluted_room : list event :=
  room_joined ++
  SockMessage 0 (Some (room_state (Some [mkPlayer (Some "p_bob") (Some "Bob") None])))
  :: map (λ u, SockMessage 0 (Some (update_msg u))) polluting_updates.

(** An update for a player that the table does not have, whose id is the
    name of an inherited function. *)
Definition update_for_constructor : msg :=
  state_update (Some "constructor") (Some "Mallory") (Some {[ "hp" := JNum 3 ]}).

(** ** A server URL that the host refuses *)

(** A host whose [WebSocket] constructor refuses the URLs that are not of
    the scheme [ws] or [wss]. *)
Definition ws_only (url : string) : bool :=
  negb (String.prefix "ws://" url || String.prefix "wss://" url).

(** The platform starts a game with a lobby to create and the URL of a
    file server; the task ends. *)
Definition refused_url : list event :=
  [Call (Init (Some "ftp://host") (Some "room_g1_multi") (Some "Ann") (Some "g1")
              (Some (ctx_createLobby (Some "Arena") (Some 4%Z))));
   Yield].

(** * Properties *)

(** ** The player table *)

Lemma assoc_replace_eq k p l : is_Some (assoc k l) → assoc k (replace k p l) = Some p.
Proof.
  induction l as [|[k0 p0] l IH]; simpl; [by intros [? ?]|].
  case_decide; simpl; [by rewrite decide_True | by rewrite decide_False].
Qed.

Lemma assoc_replace_ne k k' p l : k' ≠ k → assoc k' (replace k p l) = assoc k' l.
Proof.
  intros Hne. induction l as [|[k0 p0] l IH]; simpl; [done|].
  case_decide; simpl.
  - subst k0. by rewrite !decide_False.
  - by rewrite IH.
Qed.

Lemma assoc_place_eq k p l : assoc k l = None → assoc k (place k p l) = Some p.
Proof.
  induction l as [|[k0 p0] l IH]; simpl; [by rewrite decide_True|].
  case_decide; [done|]. intros Hl.
  destruct (array_index k) as [n|], (array_index k0) as [n0|];
    [destruct (n0 <? n)%N|..]; simpl;
    rewrite ?decide_True by done; rewrite ?decide_False by done; auto.
Qed.

Lemma assoc_place_ne k k' p l : k' ≠ k → assoc k' (place k p l) = assoc k' l.
Proof.
  intros Hne. induction l as [|[k0 p0] l IH]; simpl; [by rewrite decide_False|].
  destruct (array_index k) as [n|], (array_index k0) as [n0|];
    [destruct (n0 <? n)%N|..]; simpl;
    rewrite ?(decide_False (P := k = k')) by done; rewrite ?IH; done.
Qed.

Lemma assoc_filter_eq k l :
  assoc k (List.filter (λ e, negb (bool_decide (e.1 = k))) l) = None.
Proof.
  induction l as [|[k0 p0] l IH]; simpl; [done|].
  case_bool_decide; simpl; [done|]. by rewrite decide_False.
Qed.

Lemma assoc_filter_ne k k' l :
  k' ≠ k → assoc k' (List.filter (λ e, negb (bool_decide (e.1 = k))) l) = assoc k' l.
Proof.
  intros Hne. induction l as [|[k0 p0] l IH]; simpl; [done|].
  case_bool_decide; simpl.
  - subst k0. by rewrite decide_False.
  - by rewrite IH.
Qed.

Lemma filter_absent k l :
  assoc k l = None → List.filter (λ e, negb (bool_decide (e.1 = k))) l = l.
Proof.
  induction l as [|[k0 p0] l IH]; simpl; [done|].
  case_decide; [done|]. intros Hl. rewrite bool_decide_false by done. simpl.
  by rewrite IH.
Qed.

Lemma filter_place k p l :
  assoc k l = None → List.filter (λ e, negb (bool_decide (e.1 = k))) (place k p l) = l.
Proof.
  induction l as [|[k0 p0] l IH]; simpl; [by rewrite bool_decide_true|].
  case_decide; [done|]. intros Hl.
  destruct (array_index k) as [n|], (array_index k0) as [n0|];
    [destruct (n0 <? n)%N|..]; simpl;
    rewrite ?bool_decide_true by done; rewrite ?bool_decide_false by done; simpl;
    rewrite ?IH by done; rewrite ?filter_absent by done; done.
Qed.

Lemma place_last k p l : array_index k = None → place k p l = l ++ [(k, p)].
Proof.
  intros Hi. induction l as [|[k0 p0] l IH]; simpl; [done|]. rewrite Hi. by rewrite IH.
Qed.

Lemma assoc_absent k (l : list (string * player)) : k ∉ l.*1 → assoc k l = None.
Proof.
  induction l as [|[k0 p0] l IH]; simpl; [done|]. intros Hk.
  apply not_elem_of_cons in Hk as [Hne Hk]. case_decide; [done|]. by apply IH.
Qed.

Lemma table_lookup_insert_eq k p (t : table) : <[k := p]> t !! k = Some p.
Proof.
  unfold lookup, insert, table_lookup, table_insert. simpl.
  destruct (assoc k (props t)) eqn:E; [apply assoc_replace_eq; by rewrite E|].
  by apply assoc_place_eq.
Qed.

Lemma table_lookup_insert_ne k k' p (t : table) : k' ≠ k → <[k := p]> t !! k' = t !! k'.
Proof.
  intros Hne. unfold lookup, insert, table_lookup, table_insert. simpl.
  destruct (assoc k (props t)); [by apply assoc_replace_ne | by apply assoc_place_ne].
Qed.

Lemma table_lookup_delete_eq k (t : table) : delete k t !! k = None.
Proof. apply assoc_filter_eq. Qed.

Lemma table_lookup_delete_ne k k' (t : table) : k' ≠ k → delete k t !! k' = t !! k'.
Proof. apply assoc_filter_ne. Qed.

Lemma table_delete_insert k p (t : table) : t !! k = None → delete k (<[k := p]> t) = t.
Proof.
  unfold lookup, insert, delete, table_lookup, table_insert, table_delete.
  intros E. simpl. rewrite E, filter_place by done. by destruct t.
Qed.

Lemma table_lookup_empty k : (∅ : table) !! k = None.
Proof. done. Qed.

Lemma lookup_assign_eq k p t : own_key k = true → assign k p t !! k = Some p.
Proof.
  intros Hk. unfold assign. case_decide as Hp; [by subst k|].
  apply table_lookup_insert_eq.
Qed.

Lemma lookup_assign_ne k k' p t : k' ≠ k → assign k p t !! k' = t !! k'.
Proof.
  intros Hne. unfold assign. case_decide; [done|]. by apply table_lookup_insert_ne.
Qed.

Lemma get_own k t : own_key k = true → get k t = from_option Entry Undefined (t !! k).
Proof.
  intros Hk. unfold get. destruct (t !! k); [done|]. simpl.
  apply bool_decide_eq_true in Hk.
  case_decide as Hp; [subst k; exfalso; apply Hk; set_solver|].
  by rewrite bool_decide_false.
Qed.

Lemma username_of_own k t :
  own_key k = true → username_of (get k t) t = t !! k ≫= p_username.
Proof. intros Hk. rewrite get_own by done. by destruct (t !! k). Qed.

(** ** The event emitter *)

Lemma frame_emit_refl s : frame_emit s s.
Proof. by repeat split. Qed.

Lemma frame_emit_trans s1 s2 s3 :
  frame_emit s1 s2 → frame_emit s2 s3 → frame_emit s1 s3.
Proof. unfold frame_emit. intros H1 H2. destruct_and!. repeat split; congruence. Qed.

Lemma log_frame o s : frame_emit s (log o s).
Proof. by repeat split. Qed.

Lemma on_frame ev h s : frame_emit s (on ev h s).
Proof. by repeat split. Qed.

Lemma off_frame ev h s : frame_emit s (off ev h s).
Proof. unfold off. case_match; by repeat split. Qed.

Lemma settle_frame c p s : frame_emit s (settle c p s).
Proof. unfold settle. repeat case_match; by repeat split. Qed.

Lemma enqueue_frame j s : frame_emit s (enqueue j s).
Proof. by repeat split. Qed.

Lemma off_trace ev h s : trace (off ev h s) = trace s.
Proof. unfold off. by case_match. Qed.

Lemma settle_trace c p s : trace (settle c p s) = trace s.
Proof. unfold settle. by repeat case_match. Qed.

(** One guarded call: it returns, and logs the call and what it threw. *)
Lemma guarded_call fn data s :
  ∃ s', try_catch (call_fn fn data) console_error s = (Returned, s') ∧
        trace s' = trace s ++ invocation data fn ∧ frame_emit s s'.
Proof.
  unfold try_catch, invocation.
  destruct fn as [f|c|c|c|c|c]; simpl.
  - destruct (fn_body f data) as [e|]; simpl; eexists; (split; [done|]); split.
    + simpl. by rewrite <- app_assoc.
    + by repeat split.
    + done.
    + by repeat split.
  - eexists; split_and!; [done | |].
    + unfold resolve. by rewrite settle_trace, !off_trace.
    + unfold resolve.
      eapply frame_emit_trans; [|apply settle_frame].
      eapply frame_emit_trans; [|apply off_frame].
      eapply frame_emit_trans; [|apply off_frame]. apply log_frame.
  - eexists; split_and!; [done | |].
    + unfold reject. by rewrite settle_trace, !off_trace.
    + unfold reject.
      eapply frame_emit_trans; [|apply settle_frame].
      eapply frame_emit_trans; [|apply off_frame].
      eapply frame_emit_trans; [|apply off_frame]. apply log_frame.
  - eexists; split_and!; [done | |].
    + unfold resolve. by rewrite settle_trace, !off_trace.
    + unfold resolve.
      eapply frame_emit_trans; [|apply settle_frame].
      eapply frame_emit_trans; [|apply off_frame].
      eapply frame_emit_trans; [|apply off_frame]. apply log_frame.
  - eexists; split_and!; [done | |].
    + unfold reject. by rewrite settle_trace, !off_trace.
    + unfold reject.
      eapply frame_emit_trans; [|apply settle_frame].
      eapply frame_emit_trans; [|apply off_frame].
      eapply frame_emit_trans; [|apply off_frame]. apply log_frame.
  - eexists; split_and!; [done | |].
    + unfold resolve. by rewrite settle_trace, !off_trace.
    + unfold resolve.
      eapply frame_emit_trans; [|apply settle_frame].
      eapply frame_emit_trans; [|apply off_frame]. apply log_frame.
Qed.

Lemma forEach_guarded data hs s :
  ∃ s', forEach (λ fn, try_catch (call_fn fn data) console_error) hs s = (Returned, s') ∧
        trace s' = trace s ++ flat_map (invocation data) hs ∧ frame_emit s s'.
Proof.
  revert s. induction hs as [|fn hs IH]; intros s; simpl.
  - exists s. split_and!; [done | by rewrite app_nil_r | apply frame_emit_refl].
  - destruct (guarded_call fn data s) as (s1 & -> & Htr & Hfr).
    destruct (IH s1) as (s2 & -> & Htr2 & Hfr2).
    exists s2. split_and!; [done | | by eapply frame_emit_trans].
    by rewrite Htr2, Htr, <- app_assoc.
Qed.

Lemma emit_returns event data s : emit event data s = (Returned, emit_ event data s).
Proof.
  unfold emit_, emit.
  destruct (forEach_guarded data (handlers_of event s) (log (TEmit event data) s))
    as (s' & -> & _). done.
Qed.

Lemma emit_trace event data s :
  trace (emit_ event data s) =
  trace s ++ TEmit event data :: flat_map (invocation data) (handlers_of event s).
Proof.
  unfold emit_, emit.
  destruct (forEach_guarded data (handlers_of event s) (log (TEmit event data) s))
    as (s' & -> & Htr & _).
  simpl. rewrite Htr. simpl. by rewrite <- app_assoc.
Qed.

Lemma emit_frame event data s : frame_emit s (emit_ event data s).
Proof.
  unfold emit_, emit.
  destruct (forEach_guarded data (handlers_of event s) (log (TEmit event data) s))
    as (s' & -> & _ & Hfr).
  eapply frame_emit_trans; [apply log_frame | done].
Qed.

Lemma invoked_invocations data hs : invoked (flat_map (invocation data) hs) = hs.
Proof.
  induction hs as [|fn hs IH]; [done|].
  unfold invoked in *. simpl. f_equal.
  destruct (thrown fn data); simpl; done.
Qed.

Lemma handlers_of_on event h s :
  handlers_of event (on event h s) = handlers_of event s ++ [h].
Proof. unfold handlers_of at 1, on. simpl. by rewrite lookup_insert_eq. Qed.

Lemma handlers_of_subscribed event (fs : list user_fn) s :
  handlers_of event (foldl (λ s f, on event (User f) s) s fs) =
  handlers_of event s ++ map User fs.
Proof.
  revert s. induction fs as [|f fs IH]; intros s; simpl.
  - by rewrite app_nil_r.
  - by rewrite IH, handlers_of_on, <- app_assoc.
Qed.

(** C8. For every event and every list of handlers subscribed to it,
    publishing returns normally to the publisher and calls each subscribed
    handler exactly once, in subscription order; a handler that throws has
    its exception logged, and the handlers after it are still called. *)
Theorem emit_calls_each_handler_once_in_order
    (s : state) (event : string) (data : payload) (fs : list user_fn) :
  let s1 := foldl (λ s f, on event (User f) s) s fs in
  let hs := handlers_of event s ++ map User fs in
  emit event data s1 = (Returned, emit_ event data s1) ∧
  trace (emit_ event data s1) =
    trace s1 ++ TEmit event data :: flat_map (invocation data) hs ∧
  invoked (flat_map (invocation data) hs) = hs.
Proof.
  intros s1 hs. split_and!.
  - apply emit_returns.
  - rewrite emit_trace. unfold s1. by rewrite handlers_of_subscribed.
  - apply invoked_invocations.
Qed.

(** ** The dispatcher: [state_update] *)

Lemma emit_players event data s : _players (emit_ event data s) = _players s.
Proof. apply emit_frame. Qed.

Lemma emit_prototype_data event data s :
  Object_prototype_data (emit_ event data s) = Object_prototype_data s.
Proof. apply emit_frame. Qed.

Lemma emit_builtin_data event data s :
  builtin_data (emit_ event data s) = builtin_data s.
Proof. apply emit_frame. Qed.

Lemma get_insert_eq k p (t : table) : get k (<[k := p]> t) = Entry p.
Proof. unfold get. by rewrite table_lookup_insert_eq. Qed.

Lemma get_insert_ne k k' p (t : table) : k' ≠ k → get k' (<[k := p]> t) = get k' t.
Proof. intros Hne. unfold get. by rewrite table_lookup_insert_ne. Qed.

Lemma get_proto k t : k ≠ "__proto__" → get k t ≠ Proto.
Proof. intros Hk. unfold get. destruct (t !! k); [done|]. by repeat case_match. Qed.

Lemma getState_emit pid event data s : getState pid (emit_ event data s) = getState pid s.
Proof.
  unfold getState, inherit.
  by rewrite emit_players, emit_prototype_data, emit_builtin_data.
Qed.

Lemma update_data_prototype k playerId username data s :
  k ≠ "__proto__" →
  Object_prototype_data (update_data k playerId username data s) = Object_prototype_data s ∧
  proto (_players (update_data k playerId username data s)) = proto (_players s).
Proof.
  intros Hk. unfold update_data. pose proof (get_proto k (_players s) Hk).
  destruct (get k (_players s)); try done; simpl;
    unfold insert, table_insert; by destruct (assoc k _).
Qed.

Lemma getState_update_data_same pid k playerId username data s :
  Object_prototype_data s = None → k ≠ "__proto__" → k = key pid →
  getState pid (update_data k playerId username data s) = default ∅ data ∪ getState pid s.
Proof.
  intros Hp Hk ->. unfold getState, update_data.
  pose proof (get_proto _ (_players s) Hk).
  destruct (get (key pid) (_players s)) as [p| | |] eqn:Hg; try done; simpl.
  - rewrite get_insert_eq. simpl. unfold inherit. rewrite Hp.
    destruct (p_data p); done.
  - rewrite Hg. simpl. rewrite lookup_insert_eq. simpl. unfold inherit. rewrite Hp.
    by destruct (builtin_data s !! key pid).
  - rewrite get_insert_eq. simpl. by rewrite (right_id_L ∅ (∪)).
Qed.

Lemma getState_update_data_other pid k playerId username data s :
  k ≠ "__proto__" → k ≠ key pid →
  getState pid (update_data k playerId username data s) = getState pid s.
Proof.
  intros Hk Hne. unfold getState, update_data.
  pose proof (get_proto _ (_players s) Hk).
  destruct (get k (_players s)) as [p| | |] eqn:Hg; try done; simpl;
    rewrite ?get_insert_ne by done; try done.
  by rewrite lookup_insert_ne.
Qed.

Lemma getState_dispatch_updates pid (us : list update) s :
  Object_prototype_data s = None →
  Forall (λ u : update, key u.1.1 ≠ "__proto__") us →
  getState pid (dispatch (map update_msg us) s) =
  shallow_merge (payloads_for pid us) ∪ getState pid s.
Proof.
  intros Hp Hus. revert s Hp.
  induction Hus as [|[[pid' username] data] us Hk _ IH]; intros s Hp.
  - simpl. by rewrite (left_id_L ∅ (∪)).
  - change (dispatch (map update_msg ((pid', username, data) :: us)) s)
      with (dispatch (map update_msg us)
              (_handleMessage (state_update pid' username data) s)).
    simpl in Hk.
    assert (inherit data s = data) as Hd by (unfold inherit; rewrite Hp; by destruct data).
    rewrite IH.
    2:{ cbn [_handleMessage]. cbv zeta. rewrite emit_prototype_data, Hd.
        by rewrite (proj1 (update_data_prototype _ _ _ _ _ Hk)). }
    unfold payloads_for. cbn [omap list_omap fst snd].
    fold (payloads_for pid us).
    cbn [_handleMessage]. cbv zeta. rewrite getState_emit, Hd.
    case_bool_decide as Hkk.
    + cbn [shallow_merge]. rewrite <- (assoc_L (∪)). f_equal.
      by apply getState_update_data_same.
    + by rewrite getState_update_data_other.
Qed.

Lemma shallow_merge_snoc ps p : shallow_merge (ps ++ [p]) = p ∪ shallow_merge ps.
Proof.
  induction ps as [|q ps IH]; simpl.
  - by rewrite (left_id_L ∅ (∪)), (right_id_L ∅ (∪)).
  - by rewrite IH, (assoc_L (∪)).
Qed.

(** C3, at the failing input.  The peer is in the table without data.
    The update for the id [__proto__] finds [Object.prototype] under that
    key and gives it the payload as its [data] property, which the peer
    inherits: after the update for the peer, the data of the peer has the
    key of the other payload too, where the shallow merge of the payloads
    sent for the peer has one key. *)
Theorem prototype_data_leaks_into_player_data :
  Object_prototype_data (run polluted_room (init (λ _, "k3x9q0a")))
    = Some {[ "evil" := JNum 1 ]} ∧
  getState (Some "p_bob") (run polluted_room (init (λ _, "k3x9q0a")))
    = {[ "evil" := JNum 1; "hp" := JNum 3 ]} ∧
  shallow_merge (payloads_for (Some "p_bob") polluting_updates) = {[ "hp" := JNum 3 ]} ∧
  getPlayers (run polluted_room (init (λ _, "k3x9q0a")))
    = [mkPlayer (Some "p_bob") (Some "Bob")
                (Some {[ "evil" := JNum 1; "hp" := JNum 3 ]})].
Proof. split_and!; vm_compute; reflexivity. Qed.

(** X24.  Where no update is for the id [__proto__] and the prototypes are
    as the host made them: for every sequence of [state_update] messages,
    the data of a player that had none before the sequence is, after the
    whole sequence was dispatched, the shallow merge of the payloads sent
    for that player in arrival order, whatever is sent for other players in
    between; a key of a later payload overrides the same key of the earlier
    ones.  The player need not be in the table: the id can be the name of
    an inherited function. *)
Theorem state_update_data_is_shallow_merge
    (s : state) (pid : option string) (us : list update) :
  pristine s → Forall (λ u : update, key u.1.1 ≠ "__proto__") us →
  getState pid s = ∅ →
  getState pid (dispatch (map update_msg us) s) = shallow_merge (payloads_for pid us) ∧
  ∀ ps p k v, p !! k = Some v → shallow_merge (ps ++ [p]) !! k = Some v.
Proof.
  intros [Hp _] Hus H0. split.
  - by rewrite getState_dispatch_updates, H0, (right_id_L ∅ (∪)).
  - intros ps p k v Hk. rewrite shallow_merge_snoc.
    by apply lookup_union_Some_l.
Qed.

Lemma state_update_data_is_shallow_merge_witness :
  getState (Some "p_ann")
    (dispatch
       (map update_msg
          [(Some "p_ann", Some "Ann", Some {[ "x" := JNum 1; "y" := JNum 2 ]});
           (Some "constructor", None, Some {[ "x" := JNum 7 ]});
           (Some "p_ann", None, Some {[ "y" := JNum 5; "z" := JBool true ]})])
       (init (λ _, "r"))) =
    {[ "x" := JNum 1; "y" := JNum 5; "z" := JBool true ]}.
Proof.
  refine (eq_trans (proj1 (state_update_data_is_shallow_merge (init (λ _, "r"))
                             (Some "p_ann") _ (conj eq_refl eq_refl) _ eq_refl)) _).
  - repeat constructor; done.
  - vm_compute. reflexivity.
Defined.

(** C9, at the failing input.  In a room that was just joined no player
    is in the table.  The update for the id [constructor] finds the
    function that every object inherits under that name, takes the first
    branch and gives the function the payload as its [data] property: it
    publishes [playerUpdated], and the table is as empty as before, where
    [lobby_player_joined] with the same id makes the entry. *)
Theorem state_update_for_inherited_id_inserts_nothing :
  _players (run room_joined (init (λ _, "k3x9q0a"))) !! "constructor" = None ∧
  getPlayers (run (room_joined ++ [SockMessage 0 (Some update_for_constructor)])
                  (init (λ _, "k3x9q0a"))) = [] ∧
  getState (Some "constructor")
    (run (room_joined ++ [SockMessage 0 (Some update_for_constructor)])
         (init (λ _, "k3x9q0a"))) = {[ "hp" := JNum 3 ]} ∧
  last (trace (run (room_joined ++ [SockMessage 0 (Some update_for_constructor)])
                   (init (λ _, "k3x9q0a"))))
    = Some (TEmit "playerUpdated"
              (PPlayerUpdated (Some "constructor") (Some {[ "hp" := JNum 3 ]}))) ∧
  getPlayers (run (room_joined ++
                   [SockMessage 0 (Some (lobby_player_joined (Some "constructor")
                                                             (Some "Mallory")))])
                  (init (λ _, "k3x9q0a")))
    = [mkPlayer (Some "constructor") (Some "Mallory") (Some ∅)].
Proof. split_and!; vm_compute; reflexivity. Qed.

(** X23.  Where the id is not a name that objects inherit and the
    prototypes are as the host made them: a [state_update] whose player id
    is not in the player table inserts a new entry with that id, the
    username of the message (the default "Player" when the message has
    none, or an empty one) and the payload of the message as data (an empty
    object when it has none), after the entries that are not under array
    indices, keeps every other entry, and publishes [playerUpdated] with
    the id and the payload. *)
Theorem state_update_inserts_unknown_player
    (s : state) (playerId username : option string)
    (data : option (gmap string json)) :
  pristine s → own_key (key playerId) = true →
  _players s !! key playerId = None →
  let s' := _handleMessage (state_update playerId username data) s in
  let new := mkPlayer playerId
               (Some match username with
                     | Some u => if bool_decide (u = "") then "Player" else u
                     | None => "Player"
                     end)
               (Some (default ∅ data)) in
  _players s' !! key playerId = Some new ∧
  (∀ k, k ≠ key playerId → _players s' !! k = _players s !! k) ∧
  (array_index (key playerId) = None → getPlayers s' = getPlayers s ++ [new]) ∧
  trace s' = trace s ++ TEmit "playerUpdated" (PPlayerUpdated playerId data)
                       :: flat_map (invocation (PPlayerUpdated playerId data))
                                   (handlers_of "playerUpdated" s).
Proof.
  intros [Hp _] Hk Hnew s' new. unfold s'. cbn [_handleMessage]. cbv zeta.
  assert (inherit data s = data) as Hd by (unfold inherit; rewrite Hp; by destruct data).
  rewrite Hd. unfold update_data. rewrite get_own, Hnew by done. simpl.
  assert (inherit data
            (set_players
               (<[key playerId := mkPlayer playerId (Some (or_str username "Player"))
                                           (Some (default ∅ data))]> (_players s)) s)
          = data) as -> by done.
  rewrite emit_trace. unfold getPlayers. rewrite emit_players. simpl.
  split_and!; try done.
  - by rewrite table_lookup_insert_eq.
  - intros k Hne. by rewrite table_lookup_insert_ne.
  - intros Hi. unfold Object_values, insert, table_insert. simpl.
    unfold lookup, table_lookup in Hnew. rewrite Hnew.
    assert (∀ l, place (key playerId) new l = l ++ [(key playerId, new)]) as ->.
    { induction l as [|[k0 p0] l IH]; simpl; [done|]. rewrite Hi. by rewrite IH. }
    by rewrite fmap_app.
Qed.

Lemma state_update_inserts_unknown_player_witness :
  _players (_handleMessage (state_update (Some "p_zed") None (Some {[ "hp" := JNum 3 ]}))
                           (init (λ _, "r"))) !! "p_zed" =
    Some (mkPlayer (Some "p_zed") (Some "Player") (Some {[ "hp" := JNum 3 ]})).
Proof.
  exact (proj1 (state_update_inserts_unknown_player (init (λ _, "r")) (Some "p_zed") None
                  (Some {[ "hp" := JNum 3 ]}) (conj eq_refl eq_refl) eq_refl eq_refl)).
Defined.

(** ** Unexpected close *)

(** What the [onclose] installed by [_openWS] does: it resets [_connected],
    [_lobbyInfo] and [_isHost], publishes [disconnected], and leaves
    [_players] as it was. *)
Lemma onclose_managed k s :
  callbacks_of k s = Some Managed →
  _connected (onclose k s) = false ∧ _lobbyInfo (onclose k s) = None ∧
  _isHost (onclose k s) = false ∧ _players (onclose k s) = _players s ∧
  trace (onclose k s) =
    trace s ++ TEmit "disconnected" PEmpty
            :: flat_map (invocation PEmpty) (handlers_of "disconnected" s).
Proof.
  intros Hk. unfold onclose. rewrite Hk.
  pose proof (emit_frame "disconnected" PEmpty
                (set_isHost false (set_lobbyInfo None (set_connected false s)))) as Hf.
  unfold frame_emit in Hf. destruct_and!.
  split_and!; try (simpl in *; congruence).
  by rewrite emit_trace.
Qed.

(** What the [onclose] installed by [connect] does: it resets [_connected]
    only. *)
Lemma onclose_legacy k s :
  callbacks_of k s = Some Legacy →
  _connected (onclose k s) = false ∧ _lobbyInfo (onclose k s) = _lobbyInfo s ∧
  _isHost (onclose k s) = _isHost s ∧ _players (onclose k s) = _players s.
Proof.
  intros Hk. unfold onclose. rewrite Hk.
  pose proof (emit_frame "disconnected" PEmpty (set_connected false s)) as Hf.
  unfold frame_emit in Hf. destruct_and!.
  split_and!; simpl in *; congruence.
Qed.

(** C1, at the failing input.  After the socket of a lobby session closes
    unexpectedly the engine is disconnected, has no lobby, is not host and
    has published [disconnected], and the peer that had joined is still in
    the player table. *)
Theorem unexpected_close_keeps_remote_players :
  let s := run lost_connection (init (λ _, "k3x9q0a")) in
  _connected s = false ∧ _lobbyInfo s = None ∧ _isHost s = false ∧
  last (trace s) = Some (TEmit "disconnected" PEmpty) ∧
  getPlayers s = [mkPlayer (Some "p_bob") (Some "Bob") (Some ∅)].
Proof. vm_compute. done. Qed.

(** ** One socket per session *)

(** C7, at the failing input.  When the server refuses the lobby that
    [_init] asked for, the fallback [connect] replaces [_ws] without closing
    the socket that carried the refusal: once the new socket opens, two
    sockets are open. *)
Theorem fallback_connect_leaves_two_sockets_open :
  let s := run refused_lobby (init (λ _, "k3x9q0a")) in
  open_sockets s = [0; 1] ∧ _ws s = Some 1 ∧
  callbacks_of 0 s = Some Managed ∧ callbacks_of 1 s = Some Legacy.
Proof. vm_compute. done. Qed.


(** ** Invariants of the engine *)

Lemma call_evolves_refl R cl : call_evolves R cl cl.
Proof. unfold call_evolves. split_and!; eauto. Qed.

Lemma call_evolves_trans R a b c :
  call_evolves R a b → call_evolves R b c → call_evolves R a c.
Proof.
  unfold call_evolves.
  intros (Hk & Ht & Hs & Hl & Hv & He) (Hk' & Ht' & Hs' & Hl' & Hv' & He').
  split_and!; try congruence.
  - intros Hp. rewrite Hs' by (by rewrite Hs). by apply Hs.
  - intros Htag Hph. destruct (Hl Htag Hph) as [Hh|[l Hr]].
    + apply Hl'; congruence.
    + right. exists l. rewrite Hs'; [done|]. by rewrite Hr.
  - intros v Hc. destruct (Hv' v Hc) as [Hb|Hb]; [|right; congruence].
    by apply Hv.
  - intros e Hc. destruct (He' e Hc) as [Hb|Hb]; [|by right].
    by apply He.
Qed.

Lemma call_evolves_mono R cl cl' : call_evolves strict cl cl' → call_evolves R cl cl'.
Proof.
  unfold call_evolves. intros (Hk & Ht & Hs & Hl & Hv & He).
  split_and!; try done.
  - intros v Hc. destruct (Hv v Hc) as [?|?]; [by left | done].
  - intros e Hc. destruct (He e Hc) as [?|?]; [by left | done].
Qed.

Lemma fallback_logged_later serverUrl s1 s2 s3 :
  trace s1 `prefix_of` trace s2 → fallback_logged serverUrl s2 s3 →
  fallback_logged serverUrl s1 s3.
Proof.
  intros [t12 H12] (m & k & pre & post & Htr & Hsk).
  exists m, k, (t12 ++ pre), post. split; [|done].
  by rewrite Htr, H12, <- !app_assoc.
Qed.

Lemma fallback_logged_earlier serverUrl s1 s2 s3 :
  fallback_logged serverUrl s1 s2 → trace s2 `prefix_of` trace s3 →
  (∀ k sk, sockets s2 !! k = Some sk →
           ∃ sk', sockets s3 !! k = Some sk' ∧ socket_evolves sk sk') →
  fallback_logged serverUrl s1 s3.
Proof.
  intros (m & k & pre & post & Htr & sk & Hsk & Hu & Hc) [t23 H23] Hso.
  destruct (Hso _ _ Hsk) as (sk' & Hsk' & Hu' & Hc').
  exists m, k, pre, (post ++ t23). split.
  - by rewrite H23, Htr, <- !app_assoc.
  - exists sk'. split_and!; [done | congruence | auto].
Qed.

Lemma fallback_due_evolves R c serverUrl s s' :
  evolves R s s' → fallback_due c serverUrl s → fallback_due c serverUrl s'.
Proof.
  intros He (cl & e & r & u & Hcl & Hph & Hth & Hre).
  destruct (ev_calls _ _ _ He _ _ Hcl) as (cl' & Hcl' & Hk & Ht & Hs & _).
  exists cl', e, r, u.
  split_and!; [done | | congruence | by rewrite (ev_refused _ _ _ He)].
  rewrite Hs; [done|]. by rewrite Hph.
Qed.

Lemma evolves_refl R s : evolves R s s.
Proof.
  split; try done.
  - intros k sk ?. exists sk. by split.
  - intros c cl ?. exists cl. split; [done | apply call_evolves_refl].
  - intros c cl ? ? ? Hcl Hp _ (cl' & e & ? & ? & Hcl' & Hph & _).
    assert (cl' = cl) as -> by congruence. by rewrite Hph in Hp.
  - auto.
Qed.

Lemma evolves_trans R s1 s2 s3 : evolves R s1 s2 → evolves R s2 s3 → evolves R s1 s3.
Proof.
  intros H12 H23.
  destruct H12 as [T1 S1 C1 P1 L1 X1 J1 R1]. destruct H23 as [T2 S2 C2 P2 L2 X2 J2 R2].
  assert (H12 : evolves R s1 s2) by done.
  split.
  - by etrans.
  - intros k sk Hk. destruct (S1 _ _ Hk) as (sk' & Hk' & Hu & Hc).
    destruct (S2 _ _ Hk') as (sk'' & Hk'' & Hu' & Hc').
    exists sk''. split; [done|]. split; [congruence | auto].
  - intros c cl Hc. destruct (C1 _ _ Hc) as (cl' & Hc' & He).
    destruct (C2 _ _ Hc') as (cl'' & Hc'' & He').
    exists cl''. split; [done | by eapply call_evolves_trans].
  - intros Hp. rewrite P2; [by apply P1 | by rewrite P1].
  - intros Hl. destruct (L1 Hl) as (? & ? & ? & ?). destruct (L2 Hl) as (? & ? & ? & ?).
    split_and!; congruence.
  - intros c cl serverUrl roomId username Hcl Hp Hth Hdue.
    destruct (C1 _ _ Hcl) as (cl2 & Hcl2 & Hk2 & Ht2 & Hs2 & _).
    destruct (is_pending (c_phase cl2)) eqn:Hp2.
    + destruct (X2 c cl2 serverUrl roomId username) as [?|Hlog]; try done;
        [congruence | by left | right].
      by eapply fallback_logged_later.
    + assert (fallback_due c serverUrl s2) as Hdue2.
      { destruct Hdue as (cl3 & e & r & u & Hcl3 & Hph3 & Hth3 & Hre3).
        destruct (C2 _ _ Hcl2) as (cl3' & Hcl3' & Hk3 & Ht3 & Hs3 & _).
        assert (cl3' = cl3) as -> by congruence.
        exists cl2, e, r, u. split_and!; [done | | congruence | congruence].
        rewrite <- Hs3; done. }
      destruct (X1 c cl serverUrl roomId username) as [Hj|Hlog]; try done.
      * destruct (J2 c serverUrl Hj Hdue2) as [?|Hlog]; [by left | right].
        by eapply fallback_logged_later.
      * right. by eapply fallback_logged_earlier.
  - intros c serverUrl Hj Hdue.
    destruct (J1 c serverUrl Hj Hdue) as [Hj2|Hlog].
    + destruct (J2 c serverUrl Hj2) as [?|Hlog]; [| by left | right].
      * by eapply fallback_due_evolves.
      * by eapply fallback_logged_later.
    + right. by eapply fallback_logged_earlier.
  - congruence.
Qed.

Lemma evolves_mono R s s' : evolves strict s s' → evolves R s s'.
Proof.
  intros [T S C P L X J Rf]. split; try done.
  - intros c cl Hc. destruct (C _ _ Hc) as (cl' & ? & ?).
    exists cl'. split; [done | by apply call_evolves_mono].
  - intros _. by apply L.
Qed.

Lemma sound_refl R s : sound R s s.
Proof. intros ?. split; [done | apply evolves_refl]. Qed.

(** Closes [sound R s s], and nothing else. *)
Ltac same :=
  lazymatch goal with
  | |- sound _ ?s ?s => apply sound_refl
  | |- sound _ ?s (_, ?s).2 => apply sound_refl
  end.


Lemma sound_trans R s1 s2 s3 : sound R s1 s2 → sound R s2 s3 → sound R s1 s3.
Proof.
  intros H1 H2 Ht. destruct (H1 Ht) as [Ht2 He2]. destruct (H2 Ht2) as [Ht3 He3].
  split; [done | by eapply evolves_trans].
Qed.

Lemma sound_mono R s s' : sound strict s s' → sound R s s'.
Proof. intros H Ht. destruct (H Ht). split; [done | by apply evolves_mono]. Qed.

(** A function that assigns none of the variables the invariant reads. *)
Lemma typed_ext s s' :
  _handlers s' = _handlers s → calls s' = calls s → timers s' = timers s →
  length (heap s') = length (heap s) → exported s' = exported s →
  _lobbyInfo s' = _lobbyInfo s → _playerId s' = _playerId s →
  typed s → typed s'.
Proof.
  intros Hh Hc Ht Hl He Hi Hp [T1 T2 T3 T4 T5 T6].
  assert (Hk : ∀ c, kind_tag c s' = kind_tag c s)
    by (intros c; unfold kind_tag; by rewrite Hc).
  split; unfold handlers_of, handler_ok in *;
    rewrite ?Hh, ?Hc, ?Ht, ?Hl, ?He, ?Hi, ?Hp; try done.
  - intros event h Hin. specialize (T1 event h Hin).
    destruct h; rewrite ?Hk; done.
  - intros t tm c. rewrite Hk. apply T2.
Qed.

(** A function that leaves the promises alone and takes no reaction out of
    the microtask queue. *)
Lemma evolves_sockets R s s' :
  trace s `prefix_of` trace s' →
  (∀ k sk, sockets s !! k = Some sk →
           ∃ sk', sockets s' !! k = Some sk' ∧ socket_evolves sk sk') →
  calls s' = calls s → _playerId s' = _playerId s →
  (may_lobby R = false →
   _lobbyInfo s' = _lobbyInfo s ∧ heap s' = heap s ∧
   _isHost s' = _isHost s ∧ exported s' = exported s) →
  (∀ c, JSettled c ∈ jobs s → JSettled c ∈ jobs s') →
  refused s' = refused s →
  evolves R s s'.
Proof.
  intros Ht Hs Hc Hp Hl Hj Hr. split; try done.
  - intros c cl Hcl. exists cl. rewrite Hc. split; [done | apply call_evolves_refl].
  - intros c cl ? ? ? Hcl Hpen _ (cl' & e & ? & ? & Hcl' & Hph & _).
    rewrite Hc in Hcl'. assert (cl' = cl) as -> by congruence. by rewrite Hph in Hpen.
  - intros c serverUrl Hin _. left. by apply Hj.
Qed.

Lemma evolves_ext R s s' :
  trace s `prefix_of` trace s' → sockets s' = sockets s →
  calls s' = calls s → _playerId s' = _playerId s →
  (may_lobby R = false →
   _lobbyInfo s' = _lobbyInfo s ∧ heap s' = heap s ∧
   _isHost s' = _isHost s ∧ exported s' = exported s) →
  (∀ c, JSettled c ∈ jobs s → JSettled c ∈ jobs s') →
  refused s' = refused s →
  evolves R s s'.
Proof.
  intros Ht Hs Hc Hp Hl Hj Hr. apply evolves_sockets; try done.
  intros k sk Hk. exists sk. rewrite Hs. by split.
Qed.

(** The functions that only assign variables outside the invariant. *)
Lemma sound_ext R s s' :
  _handlers s' = _handlers s → calls s' = calls s → timers s' = timers s →
  heap s' = heap s → exported s' = exported s →
  _lobbyInfo s' = _lobbyInfo s → _isHost s' = _isHost s → _playerId s' = _playerId s →
  trace s `prefix_of` trace s' → sockets s' = sockets s →
  (∀ c, JSettled c ∈ jobs s → JSettled c ∈ jobs s') →
  refused s' = refused s →
  sound R s s'.
Proof.
  intros Hh Hc Hti Hhp He Hi Hho Hp Htr Hso Hj Hr Ht.
  split; [eapply (typed_ext s); try done; by rewrite Hhp|].
  by apply evolves_ext.
Qed.

Ltac sound_ext :=
  apply sound_ext; simpl; try done;
  try (by apply prefix_app_r); try (by intros; apply elem_of_app; left).

Lemma log_sound R o s : sound R s (log o s).
Proof. sound_ext. Qed.

Lemma enqueue_sound R j s : sound R s (enqueue j s).
Proof. sound_ext. Qed.

Lemma set_ws_sound R v s : sound R s (set_ws v s).
Proof. sound_ext. Qed.

Lemma set_connected_sound R v s : sound R s (set_connected v s).
Proof. sound_ext. Qed.

Lemma set_username_sound R v s : sound R s (set_username v s).
Proof. sound_ext. Qed.

Lemma set_gameId_sound R v s : sound R s (set_gameId v s).
Proof. sound_ext. Qed.

Lemma set_roomId_sound R v s : sound R s (set_roomId v s).
Proof. sound_ext. Qed.

Lemma set_players_sound R v s : sound R s (set_players v s).
Proof. sound_ext. Qed.

Lemma set_now_sound R v s : sound R s (set_now v s).
Proof. sound_ext. Qed.

Lemma _send_sound R m s : sound R s (_send m s).
Proof. unfold _send. case_match; [apply log_sound | same]. Qed.

Lemma handlers_of_on_ne event event' h s :
  event' ≠ event → handlers_of event' (on event h s) = handlers_of event' s.
Proof. intros Hne. unfold handlers_of at 1, on. simpl. by rewrite lookup_insert_ne. Qed.

Lemma handlers_of_off event h s :
  handlers_of event (off event h s) =
  List.filter (λ h', negb (same_fn h' h)) (handlers_of event s).
Proof.
  unfold handlers_of, off. destruct (_handlers s !! event) as [hs|] eqn:Hhs; simpl.
  - by rewrite lookup_insert_eq.
  - by rewrite Hhs.
Qed.

Lemma handlers_of_off_ne event event' h s :
  event' ≠ event → handlers_of event' (off event h s) = handlers_of event' s.
Proof.
  intros Hne. unfold handlers_of, off. destruct (_handlers s !! event); simpl; [|done].
  by rewrite lookup_insert_ne.
Qed.

Lemma elem_of_handlers_off event event' h h' s :
  h' ∈ handlers_of event' (off event h s) → h' ∈ handlers_of event' s.
Proof.
  destruct (decide (event' = event)) as [->|Hne].
  - rewrite handlers_of_off, list_elem_of_In, filter_In, <- list_elem_of_In. tauto.
  - by rewrite handlers_of_off_ne.
Qed.

Lemma elem_of_handlers_off_other event event' h h' s :
  same_fn h' h = false →
  h' ∈ handlers_of event' s → h' ∈ handlers_of event' (off event h s).
Proof.
  intros Hd Hin. destruct (decide (event' = event)) as [->|Hne].
  - rewrite handlers_of_off, list_elem_of_In, filter_In, <- list_elem_of_In.
    split; [done | by rewrite Hd].
  - by rewrite handlers_of_off_ne.
Qed.

Lemma off_fields event h s :
  calls (off event h s) = calls s ∧ timers (off event h s) = timers s ∧
  heap (off event h s) = heap s ∧ exported (off event h s) = exported s ∧
  _lobbyInfo (off event h s) = _lobbyInfo s ∧ _playerId (off event h s) = _playerId s ∧
  trace (off event h s) = trace s ∧ sockets (off event h s) = sockets s ∧
  jobs (off event h s) = jobs s ∧ _isHost (off event h s) = _isHost s.
Proof. unfold off. by case_match. Qed.

Lemma kind_tag_off c event h s : kind_tag c (off event h s) = kind_tag c s.
Proof. unfold kind_tag. by rewrite (proj1 (off_fields event h s)). Qed.

(** Unsubscribing anything but the closure of a listing that still waits. *)
Lemma off_sound R event h s :
  (∀ c cl, h = onList c → calls s !! c = Some cl → c_phase cl ≠ Handshake) →
  sound R s (off event h s).
Proof.
  intros Hh [T1 T2 T3 T4 T5 T6].
  destruct (off_fields event h s)
    as (Hc & Ht & Hp & He & Hi & Hpl & Htr & Hso & Hj & Hho).
  split.
  - split; rewrite ?Hc, ?Ht, ?Hp, ?He, ?Hi, ?Hpl; try done.
    + intros ev h' Hin%elem_of_handlers_off. specialize (T1 ev h' Hin).
      destruct h'; simpl in *; rewrite ?kind_tag_off; done.
    + intros t tm c. rewrite kind_tag_off. apply T2.
    + intros c cl Hcl Htag Hph. apply elem_of_handlers_off_other; [|by eapply T3].
      destruct h; try done. simpl. apply Nat.eqb_neq. intros ->.
      by eapply Hh.
  - apply evolves_ext; rewrite ?Htr, ?Hso, ?Hc, ?Hpl, ?Hj, ?Hi, ?Hp, ?Hho, ?He;
      try done.
    apply off_frame.
Qed.

Lemma elem_of_handlers_on event event' h h' s :
  h' ∈ handlers_of event' (on event h s) ↔
  h' ∈ handlers_of event' s ∨ (event' = event ∧ h' = h).
Proof.
  destruct (decide (event' = event)) as [->|Hne].
  - rewrite handlers_of_on, elem_of_app, list_elem_of_singleton. tauto.
  - rewrite handlers_of_on_ne by done. tauto.
Qed.

(** Subscribing a handler that is fit for the event. *)
Lemma on_sound R event h s : handler_ok s event h → sound R s (on event h s).
Proof.
  intros Hok [T1 T2 T3 T4 T5 T6]. split.
  - split; try done.
    + intros ev h' [Hin|[-> ->]]%elem_of_handlers_on; [by apply T1 | done].
    + intros c cl Hcl Htag Hph. apply elem_of_handlers_on. left. by eapply T3.
  - by apply evolves_ext.
Qed.

Lemma kind_tag_set_phase c c' p s : kind_tag c' (set_phase c p s) = kind_tag c' s.
Proof.
  unfold kind_tag, set_phase. simpl.
  destruct (decide (c' = c)) as [->|Hne].
  - rewrite list_lookup_alter_eq. by destruct (calls s !! c).
  - by rewrite list_lookup_alter_ne.
Qed.

Lemma kind_tag_set_phase_jobs c c' p js s :
  kind_tag c' (set_jobs js (set_phase c p s)) = kind_tag c' s.
Proof. apply (kind_tag_set_phase c c' p s). Qed.

(** Moving one promise to another phase, with what is put in the microtask
    queue for it. *)
Lemma set_phase_jobs_sound R c p js s :
  (∀ c', JSettled c' ∈ jobs s → JSettled c' ∈ js) →
  (∀ cl, calls s !! c = Some cl →
         call_evolves R cl (mkCall (c_kind cl) p (c_then cl)) ∧
         (tag_of (c_kind cl) = TList → p = Handshake →
          onList c ∈ handlers_of "lobbyList" s) ∧
         (is_pending (c_phase cl) = true → is_Some (c_then cl) →
          is_pending p = true ∨ JSettled c ∈ js)) →
  sound R s (set_jobs js (set_phase c p s)).
Proof.
  intros Hjs Hc [T1 T2 T3 T4 T5 T6]. split.
  - split; try done.
    + intros ev h Hin. specialize (T1 ev h Hin).
      destruct h; simpl in *; rewrite ?kind_tag_set_phase_jobs; done.
    + intros t tm c'. rewrite kind_tag_set_phase_jobs. apply T2.
    + intros c' cl'. simpl.
      destruct (decide (c' = c)) as [->|Hne].
      * rewrite list_lookup_alter_eq. destruct (calls s !! c) as [cl|] eqn:Hcl; [|done].
        simpl. intros [= <-]. simpl. intros Htag Hp.
        destruct (Hc cl eq_refl) as (_ & Hsub & _). by apply Hsub.
      * rewrite list_lookup_alter_ne by done. apply T3.
    + intros c' cl'. simpl.
      destruct (decide (c' = c)) as [->|Hne].
      * rewrite list_lookup_alter_eq. destruct (calls s !! c) as [cl|] eqn:Hcl; [|done].
        simpl. intros [= <-]. simpl. by apply (T6 c cl).
      * rewrite list_lookup_alter_ne by done. apply T6.
  - split; try done.
    + intros k sk ?. exists sk. by split.
    + intros c' cl' Hcl'. simpl.
      destruct (decide (c' = c)) as [->|Hne].
      * rewrite list_lookup_alter_eq, Hcl'. simpl. eexists. split; [done|].
        by apply Hc.
      * rewrite list_lookup_alter_ne by done. exists cl'.
        split; [done | apply call_evolves_refl].
    + intros c' cl' serverUrl roomId username Hcl' Hpen Hth
        (cl2 & e & ? & ? & Hcl2 & Hph2 & _). left. simpl in *.
      destruct (decide (c' = c)) as [->|Hne].
      * destruct (Hc cl' Hcl') as (_ & _ & Hq).
        rewrite list_lookup_alter_eq, Hcl' in Hcl2. simpl in Hcl2.
        injection Hcl2 as <-. simpl in Hph2. subst p.
        destruct Hq as [?|?]; by rewrite ?Hth.
      * rewrite list_lookup_alter_ne in Hcl2 by done.
        assert (cl2 = cl') as -> by congruence. by rewrite Hph2 in Hpen.
    + intros c' serverUrl Hin _. left. by apply Hjs.
Qed.

Lemma set_phase_sound R c p s :
  (∀ cl, calls s !! c = Some cl →
         call_evolves R cl (mkCall (c_kind cl) p (c_then cl)) ∧
         (tag_of (c_kind cl) = TList → p = Handshake →
          onList c ∈ handlers_of "lobbyList" s) ∧
         (is_pending (c_phase cl) = true → is_Some (c_then cl) →
          is_pending p = true)) →
  sound R s (set_phase c p s).
Proof.
  intros Hc.
  replace (set_phase c p s) with (set_jobs (jobs s) (set_phase c p s)) by by destruct s.
  apply set_phase_jobs_sound; [done|].
  intros cl Hcl. destruct (Hc cl Hcl) as (? & ? & ?). split_and!; auto.
Qed.

(** Settling a promise where that is permitted, a listing promise with a
    list. *)
Lemma settle_sound R c p s :
  is_pending p = false →
  (∀ cl, calls s !! c = Some cl → is_pending (c_phase cl) = true →
         match p with
         | Resolved _ => may_resolve R (tag_of (c_kind cl)) = true
         | Rejected _ => may_reject R = true
         | _ => True
         end) →
  (∀ cl, calls s !! c = Some cl → tag_of (c_kind cl) = TList →
         c_phase cl = Handshake → ∃ l, p = Resolved (VList l)) →
  sound R s (settle c p s).
Proof.
  intros Hp Hperm Hl. unfold settle.
  destruct (calls s !! c) as [cl|] eqn:Hcl; [|same].
  destruct (is_pending (c_phase cl)) eqn:Hpen; [|same].
  assert (Hev : call_evolves R cl (mkCall (c_kind cl) p (c_then cl))).
  { specialize (Hperm cl eq_refl Hpen).
    split_and!; simpl; try done.
    - intros Hn. congruence.
    - intros Htag Hph. right. by apply (Hl cl).
    - intros v ->. by right.
    - intros e ->. by right. }
  destruct (c_then cl) eqn:Hth.
  - change (enqueue (JSettled c) (set_phase c p s))
      with (set_jobs (jobs s ++ [JSettled c]) (set_phase c p s)).
    apply set_phase_jobs_sound.
    + intros c' ?. apply elem_of_app. by left.
    + intros cl' Hcl'. assert (cl' = cl) as -> by congruence. rewrite Hth.
      split_and!; [done | by intros _ -> |].
      intros _ _. right. apply elem_of_app. right. by left.
  - apply set_phase_sound.
    intros cl' Hcl'. assert (cl' = cl) as -> by congruence. rewrite Hth.
    split_and!; [done | by intros _ -> |].
    by intros _ [].
Qed.

Lemma settle_off c p event h s :
  settle c p (off event h s) = off event h (settle c p s).
Proof.
  unfold settle, off, enqueue, set_phase. destruct s. simpl.
  repeat case_match; simplify_eq/=; first [done | congruence].
Qed.

Lemma settle_settled c p s cl :
  is_pending p = false → calls (settle c p s) !! c = Some cl →
  is_pending (c_phase cl) = false.
Proof.
  intros Hp. unfold settle.
  destruct (calls s !! c) as [cl0|] eqn:Hcl; [|by rewrite Hcl].
  destruct (is_pending (c_phase cl0)) eqn:Hpen.
  - destruct (c_then cl0); simpl; rewrite list_lookup_alter_eq, Hcl; by intros [= <-].
  - rewrite Hcl. by intros [= <-].
Qed.

Lemma kind_tag_lookup c cl s :
  calls s !! c = Some cl → kind_tag c s = Some (tag_of (c_kind cl)).
Proof. unfold kind_tag. by intros ->. Qed.

(** A listing closure leaves together with the settlement of its promise. *)
Lemma unlist_sound R c l s :
  may_resolve R TList = true → kind_tag c s = Some TList →
  sound R s (resolve c (VList l) (off "lobbyList" (onList c) s)).
Proof.
  intros HR Hk. unfold resolve. rewrite settle_off.
  apply (sound_trans _ _ (settle c (Resolved (VList l)) s)).
  - apply settle_sound; [done | | eauto].
    intros cl Hcl _. rewrite (kind_tag_lookup _ _ _ Hcl) in Hk.
    injection Hk as ->. done.
  - apply off_sound. intros c' cl [= <-] Hcl Hph.
    apply settle_settled in Hcl; [|done]. by rewrite Hph in Hcl.
Qed.

Lemma kind_tag_evolves R c t s s' :
  evolves R s s' → kind_tag c s = Some t → kind_tag c s' = Some t.
Proof.
  intros He. unfold kind_tag.
  destruct (calls s !! c) as [cl|] eqn:Hcl; [|done].
  destruct (ev_calls _ _ _ He _ _ Hcl) as (cl' & -> & Hk & _). simpl. by rewrite Hk.
Qed.

Lemma handler_ok_evolves R event h s s' :
  evolves R s s' → handler_ok s event h → handler_ok s' event h.
Proof.
  intros He. destruct h; simpl; try done; intros [-> Hk];
    (split; [done | by eapply kind_tag_evolves]).
Qed.

(** Settling the promise of a [createLobby] or [joinLobby] call. *)
Lemma settle_other_sound R c p t s :
  is_pending p = false → kind_tag c s = Some t → t ≠ TList →
  match p with
  | Resolved _ => may_resolve R t = true
  | Rejected _ => may_reject R = true
  | _ => True
  end →
  sound R s (settle c p s).
Proof.
  intros Hp Hk Ht HR. apply settle_sound; [done | |].
  - intros cl Hcl _. rewrite (kind_tag_lookup _ _ _ Hcl) in Hk.
    injection Hk as ->. done.
  - intros cl Hcl Htag. rewrite (kind_tag_lookup _ _ _ Hcl) in Hk. congruence.
Qed.

(** [sound R s (f x)] from [sound R s x] and [sound R x (f x)]. *)
Ltac peel :=
  lazymatch goal with
  | |- sound ?R ?s (?f ?x) => apply (sound_trans R s x (f x))
  end.

(** One guarded call of a handler that is fit for the event. *)
Lemma guarded_call_sound R fn data event s :
  handler_ok s event fn → payload_ok event data → emit_perm R event →
  sound R s (try_catch (call_fn fn data) console_error s).2.
Proof.
  intros Hok Hd (HC & HJ & HL & HE). unfold try_catch.
  destruct fn as [f|c|c|c|c|c]; simpl in *.
  - destruct (fn_body f data); simpl.
    + peel; apply log_sound.
    + apply log_sound.
  - destruct Hok as [-> Hk]. unfold resolve.
    peel; [peel; [peel; [apply log_sound|] |] |].
    + apply off_sound; by intros.
    + apply off_sound; by intros.
    + apply (settle_other_sound _ _ _ TCreate); [done | | done | by apply HC].
      by rewrite !kind_tag_off.
  - destruct Hok as [-> Hk]. unfold reject.
    peel; [peel; [peel; [apply log_sound|] |] |].
    + apply off_sound; by intros.
    + apply off_sound; by intros.
    + apply (settle_other_sound _ _ _ TCreate); [by destruct data | | done | ].
      * by rewrite !kind_tag_off.
      * destruct data; by apply HE.
  - destruct Hok as [-> Hk]. unfold resolve.
    peel; [peel; [peel; [apply log_sound|] |] |].
    + apply off_sound; by intros.
    + apply off_sound; by intros.
    + apply (settle_other_sound _ _ _ TJoin); [done | | done | by apply HJ].
      by rewrite !kind_tag_off.
  - destruct Hok as [-> Hk]. unfold reject.
    peel; [peel; [peel; [apply log_sound|] |] |].
    + apply off_sound; by intros.
    + apply off_sound; by intros.
    + apply (settle_other_sound _ _ _ TJoin); [by destruct data | | done | ].
      * by rewrite !kind_tag_off.
      * destruct data; by apply HE.
  - destruct Hok as [-> Hk]. destruct (Hd eq_refl) as [l ->]. simpl.
    eapply sound_trans; [|apply unlist_sound; [by apply HL | done]]. apply log_sound.
Qed.

Lemma forEach_cons data fn hs s :
  (forEach (λ fn, try_catch (call_fn fn data) console_error) (fn :: hs) s).2 =
  (forEach (λ fn, try_catch (call_fn fn data) console_error) hs
           (try_catch (call_fn fn data) console_error s).2).2.
Proof.
  simpl. destruct (guarded_call fn data s) as (s1 & -> & _). done.
Qed.

Lemma forEach_sound R data event hs s0 s :
  payload_ok event data → emit_perm R event →
  (∀ h, h ∈ hs → handler_ok s0 event h) →
  evolves R s0 s → typed s →
  typed (forEach (λ fn, try_catch (call_fn fn data) console_error) hs s).2 ∧
  evolves R s0 (forEach (λ fn, try_catch (call_fn fn data) console_error) hs s).2.
Proof.
  intros Hd HR. revert s. induction hs as [|fn hs IH]; intros s Hok He Ht; [done|].
  rewrite forEach_cons.
  destruct (guarded_call_sound R fn data event s) as [Ht1 He1]; try done.
  { eapply handler_ok_evolves; [done|]. apply Hok. by left. }
  apply IH; [|by eapply evolves_trans|done].
  intros h Hh. apply Hok. by right.
Qed.

(** Publishing. *)
Lemma emit_sound R event data s :
  payload_ok event data → emit_perm R event → sound R s (emit_ event data s).
Proof.
  intros Hd HR Ht. unfold emit_, emit.
  destruct (log_sound R (TEmit event data) s Ht) as [Ht1 He1].
  apply (forEach_sound R data event); try done.
  intros h Hh. by apply (typed_handlers s).
Qed.

(** Publishing an event that settles no promise. *)
Lemma emit_plain_sound R event data s : plain event → sound R s (emit_ event data s).
Proof.
  intros (H1 & H2 & H3 & H4). apply emit_sound; [by intros ? | by split_and!].
Qed.

(** ** Soundness of the environment's primitives *)

Lemma sockets_sound R s s' :
  _handlers s' = _handlers s → calls s' = calls s → timers s' = timers s →
  heap s' = heap s → exported s' = exported s →
  _lobbyInfo s' = _lobbyInfo s → _isHost s' = _isHost s → _playerId s' = _playerId s →
  trace s `prefix_of` trace s' → jobs s' = jobs s →
  (∀ k sk, sockets s !! k = Some sk →
           ∃ sk', sockets s' !! k = Some sk' ∧ socket_evolves sk sk') →
  refused s' = refused s →
  sound R s s'.
Proof.
  intros Hh Hc Hti Hhp He Hi Hho Hp Htr Hj Hso Hr Ht.
  split; [eapply (typed_ext s); try done; by rewrite Hhp|].
  apply evolves_sockets; try done. by rewrite Hj.
Qed.

Lemma new_socket_sound R serverUrl r s s' :
  new_socket serverUrl r s = Some s' → sound R s s'.
Proof.
  unfold new_socket. destruct (refused s serverUrl); [done|]. intros [= <-].
  apply sockets_sound; simpl; try done; [by apply prefix_app_r|].
  intros k sk Hk. exists sk. split; [by apply lookup_app_l_Some | done].
Qed.

Lemma alter_socket_sound R f k s :
  (∀ sk, sockets s !! k = Some sk → socket_evolves sk (f sk)) →
  sound R s (set_sockets (alter f k (sockets s)) s).
Proof.
  intros Hf. apply sockets_sound; simpl; try done.
  intros k' sk Hk. destruct (decide (k' = k)) as [->|Hne].
  - rewrite list_lookup_alter_eq, Hk. simpl. eauto.
  - rewrite list_lookup_alter_ne by done. by exists sk.
Qed.

Lemma set_readyState_sound R k r s : sound R s (set_readyState k r s).
Proof. apply alter_socket_sound. by intros. Qed.

Lemma set_callbacks_sound R k r s :
  callbacks_of k s ≠ Some Legacy → sound R s (set_callbacks k r s).
Proof.
  intros Hk. apply alter_socket_sound. intros sk Hsk. split; [done|].
  intros Hl. unfold callbacks_of in Hk. rewrite Hsk in Hk. simpl in Hk. congruence.
Qed.

Lemma ws_close_sound R k s : sound R s (ws_close k s).
Proof.
  unfold ws_close. destruct (sockets s !! k) as [sk|] eqn:Hsk; [|same].
  destruct (readyState sk); try same.
  - apply sockets_sound; simpl; try done.
    intros k' sk' Hk'. destruct (decide (k' = k)) as [->|Hne].
    + rewrite list_lookup_insert_eq by (by eapply lookup_lt_Some). eexists.
      split; [done|]. by simplify_eq.
    + rewrite list_lookup_insert_ne by done. by exists sk'.
  - apply sockets_sound; simpl; try done.
    intros k' sk' Hk'. destruct (decide (k' = k)) as [->|Hne].
    + rewrite list_lookup_insert_eq by (by eapply lookup_lt_Some). eexists.
      split; [done|]. by simplify_eq.
    + rewrite list_lookup_insert_ne by done. by exists sk'.
Qed.

Lemma timers_sound R s s' :
  _handlers s' = _handlers s → calls s' = calls s →
  heap s' = heap s → exported s' = exported s →
  _lobbyInfo s' = _lobbyInfo s → _isHost s' = _isHost s → _playerId s' = _playerId s →
  trace s' = trace s → sockets s' = sockets s → jobs s' = jobs s →
  (∀ t tm c, timers s' !! t = Some tm → t_kind tm = ListTimeout c →
             kind_tag c s = Some TList) →
  refused s' = refused s →
  sound R s s'.
Proof.
  intros Hh Hc Hl He Hi Hho Hp Htr Hso Hj Hti Hr [T1 T2 T3 T4 T5 T6].
  assert (Hk : ∀ c, kind_tag c s' = kind_tag c s)
    by (intros c; unfold kind_tag; by rewrite Hc).
  split.
  - split; unfold handlers_of, handler_ok in *;
      rewrite ?Hh, ?Hc, ?Hl, ?He, ?Hi, ?Hp; try done.
    + intros event h Hin. specialize (T1 event h Hin). destruct h; rewrite ?Hk; done.
    + intros t tm c. rewrite Hk. apply Hti.
  - apply evolves_ext; by rewrite ?Htr, ?Hj.
Qed.

Lemma setTimeout_sound R kind delay s :
  (∀ c, kind = ListTimeout c → kind_tag c s = Some TList) →
  sound R s (setTimeout kind delay s).
Proof.
  intros Hk Ht. apply timers_sound; simpl; try done.
  intros t tm c [Hin|[_ Heq]]%lookup_app_Some.
  - by apply (typed_timers s Ht t).
  - destruct (t - length (timers s)) as [|[]]; simplify_eq/=. by apply Hk.
Qed.

Lemma clearTimeout_sound R t s : sound R s (clearTimeout t s).
Proof.
  unfold clearTimeout. destruct (timers s !! t) as [tm|] eqn:Htm; [|same].
  intros Ht. apply timers_sound; simpl; try done.
  intros t' tm' c. destruct (decide (t' = t)) as [->|Hne].
  - rewrite list_lookup_insert_eq by (by eapply lookup_lt_Some).
    intros [= <-]. simpl. by apply (typed_timers s Ht t).
  - rewrite list_lookup_insert_ne by done. by apply (typed_timers s Ht).
Qed.

Lemma truthy_assign_playerId s : truthy (_playerId (assign_playerId s)) = true.
Proof.
  unfold assign_playerId. destruct (truthy (_playerId s)) eqn:Ht; [done|].
  reflexivity.
Qed.

Lemma assign_playerId_sound R s : sound R s (assign_playerId s).
Proof.
  unfold assign_playerId. destruct (truthy (_playerId s)) eqn:Hp; [same|].
  unfold random_id. intros [T1 T2 T3 T4 T5 T6]. split.
  - split; done.
  - split; simpl; try done.
    + intros k sk ?. exists sk. by split.
    + intros c cl ?. exists cl. split; [done | apply call_evolves_refl].
    + intros. congruence.
    + intros c cl ? ? ? Hcl Hpen _ (cl' & e & ? & ? & Hcl' & Hph & _).
      simpl in Hcl'. assert (cl' = cl) as -> by congruence. by rewrite Hph in Hpen.
    + auto.
Qed.

Lemma new_call_sound R k s :
  (tag_of k ≠ TList → truthy (_playerId s) = true) → sound R s (new_call k s).
Proof.
  intros Hp [T1 T2 T3 T4 T5 T6].
  assert (Hk : ∀ c t, kind_tag c s = Some t → kind_tag c (new_call k s) = Some t).
  { intros c t. unfold kind_tag, new_call. simpl.
    destruct (calls s !! c) as [cl|] eqn:Hcl; [|done].
    by rewrite (lookup_app_l_Some _ _ _ _ Hcl). }
  split.
  - split; try done.
    + intros ev h Hin. specialize (T1 ev h Hin).
      destruct h; simpl in *; try done; destruct T1; split; auto.
    + intros t tm c Htm Hkd. apply Hk. by eapply T2.
    + intros c cl [Hin|[_ Heq]]%lookup_app_Some.
      * by apply T3.
      * destruct (c - length (calls s)) as [|[]]; simplify_eq/=. done.
    + intros c cl [Hin|[_ Heq]]%lookup_app_Some.
      * by apply (T6 c).
      * destruct (c - length (calls s)) as [|[]]; simplify_eq/=. done.
  - split; simpl; try done.
    + intros k' sk ?. exists sk. by split.
    + intros c cl Hcl. exists cl. split; [by apply lookup_app_l_Some|].
      apply call_evolves_refl.
    + intros c cl ? ? ? Hcl Hpen _ (cl' & e & ? & ? & Hcl' & Hph & _).
      simpl in Hcl'. rewrite (lookup_app_l_Some _ _ _ _ Hcl) in Hcl'.
      assert (cl' = cl) as -> by congruence. by rewrite Hph in Hpen.
    + auto.
Qed.

(** ** Soundness of the lobby variables *)

Lemma heap_sound R s s' :
  may_lobby R = true →
  _handlers s' = _handlers s → calls s' = calls s → timers s' = timers s →
  _playerId s' = _playerId s → trace s' = trace s → sockets s' = sockets s →
  jobs s' = jobs s → refused s' = refused s →
  (∀ l, l ∈ exported s' → l < length (heap s')) →
  (∀ l, _lobbyInfo s' = Some l → l < length (heap s') ∧ l ∉ exported s') →
  sound R s s'.
Proof.
  intros HR Hh Hc Ht Hp Htr Hso Hj Hr He Hi [T1 T2 T3 T4 T5 T6].
  assert (Hk : ∀ c, kind_tag c s' = kind_tag c s)
    by (intros c; unfold kind_tag; by rewrite Hc).
  split.
  - split; unfold handlers_of, handler_ok in *; rewrite ?Hh, ?Hc, ?Ht, ?Hp; try done.
    + intros event h Hin. specialize (T1 event h Hin). destruct h; rewrite ?Hk; done.
    + intros t tm c. rewrite Hk. apply T2.
  - apply evolves_ext; rewrite ?Htr, ?Hj; try done. congruence.
Qed.

Lemma set_isHost_sound R v s : may_lobby R = true → sound R s (set_isHost v s).
Proof. intros HR Ht. apply heap_sound; try done; apply Ht. Qed.

Lemma set_lobbyInfo_None_sound R s : may_lobby R = true → sound R s (set_lobbyInfo None s).
Proof. intros HR Ht. apply heap_sound; try done. apply Ht. Qed.

Lemma new_lobbyInfo_sound R li s : may_lobby R = true → sound R s (new_lobbyInfo li s).
Proof.
  intros HR Ht. apply heap_sound; simpl; try done.
  - intros l Hl. rewrite length_app. simpl. apply (typed_exported s Ht) in Hl. lia.
  - intros l [= <-]. rewrite length_app. simpl. split; [lia|].
    intros Hl. apply (typed_exported s Ht) in Hl. lia.
Qed.

Lemma alter_heap_sound R f l s :
  may_lobby R = true → sound R s (set_heap (alter f l (heap s)) s).
Proof.
  intros HR Ht. apply heap_sound; simpl; try done; rewrite length_alter; apply Ht.
Qed.

Lemma insert_heap_sound R v l s :
  may_lobby R = true → sound R s (set_heap (<[l := v]> (heap s)) s).
Proof.
  intros HR Ht. apply heap_sound; simpl; try done; rewrite length_insert; apply Ht.
Qed.

Lemma getLobbyInfo_sound R s : may_lobby R = true → sound R s (getLobbyInfo s).2.
Proof.
  intros HR.
  unfold getLobbyInfo. destruct (_lobbyInfo s) as [l0|] eqn:Hl0; [|same].
  intros Ht. apply heap_sound; simpl; try done.
  - intros l. rewrite length_app, elem_of_cons. simpl.
    intros [->|Hl]; [lia|]. apply (typed_exported s Ht) in Hl. lia.
  - intros l. rewrite Hl0. intros [= <-].
    destruct (typed_lobby s Ht l0 Hl0) as [Hlt Hne].
    rewrite length_app, elem_of_cons. simpl. split; [lia|]. intros [->|?]; [lia|done].
Qed.

(** ** Soundness of the engine's functions *)

Create HintDb sound discriminated.

#[local] Hint Resolve log_sound enqueue_sound set_ws_sound
  set_connected_sound set_username_sound set_gameId_sound set_roomId_sound
  set_players_sound set_now_sound _send_sound
  set_readyState_sound ws_close_sound clearTimeout_sound assign_playerId_sound
  set_isHost_sound set_lobbyInfo_None_sound new_lobbyInfo_sound alter_heap_sound
  insert_heap_sound getLobbyInfo_sound : sound.

Ltac plain := repeat split; discriminate.

#[local] Hint Extern 1 (sound _ _ (emit_ _ _ _)) =>
  apply emit_plain_sound; plain : sound.
#[local] Hint Extern 1 (sound _ _ (setTimeout (OpenTimeout _ _) _ _)) =>
  apply setTimeout_sound; discriminate : sound.

(** Peels [sound R s (f1 (f2 (.. s)))] into one goal per function. *)
Ltac chain :=
  lazymatch goal with
  | |- sound _ ?s ?s => apply sound_refl
  | |- sound ?R ?s (?f ?x) => apply (sound_trans R s x (f x)); [chain | auto with sound]
  end.

Lemma _openWS_sound R serverUrl c s : sound R s (_openWS serverUrl c s).
Proof.
  unfold _openWS. destruct (ws_open s); [auto with sound|]. cbv zeta.
  set (s1 := match _ws s with Some k => set_ws None (ws_close k s) | None => s end).
  assert (sound R s s1) as H1 by (unfold s1; destruct (_ws s); chain).
  destruct (new_socket _ _ s1) as [s2|] eqn:Hn.
  - apply (sound_trans _ _ s1); [done|]. apply (sound_trans _ _ s2).
    + by eapply new_socket_sound.
    + auto with sound.
  - apply (sound_trans _ _ s1); [done | auto with sound].
Qed.


Lemma evolves_weaken R R' s s' : perm_le R R' → evolves R s s' → evolves R' s s'.
Proof.
  intros (Hv & Hj & Hl) [T S C P L X J]. split; try done.
  - intros c cl Hc. destruct (C _ _ Hc) as (cl' & ? & Hk & Ht & Hs & Hli & Hres & Hrej).
    exists cl'. split; [done|]. split_and!; try done.
    + intros v Hph. destruct (Hres v Hph); auto.
    + intros e Hph. destruct (Hrej e Hph); auto.
  - intros HR'. apply L. destruct (may_lobby R); [|done]. by rewrite Hl in HR'.
Qed.

Lemma sound_weaken R R' s s' : perm_le R R' → sound R s s' → sound R' s s'.
Proof. intros Hle H Ht. destruct (H Ht). split; [done | by eapply evolves_weaken]. Qed.

Lemma set_Object_prototype_data_sound R v s :
  sound R s (set_Object_prototype_data v s).
Proof. sound_ext. Qed.

Lemma set_builtin_data_sound R v s : sound R s (set_builtin_data v s).
Proof. sound_ext. Qed.

Lemma update_data_sound R k playerId username data s :
  sound R s (update_data k playerId username data s).
Proof.
  unfold update_data. destruct (get k (_players s)); [| destruct (proto _) | |];
    first [apply set_players_sound | apply set_Object_prototype_data_sound
          | apply set_builtin_data_sound].
Qed.

#[local] Hint Resolve update_data_sound : sound.

Lemma _handleMessage_sound m s : sound (msg_perm m) s (_handleMessage m s).
Proof.
  destruct m; simpl; try (by chain).
  - chain. by apply emit_sound.
  - chain. by apply emit_sound.
  - destruct (_lobbyInfo s); chain.
  - chain. apply emit_sound; [|done]. intros _. eauto.
  - chain. by apply emit_sound.
Qed.

Lemma createLobby_sound R o s : sound R s (createLobby o s).2.
Proof.
  unfold createLobby. cbv zeta. simpl.
  eapply sound_trans; [|apply _openWS_sound].
  peel; [chain|]. apply new_call_sound. intros _. apply truthy_assign_playerId.
Qed.

Lemma joinLobby_sound R o s : sound R s (joinLobby o s).2.
Proof.
  unfold joinLobby. cbv zeta. simpl.
  eapply sound_trans; [|apply _openWS_sound].
  peel; [chain|]. apply new_call_sound. intros _. apply truthy_assign_playerId.
Qed.

Lemma listLobbies_sound R serverUrl gameId s :
  sound R s (listLobbies serverUrl gameId s).2.
Proof.
  unfold listLobbies. cbv zeta. simpl.
  eapply sound_trans; [|apply _openWS_sound]. by apply new_call_sound.
Qed.

Lemma leaveLobby_sound R s : may_lobby R = true → sound R s (leaveLobby s).
Proof. intros HR. unfold leaveLobby. cbv zeta. chain. Qed.

Lemma connect_sound R serverUrl roomId username s :
  sound R s (connect serverUrl roomId username s).2.
Proof.
  unfold connect. cbv zeta.
  set (s1 := set_roomId _ (set_username _ (assign_playerId s))).
  assert (sound R s s1) as H1 by (unfold s1; chain).
  destruct (new_socket _ _ s1) as [s2|] eqn:Hn; simpl; [|done].
  apply (sound_trans _ _ s1); [done|]. apply (sound_trans _ _ s2).
  - by eapply new_socket_sound.
  - auto with sound.
Qed.

Lemma disconnect_sound R s : may_lobby R = true → sound R s (disconnect s).
Proof. intros HR. unfold disconnect. destruct (_ws s); cbv zeta; chain. Qed.

#[local] Hint Resolve _openWS_sound createLobby_sound
  joinLobby_sound listLobbies_sound leaveLobby_sound connect_sound disconnect_sound
  : sound.

Lemma assign_playerId_refused s : refused (assign_playerId s) = refused s.
Proof. unfold assign_playerId. by case_match. Qed.

(** [connect] returns on a host that does not refuse the URL, and throws
    on one that does. *)
Lemma connect_accepted serverUrl roomId username s :
  refused s serverUrl = false →
  connect serverUrl roomId username s =
  (Normal (_playerId (connect serverUrl roomId username s).2),
   (connect serverUrl roomId username s).2).
Proof.
  intros Hr. unfold connect, new_socket. cbv zeta. simpl.
  by rewrite assign_playerId_refused, Hr.
Qed.

Lemma connect_refused serverUrl roomId username s :
  refused s serverUrl = true →
  connect serverUrl roomId username s =
  (Abrupt SyntaxError,
   set_roomId roomId (set_username (or_str username (_username (assign_playerId s)))
                                   (assign_playerId s))).
Proof.
  intros Hr. unfold connect, new_socket. cbv zeta. simpl.
  by rewrite assign_playerId_refused, Hr.
Qed.

(** [connect(..); emit('ready', ..)], as [_init] has it three times. *)
Lemma legacy_sound R serverUrl roomId username s :
  sound R s match connect serverUrl roomId username s with
            | (Normal _, s1) => emit_ "ready" (PReady true) s1
            | (Abrupt _, s1) => s1
            end.
Proof.
  pose proof (connect_sound R serverUrl roomId username s) as Hc.
  destruct (connect serverUrl roomId username s) as [[v|e] s1]; simpl in Hc; [|done].
  eapply sound_trans; [done | auto with sound].
Qed.

(** Publishing to functions of the game only extends the log. *)
Lemma forEach_users data hs s :
  (∀ h, h ∈ hs → ∃ f, h = User f) →
  (forEach (λ fn, try_catch (call_fn fn data) console_error) hs s).2 =
  set_trace (trace s ++ flat_map (invocation data) hs) s.
Proof.
  revert s. induction hs as [|h hs IH]; intros s Hu.
  - simpl. rewrite app_nil_r. by destruct s.
  - rewrite forEach_cons. destruct (Hu h) as [f ->]; [by left|].
    rewrite IH by (intros h' ?; apply Hu; by right).
    unfold try_catch, invocation. simpl.
    destruct (fn_body f data); simpl; by rewrite <- !app_assoc.
Qed.

Lemma emit_users event data s :
  (∀ h, h ∈ handlers_of event s → ∃ f, h = User f) →
  emit_ event data s =
  set_trace (trace s ++ TEmit event data
                     :: flat_map (invocation data) (handlers_of event s)) s.
Proof.
  intros Hu. unfold emit_, emit. rewrite forEach_users by done.
  simpl. by rewrite <- app_assoc.
Qed.

Lemma plain_users event s h :
  typed s → plain event → h ∈ handlers_of event s → ∃ f, h = User f.
Proof.
  intros Ht (H1 & H2 & H3 & H4) Hin. apply (typed_handlers s Ht) in Hin.
  destruct h; simpl in Hin; [eauto|..]; by destruct Hin.
Qed.

Lemma emit_plain event data s :
  typed s → plain event →
  emit_ event data s =
  set_trace (trace s ++ TEmit event data
                     :: flat_map (invocation data) (handlers_of event s)) s.
Proof. intros Ht Hp. apply emit_users. intros h. by apply plain_users. Qed.

(** Subscribing, after other sound work, a handler that was fit before it. *)
Lemma on_after_sound R event h s s1 :
  sound R s s1 → handler_ok s event h → sound R s (on event h s1).
Proof.
  intros Hs Hok Ht. destruct (Hs Ht) as [Ht1 He1].
  destruct (on_sound R event h s1) as [Ht2 He2]; [by eapply handler_ok_evolves | done |].
  split; [done | by eapply evolves_trans].
Qed.

Lemma createLobby_resume_sound R c gameId lobbyId lobbyName maxPlayers s :
  kind_tag c s = Some TCreate →
  sound R s (createLobby_resume c gameId lobbyId lobbyName maxPlayers s).
Proof.
  intros Hk. unfold createLobby_resume. cbv zeta.
  peel; [|auto with sound].
  apply on_after_sound; [|done]. apply on_after_sound; [|done]. auto with sound.
Qed.

Lemma joinLobby_resume_sound R c gameId lobbyId s :
  kind_tag c s = Some TJoin → sound R s (joinLobby_resume c gameId lobbyId s).
Proof.
  intros Hk. unfold joinLobby_resume. cbv zeta.
  peel; [|auto with sound].
  apply on_after_sound; [|done]. apply on_after_sound; [|done]. auto with sound.
Qed.

Lemma listLobbies_resume_sound R c gameId s :
  kind_tag c s = Some TList → sound R s (listLobbies_resume c gameId s).
Proof.
  intros Hk. unfold listLobbies_resume. cbv zeta.
  peel; [peel; [by apply on_sound | auto with sound] |].
  apply setTimeout_sound. intros ? [= <-]. unfold _send. by case_match.
Qed.

Lemma createLobby_resume_calls c gameId lobbyId lobbyName maxPlayers s :
  typed s →
  calls (createLobby_resume c gameId lobbyId lobbyName maxPlayers s) = calls s ∧
  jobs (createLobby_resume c gameId lobbyId lobbyName maxPlayers s) = jobs s.
Proof.
  intros Ht. unfold createLobby_resume, _send. cbv zeta.
  rewrite emit_plain by (done || plain). by case_match.
Qed.

Lemma joinLobby_resume_calls c gameId lobbyId s :
  typed s →
  calls (joinLobby_resume c gameId lobbyId s) = calls s ∧
  jobs (joinLobby_resume c gameId lobbyId s) = jobs s.
Proof.
  intros Ht. unfold joinLobby_resume, _send. cbv zeta.
  rewrite emit_plain by (done || plain). by case_match.
Qed.

Lemma listLobbies_resume_calls c gameId s :
  calls (listLobbies_resume c gameId s) = calls s ∧
  jobs (listLobbies_resume c gameId s) = jobs s.
Proof. unfold listLobbies_resume, _send. cbv zeta. simpl. by case_match. Qed.

Lemma handshake_evolves R cl :
  c_phase cl = AwaitOpen →
  call_evolves R cl (mkCall (c_kind cl) Handshake (c_then cl)).
Proof. intros Hp. split_and!; simpl; try done; by rewrite Hp. Qed.

Lemma resume_sound R c s : sound R s (resume c s).
Proof.
  unfold resume. destruct (calls s !! c) as [cl|] eqn:Hcl; [|same].
  destruct (c_phase cl) eqn:Hph; try same.
  pose proof (kind_tag_lookup _ _ _ Hcl) as Hk.
  intros Ht. destruct (c_kind cl) as [g l n m|g l|g] eqn:Hkind; simpl in Hk.
  - apply (sound_trans R s (createLobby_resume c g l n m s)); [| |done].
    + by apply createLobby_resume_sound.
    + apply set_phase_sound.
      rewrite (proj1 (createLobby_resume_calls _ _ _ _ _ _ Ht)), Hcl.
      intros ? [= <-]. split_and!; [by apply handshake_evolves | by rewrite Hkind | done].
  - apply (sound_trans R s (joinLobby_resume c g l s)); [| |done].
    + by apply joinLobby_resume_sound.
    + apply set_phase_sound.
      rewrite (proj1 (joinLobby_resume_calls _ _ _ _ Ht)), Hcl.
      intros ? [= <-]. split_and!; [by apply handshake_evolves | by rewrite Hkind | done].
  - apply (sound_trans R s (listLobbies_resume c g s)); [| |done].
    + by apply listLobbies_resume_sound.
    + apply set_phase_sound. rewrite (proj1 (listLobbies_resume_calls _ _ _)), Hcl.
      intros ? [= <-]. split_and!; [by apply handshake_evolves | | done]. intros _ _.
      unfold listLobbies_resume, _send, setTimeout. cbv zeta.
      case_match; unfold handlers_of; simpl; rewrite lookup_insert_eq; simpl;
        apply elem_of_app; right; by left.
Qed.

Lemma resume_jobs c s : typed s → jobs (resume c s) = jobs s.
Proof.
  intros Ht. unfold resume. destruct (calls s !! c) as [cl|]; [|done].
  destruct (c_phase cl); try done. simpl.
  destruct (c_kind cl).
  - apply createLobby_resume_calls, Ht.
  - apply joinLobby_resume_calls, Ht.
  - apply listLobbies_resume_calls.
Qed.

Lemma fail_open_sound R c e s : may_reject R = true → sound R s (fail_open c e s).
Proof.
  intros HR.
  unfold fail_open. destruct (calls s !! c) as [cl|] eqn:Hcl; [|same].
  destruct (c_phase cl) eqn:Hph; try same.
  apply settle_sound; [done | done |]. intros cl' Hcl' _ Hph'. congruence.
Qed.

Lemma settle_jobs c p s :
  jobs (settle c p s) = jobs s ∨ jobs (settle c p s) = jobs s ++ [JSettled c].
Proof. unfold settle. repeat case_match; simpl; auto. Qed.

Lemma fail_open_jobs c e s :
  jobs (fail_open c e s) = jobs s ∨ jobs (fail_open c e s) = jobs s ++ [JSettled c].
Proof. unfold fail_open. repeat case_match; auto. apply settle_jobs. Qed.

Lemma react_sound R c s : sound R s (react c s).
Proof.
  unfold react. destruct (calls s !! c) as [cl|]; [|same].
  destruct (c_then cl) as [[serverUrl roomId username]|]; [|same].
  destruct (c_phase cl); try same; cbv zeta.
  - auto with sound.
  - eapply sound_trans; [apply log_sound | apply legacy_sound].
Qed.

Lemma assign_playerId_fields s :
  trace (assign_playerId s) = trace s ∧ sockets (assign_playerId s) = sockets s ∧
  jobs (assign_playerId s) = jobs s ∧ calls (assign_playerId s) = calls s.
Proof. unfold assign_playerId. by case_match. Qed.

Lemma connect_fields serverUrl roomId username s :
  refused s serverUrl = false →
  let s' := (connect serverUrl roomId username s).2 in
  trace s' = trace s ++ [TNewSocket (length (sockets s)) serverUrl] ∧
  sockets s' = sockets s ++ [mkSocket serverUrl CONNECTING Legacy] ∧
  _ws s' = Some (length (sockets s)) ∧ _roomId s' = roomId ∧
  jobs s' = jobs s ∧ calls s' = calls s ∧ _handlers s' = _handlers s.
Proof.
  intros Hr. destruct (assign_playerId_fields s) as (Ht & Hs & Hj & Hc).
  unfold connect, new_socket. cbv zeta. simpl. rewrite assign_playerId_refused, Hr.
  simpl. rewrite ?Ht, ?Hs, ?Hj, ?Hc. split_and!; try done.
  unfold assign_playerId. by case_match.
Qed.

(** What [connect] leaves alone, whether it returns or throws. *)
Lemma connect_frame serverUrl roomId username s :
  let s' := (connect serverUrl roomId username s).2 in
  jobs s' = jobs s ∧ calls s' = calls s ∧ _handlers s' = _handlers s ∧
  refused s' = refused s ∧ _roomId s' = roomId.
Proof.
  destruct (assign_playerId_fields s) as (Ht & Hs & Hj & Hc).
  unfold connect, new_socket. cbv zeta. simpl.
  destruct (refused _ serverUrl); simpl; rewrite ?Hj, ?Hc, ?assign_playerId_refused;
    split_and!; try done; unfold assign_playerId; by case_match.
Qed.

Lemma jobs_set_trace tr s : jobs (set_trace tr s) = jobs s.
Proof. done. Qed.

Lemma react_jobs c s : typed s → jobs (react c s) = jobs s.
Proof.
  intros Ht. unfold react. destruct (calls s !! c) as [cl|]; [|done].
  destruct (c_then cl) as [[serverUrl roomId username]|]; [|done].
  destruct (c_phase cl); try done; cbv zeta.
  - by rewrite emit_plain by (done || plain).
  - set (s1 := log (TConsoleWarn (fallback_warning (c_kind cl))) s).
    pose proof (connect_frame serverUrl roomId username s1) as (Hj & _).
    assert (typed (connect serverUrl roomId username s1).2) as Ht1.
    { eapply (sound_trans strict); [apply log_sound | apply connect_sound | done]. }
    destruct (connect serverUrl roomId username s1) as [[v|e0] s2]; simpl in *; [|done].
    rewrite emit_plain; [| done |plain]. by rewrite jobs_set_trace, Hj.
Qed.

(** The reaction chained on a rejected promise logs the fallback. *)
Lemma react_logs c serverUrl s :
  typed s → fallback_due c serverUrl s → fallback_logged serverUrl s (react c s).
Proof.
  intros Ht (cl & e & roomId & username & Hcl & Hph & Hth & Hre).
  unfold react. rewrite Hcl, Hth, Hph. cbv zeta.
  set (s1 := log (TConsoleWarn (fallback_warning (c_kind cl))) s).
  assert (typed (connect serverUrl roomId username s1).2) as Ht1.
  { eapply (sound_trans strict); [apply log_sound | apply connect_sound | done]. }
  destruct (connect_fields serverUrl roomId username s1 Hre) as (Htr & Hso & _).
  rewrite (connect_accepted serverUrl roomId username s1 Hre).
  exists (fallback_warning (c_kind cl)), (length (sockets s)), [],
    (flat_map (invocation (PReady true))
       (handlers_of "ready" (connect serverUrl roomId username s1).2)).
  split.
  - rewrite emit_plain by (done || plain). simpl. simpl in Htr. rewrite Htr.
    simpl. by rewrite <- !app_assoc.
  - exists (mkSocket serverUrl CONNECTING Legacy). split; [|done].
    rewrite emit_plain by (done || plain). simpl. simpl in Hso. rewrite Hso.
    simpl. by rewrite list_lookup_middle.
Qed.

Lemma run_job_sound R j s : may_reject R = true → sound R s (run_job j s).
Proof.
  intros HR.
  destruct j; simpl; [apply resume_sound | by apply fail_open_sound | apply react_sound].
Qed.

(** One turn of the microtask loop. *)
Lemma pop_sound R j js s :
  may_reject R = true → jobs s = j :: js → sound R s (run_job j (set_jobs js s)).
Proof.
  intros HR Hjobs Ht.
  assert (typed (set_jobs js s)) as Ht0 by by eapply (typed_ext s).
  destruct (run_job_sound R j (set_jobs js s) HR Ht0) as [Ht1 [T S C P L X J]].
  split; [done|]. split; try done.
  intros c serverUrl Hin Hdue. rewrite Hjobs in Hin.
  apply elem_of_cons in Hin as [<-|Hin].
  - right. simpl. by apply (react_logs c serverUrl (set_jobs js s)).
  - by apply J.
Qed.

Lemma drain_n_sound R n s : may_reject R = true → sound R s (drain_n n s).
Proof.
  intros HR.
  revert s. induction n as [|n IH]; intros s; simpl; [same|].
  destruct (jobs s) as [|j js] eqn:Hj; [same|].
  eapply sound_trans; [by apply pop_sound | apply IH].
Qed.

Lemma drain_sound R s : may_reject R = true → sound R s (drain s).
Proof. apply drain_n_sound. Qed.

Lemma run_job_load j s :
  typed s → (load (jobs (run_job j s)) + 1 ≤ load (jobs s) + weight j)%nat.
Proof.
  intros Ht. destruct j as [c|c e|c]; simpl.
  - rewrite resume_jobs by done. lia.
  - destruct (fail_open_jobs c e s) as [->| ->]; [lia|].
    unfold load. rewrite sum_list_with_app. simpl. lia.
  - rewrite react_jobs by done. lia.
Qed.

Lemma drain_n_empties n s :
  typed s → (load (jobs s) ≤ n)%nat → jobs (drain_n n s) = [].
Proof.
  revert s. induction n as [|n IH]; intros s Ht Hn; simpl.
  - destruct (jobs s) as [|j js]; [done|].
    unfold load in Hn. simpl in Hn. destruct j; simpl in Hn; lia.
  - destruct (jobs s) as [|j js] eqn:Hj; [done|].
    assert (typed (set_jobs js s)) as Ht0 by by eapply (typed_ext s).
    apply IH.
    + by apply (run_job_sound rejecting j (set_jobs js s)).
    + pose proof (run_job_load j (set_jobs js s) Ht0) as Hl.
      unfold load in Hn, Hl. simpl in Hn, Hl. unfold load. lia.
Qed.

Lemma load_le js : (load js ≤ 2 * length js)%nat.
Proof.
  induction js as [|j js IH]; [done|]. unfold load in *. simpl.
  destruct j; simpl; lia.
Qed.

(** The microtask checkpoint empties the queue. *)
Lemma drain_empties s : typed s → jobs (drain s) = [].
Proof. intros Ht. apply drain_n_empties; [done | apply load_le]. Qed.

#[local] Hint Resolve drain_sound : sound.

(** The callbacks of sockets and timers. *)

Lemma onopen_sound R k s : sound R s (onopen k s).
Proof.
  unfold onopen. destruct (callbacks_of k s) as [[c t| |]|] eqn:Hk; cbv zeta;
    try same.
  - peel; [peel; [chain|] | auto with sound].
    apply set_callbacks_sound. unfold callbacks_of, clearTimeout in *.
    destruct (timers s !! t); simpl; by rewrite Hk.
  - chain.
Qed.

Lemma onmessage_sound k m s : sound (msg_perm m) s (onmessage k (Some m) s).
Proof.
  unfold onmessage.
  destruct (callbacks_of k s) as [[]|]; try same; apply _handleMessage_sound.
Qed.

Lemma onmessage_malformed k s : onmessage k None s = s.
Proof. unfold onmessage. by destruct (callbacks_of k s) as [[]|]. Qed.

Lemma onclose_sound R k s : may_lobby R = true → sound R s (onclose k s).
Proof.
  intros HR.
  unfold onclose. destruct (callbacks_of k s) as [[]|]; cbv zeta;
    try same; chain.
Qed.

Lemma onerror_sound R k s : may_reject R = true → sound R s (onerror k s).
Proof.
  intros HR.
  unfold onerror. destruct (callbacks_of k s) as [[]|]; try same.
  - chain.
  - apply emit_sound; [done | by split_and!].
  - apply emit_sound; [done | by split_and!].
Qed.

Lemma timeout_sound R t s : may_resolve R TList = true → sound R s (timeout t s).
Proof.
  intros HR Ht.
  unfold timeout. destruct (timers s !! t) as [tm|] eqn:Htm; [|by apply sound_refl].
  simpl. destruct (t_kind tm) as [k c|c] eqn:Hkind.
  - assert (sound R s (enqueue (JOpenFailed c TimedOut) (ws_close k s))) as H
      by chain. by apply H.
  - apply unlist_sound; [done | | done]. by eapply (typed_timers s Ht t).
Qed.

(** The platform init hook. *)

Lemma kind_tag_chain c c' r s : kind_tag c' (chain c r s) = kind_tag c' s.
Proof.
  unfold kind_tag, chain. simpl.
  destruct (decide (c' = c)) as [->|Hne].
  - rewrite list_lookup_alter_eq. by destruct (calls s !! c).
  - by rewrite list_lookup_alter_ne.
Qed.

Lemma chain_typed c r s : typed s → typed (chain c r s).
Proof.
  intros [T1 T2 T3 T4 T5 T6]. split; try done.
  - intros ev h Hin. specialize (T1 ev h Hin).
    destruct h; simpl in *; rewrite ?kind_tag_chain; done.
  - intros t tm c'. rewrite kind_tag_chain. apply T2.
  - intros c' cl'. simpl. destruct (decide (c' = c)) as [->|Hne].
    + rewrite list_lookup_alter_eq. destruct (calls s !! c) as [cl|] eqn:Hcl; [|done].
      simpl. intros [= <-]. simpl. by apply T3.
    + rewrite list_lookup_alter_ne by done. apply T3.
  - intros c' cl'. simpl. destruct (decide (c' = c)) as [->|Hne].
    + rewrite list_lookup_alter_eq. destruct (calls s !! c) as [cl|] eqn:Hcl; [|done].
      simpl. intros [= <-]. simpl. by apply (T6 c cl).
    + rewrite list_lookup_alter_ne by done. apply T6.
Qed.

(** Chaining a reaction on a promise that was made after [s]. *)
Lemma chain_after_sound R c r s s1 :
  sound R s s1 → (length (calls s) ≤ c)%nat → sound R s (chain c r s1).
Proof.
  intros Hs Hc Ht. destruct (Hs Ht) as [Ht1 [T S C P L X J]].
  split; [by apply chain_typed|].
  assert (Hlk : ∀ c' cl, calls s !! c' = Some cl →
                         calls (chain c r s1) !! c' = calls s1 !! c').
  { intros c' cl Hcl. simpl. apply list_lookup_alter_ne.
    apply lookup_lt_Some in Hcl. lia. }
  split; try done.
  - intros c' cl Hcl. rewrite (Hlk _ _ Hcl). by apply C.
  - intros c' cl serverUrl roomId username Hcl Hp Hth (cl' & e & r1 & u1 & Hcl' & Hd).
    rewrite (Hlk _ _ Hcl) in Hcl'.
    destruct (X c' cl serverUrl roomId username) as [?|?]; try done; [|by left|by right].
    by exists cl', e, r1, u1.
Qed.

Lemma createLobby_promise o s : (createLobby o s).1 = length (calls s).
Proof.
  unfold createLobby. simpl. by rewrite (proj2 (proj2 (proj2 (assign_playerId_fields s)))).
Qed.

Lemma joinLobby_promise o s : (joinLobby o s).1 = length (calls s).
Proof.
  unfold joinLobby. simpl. by rewrite (proj2 (proj2 (proj2 (assign_playerId_fields s)))).
Qed.

Lemma _init_sound R serverUrl roomId username gameId lobbyCtx s :
  sound R s (_init serverUrl roomId username gameId lobbyCtx s).
Proof.
  unfold _init. cbv zeta.
  set (s0 := set_username _ (set_gameId _ s)).
  assert (sound R s s0) as H0 by (unfold s0; chain).
  assert (length (calls s) = length (calls s0)) as Hlen by done.
  eapply sound_trans; [exact H0|].
  pose proof (legacy_sound R (default "" serverUrl) roomId username s0) as Hlegacy.
  destruct (negb (truthy serverUrl)); [auto with sound|].
  destruct lobbyCtx as [[lobbyName maxPlayers|joinLobbyId]|]; [| |done].
  - destruct (createLobby _ s0) as [c s1] eqn:Hc.
    apply chain_after_sound.
    + replace s1 with (createLobby (mkCreate (default "" serverUrl) (_gameId s0) None
                          (Some (or_str lobbyName "My Lobby"))
                          (Some (or_num maxPlayers 8)) username) s0).2 by by rewrite Hc.
      apply createLobby_sound.
    + replace c with (createLobby (mkCreate (default "" serverUrl) (_gameId s0) None
                          (Some (or_str lobbyName "My Lobby"))
                          (Some (or_num maxPlayers 8)) username) s0).1 by by rewrite Hc.
      by rewrite createLobby_promise.
  - destruct (truthy (Some joinLobbyId)); [|done].
    destruct (joinLobby _ s0) as [c s1] eqn:Hc.
    apply chain_after_sound.
    + replace s1 with (joinLobby (mkJoin (default "" serverUrl) (_gameId s0)
                          (Some joinLobbyId) username) s0).2 by by rewrite Hc.
      apply joinLobby_sound.
    + replace c with (joinLobby (mkJoin (default "" serverUrl) (_gameId s0)
                          (Some joinLobbyId) username) s0).1 by by rewrite Hc.
      by rewrite joinLobby_promise.
Qed.

Lemma api_call_sound a s : sound (api_perm a) s (api_call a s).
Proof.
  destruct a; unfold api_call, api_perm.
  - apply connect_sound.
  - by apply disconnect_sound.
  - apply _send_sound.
  - apply _send_sound.
  - by apply on_sound.
  - apply off_sound. by intros.
  - apply createLobby_sound.
  - apply joinLobby_sound.
  - by apply leaveLobby_sound.
  - apply listLobbies_sound.
  - apply _send_sound.
  - apply _send_sound.
  - by apply getLobbyInfo_sound.
  - apply _init_sound.
Qed.

Lemma perm_le_refl R : perm_le R R.
Proof. by split_and!. Qed.

Lemma perm_le_or_reject R : perm_le R (or_reject R).
Proof. by split_and!. Qed.

(** ** Every task is sound *)

Lemma step_sound e s : sound (event_perm e) s (step e s).
Proof.
  destruct e as [a| |l v|dt|k|k [m|]|k|k|t]; simpl.
  - apply api_call_sound.
  - by apply drain_sound.
  - case_bool_decide; [by apply insert_heap_sound | same].
  - apply set_now_sound.
  - eapply sound_trans; [by apply drain_sound|].
    destruct (readyState_of k (drain s)) as [[]|]; try same.
    peel; [peel; [auto with sound | apply onopen_sound] | by apply drain_sound].
  - eapply sound_trans; [by apply drain_sound|].
    destruct (readyState_of k (drain s)) as [[]|]; try same.
    peel; [|by apply drain_sound].
    eapply sound_weaken; [apply perm_le_or_reject | apply onmessage_sound].
  - eapply sound_trans; [by apply drain_sound|].
    destruct (readyState_of k (drain s)) as [[]|]; try same.
    all: rewrite onmessage_malformed; by apply drain_sound.
  - eapply sound_trans; [by apply drain_sound|].
    destruct (readyState_of k (drain s)) as [[]|]; try same.
    all: peel; [peel; [peel; [peel; [auto with sound|] |] |] |];
      [by apply onerror_sound | by apply drain_sound
      | by apply onclose_sound | by apply drain_sound].
  - eapply sound_trans; [by apply drain_sound|].
    destruct (readyState_of k (drain s)) as [[]|]; try same.
    all: peel; [peel; [auto with sound|] |];
      [by apply onclose_sound | by apply drain_sound].
  - eapply sound_trans; [by apply drain_sound|].
    destruct (timer_due t (drain s)); [|same].
    peel; [peel; [auto with sound|] |]; [by apply timeout_sound | by apply drain_sound].
Qed.

Lemma boot_typed refused rnd : typed (boot refused rnd).
Proof. split; try done; intros *; set_solver. Qed.

Lemma init_typed rnd : typed (init rnd).
Proof. apply boot_typed. Qed.

Lemma reachable_init rnd : reachable (init rnd).
Proof. apply reachable_boot. Qed.

(** The invariant holds in every state the engine can be in. *)
Lemma reachable_typed s : reachable s → typed s.
Proof.
  induction 1 as [refused rnd|s e _ IH]; [apply boot_typed | by apply step_sound].
Qed.


Lemma drain_after R s s' : sound R s s' → typed s → jobs (drain s') = [].
Proof. intros Hs Ht. apply drain_empties. by apply Hs. Qed.

(** A task of the host leaves no microtask behind. *)
Lemma step_jobs e s :
  typed s →
  match e with
  | Call _ | Mutate _ _ | Elapse _ => True
  | _ => jobs (step e s) = []
  end.
Proof.
  intros Ht. pose proof (drain_sound rejecting s eq_refl Ht) as [Ht0 _].
  pose proof (drain_empties s Ht) as H0.
  destruct e as [a| |l v|dt|k|k [m|]|k|k|t]; simpl; try done.
  - destruct (readyState_of k (drain s)) as [[]|]; try done.
    apply (drain_after rejecting (drain s)); [|done].
    peel; [auto with sound | apply onopen_sound].
  - destruct (readyState_of k (drain s)) as [[]|]; try done.
    apply (drain_after _ (drain s) _ (onmessage_sound k m (drain s)) Ht0).
  - destruct (readyState_of k (drain s)) as [[]|]; try done.
    by rewrite onmessage_malformed, (drain_empties _ Ht0).
  - destruct (readyState_of k (drain s)) as [[]|]; try done.
    all: apply (drain_after free (drain s)); [|done].
    all: peel; [peel; [peel; [auto with sound|] |] |];
      [by apply onerror_sound | by apply drain_sound | by apply onclose_sound].
  - destruct (readyState_of k (drain s)) as [[]|]; try done.
    all: apply (drain_after free (drain s)); [|done].
    all: peel; [auto with sound | by apply onclose_sound].
  - destruct (timer_due t (drain s)); [|done].
    apply (drain_after free (drain s)); [|done].
    peel; [auto with sound | by apply timeout_sound].
Qed.

(** ** Runs *)

Lemma perm_le_free R : perm_le R free.
Proof. by split_and!. Qed.

Lemma run_snoc es e s : run (es ++ [e]) s = step e (run es s).
Proof. unfold run. by rewrite foldl_app. Qed.

Lemma run_cons e es s : run (e :: es) s = run es (step e s).
Proof. done. Qed.

Lemma run_sound es s : sound free s (run es s).
Proof.
  revert s. induction es as [|e es IH]; intros s; [apply sound_refl|].
  rewrite run_cons. eapply sound_trans; [|apply IH].
  eapply sound_weaken; [apply perm_le_free | apply step_sound].
Qed.

Lemma reachable_run es s : reachable s → reachable (run es s).
Proof.
  revert s. induction es as [|e es IH]; intros s Hs; [done|].
  rewrite run_cons. apply IH. by constructor.
Qed.

(** ** The platform init hook falls back to the legacy room *)

(** A promise that a task rejects has its chained fallback run before the
    task ends. *)
Lemma rejected_in_step_falls_back s e c cl serverUrl roomId username err :
  typed s → calls s !! c = Some cl → is_pending (c_phase cl) = true →
  c_then cl = Some (InitFallback serverUrl roomId username) →
  refused s serverUrl = false →
  phase_of c (step e s) = Some (Rejected err) →
  fallback_logged serverUrl s (step e s).
Proof.
  intros Ht Hcl Hpen Hth Hre Hrej.
  destruct (step_sound e s Ht) as [Ht' He].
  destruct (ev_calls _ _ _ He _ _ Hcl) as (cl' & Hcl' & Hk & Hth' & _ & _ & _ & Hrj).
  unfold phase_of in Hrej. rewrite Hcl' in Hrej. injection Hrej as Hrej.
  assert (fallback_due c serverUrl (step e s)) as Hdue.
  { exists cl', err, roomId, username.
    split_and!; [done | done | congruence | by rewrite (ev_refused _ _ _ He)]. }
  destruct (ev_settled _ _ _ He c cl serverUrl roomId username Hcl Hpen Hth Hdue)
    as [Hj|Hlog]; [|done].
  pose proof (step_jobs e s Ht) as Hjobs.
  destruct (Hrj err Hrej) as [Hcontra|Hperm]; [by rewrite Hcontra in Hpen|].
  destruct e as [a| |l v|dt|k|k [m|]|k|k|t]; simpl in Hperm;
    try (by destruct a); try done; rewrite Hjobs in Hj; by apply elem_of_nil in Hj.
Qed.

Lemma set_trace_fields tr s :
  _roomId (set_trace tr s) = _roomId s ∧ _ws (set_trace tr s) = _ws s ∧
  sockets (set_trace tr s) = sockets s ∧ trace (set_trace tr s) = tr.
Proof. done. Qed.

(** What the chained reaction does where the promise is rejected. *)
Lemma react_rejected c cl serverUrl roomId username err s :
  typed s → calls s !! c = Some cl → c_phase cl = Rejected err →
  c_then cl = Some (InitFallback serverUrl roomId username) →
  refused s serverUrl = false →
  _roomId (react c s) = roomId ∧ _ws (react c s) = Some (length (sockets s)) ∧
  sockets (react c s) !! length (sockets s) = Some (mkSocket serverUrl CONNECTING Legacy) ∧
  trace (react c s) =
    trace s ++ fallback_trace (fallback_warning (c_kind cl)) (length (sockets s)) serverUrl
            ++ flat_map (invocation (PReady true)) (handlers_of "ready" s).
Proof.
  intros Ht Hcl Hph Hth Hre. unfold react. rewrite Hcl, Hth, Hph. cbv zeta.
  set (s1 := log (TConsoleWarn (fallback_warning (c_kind cl))) s).
  assert (typed (connect serverUrl roomId username s1).2) as Ht1.
  { eapply (sound_trans strict); [apply log_sound | apply connect_sound | done]. }
  destruct (connect_fields serverUrl roomId username s1 Hre)
    as (Htr & Hso & Hws & Hroom & _ & _ & Hh).
  rewrite (connect_accepted serverUrl roomId username s1 Hre).
  rewrite emit_plain by (done || plain).
  destruct (set_trace_fields
              (trace (connect serverUrl roomId username s1).2
                 ++ TEmit "ready" (PReady true)
                    :: flat_map (invocation (PReady true))
                         (handlers_of "ready" (connect serverUrl roomId username s1).2))
              (connect serverUrl roomId username s1).2) as (E1 & E2 & E3 & E4).
  rewrite E1, E2, E3, E4, Hroom, Hws, Hso, Htr.
  split_and!; try done.
  - by apply list_lookup_middle.
  - unfold handlers_of. rewrite Hh. simpl. by rewrite <- !app_assoc.
Qed.

(** The same on a host that refuses the URL: the warning, and nothing
    after it. *)
Lemma react_refused c cl serverUrl roomId username err s :
  calls s !! c = Some cl → c_phase cl = Rejected err →
  c_then cl = Some (InitFallback serverUrl roomId username) →
  refused s serverUrl = true →
  _roomId (react c s) = roomId ∧ _ws (react c s) = _ws s ∧
  sockets (react c s) = sockets s ∧
  trace (react c s) = trace s ++ [TConsoleWarn (fallback_warning (c_kind cl))].
Proof.
  intros Hcl Hph Hth Hre. unfold react. rewrite Hcl, Hth, Hph. cbv zeta.
  set (s1 := log (TConsoleWarn (fallback_warning (c_kind cl))) s).
  rewrite (connect_refused serverUrl roomId username s1 Hre).
  destruct (assign_playerId_fields s1) as (Ht & Hs & _).
  simpl. rewrite Ht, Hs. split_and!; try done.
  unfold assign_playerId. by case_match.
Qed.

Lemma _openWS_calls serverUrl c s : calls (_openWS serverUrl c s) = calls s.
Proof.
  unfold _openWS, new_socket, ws_close.
  repeat case_match; simplify_eq; simpl; try done.
Qed.

Lemma createLobby_calls o s :
  calls (createLobby o s).2 =
  calls s ++ [mkCall (CreateCall (co_gameId o) (co_lobbyId o)
                                 (default "My Lobby" (co_lobbyName o))
                                 (default 8%Z (co_maxPlayers o))) AwaitOpen None].
Proof.
  unfold createLobby. cbv zeta. simpl. rewrite _openWS_calls. simpl.
  by rewrite (proj2 (proj2 (proj2 (assign_playerId_fields s)))).
Qed.

Lemma joinLobby_calls o s :
  calls (joinLobby o s).2 =
  calls s ++ [mkCall (JoinCall (jo_gameId o) (jo_lobbyId o)) AwaitOpen None].
Proof.
  unfold joinLobby. cbv zeta. simpl. rewrite _openWS_calls. simpl.
  by rewrite (proj2 (proj2 (proj2 (assign_playerId_fields s)))).
Qed.

Lemma chain_lookup c r s cl :
  calls s !! c = Some cl →
  calls (chain c r s) !! c = Some (mkCall (c_kind cl) (c_phase cl) (Some r)).
Proof. intros Hcl. simpl. by rewrite list_lookup_alter_eq, Hcl. Qed.

(** [_init] with a server and a lobby context chains its [catch] on the
    promise it gets. *)
Lemma _init_chains serverUrl roomId username gameId lobbyCtx s :
  truthy (Some serverUrl) = true → asks_for_lobby lobbyCtx = true →
  ∃ cl, calls (_init (Some serverUrl) roomId username gameId (Some lobbyCtx) s)
          !! length (calls s) = Some cl ∧
        c_phase cl = AwaitOpen ∧
        c_then cl = Some (InitFallback serverUrl roomId username).
Proof.
  intros Hurl Hctx. unfold _init. cbv zeta. rewrite Hurl.
  change (negb true) with false. cbv iota.
  set (s0 := set_username _ (set_gameId _ s)).
  change (length (calls s)) with (length (calls s0)).
  destruct lobbyCtx as [lobbyName maxPlayers|joinLobbyId]; unfold asks_for_lobby in Hctx.
  - destruct (createLobby _ s0) as [c s1] eqn:Hc.
    pose proof (createLobby_promise
                  (mkCreate serverUrl (_gameId s0) None
                     (Some (or_str lobbyName "My Lobby"))
                     (Some (or_num maxPlayers 8)) username) s0) as Hp.
    pose proof (createLobby_calls
                  (mkCreate serverUrl (_gameId s0) None
                     (Some (or_str lobbyName "My Lobby"))
                     (Some (or_num maxPlayers 8)) username) s0) as Hcs.
    simpl default in Hc. rewrite Hc in Hp, Hcs. simpl in Hp, Hcs. subst c.
    change (length (calls s0)) with (length (calls s)).
    eexists. split.
    { apply chain_lookup. rewrite Hcs. by apply list_lookup_middle. }
    done.
  - rewrite Hctx.
    destruct (joinLobby _ s0) as [c s1] eqn:Hc.
    pose proof (joinLobby_promise
                  (mkJoin serverUrl (_gameId s0) (Some joinLobbyId) username) s0) as Hp.
    pose proof (joinLobby_calls
                  (mkJoin serverUrl (_gameId s0) (Some joinLobbyId) username) s0) as Hcs.
    simpl default in Hc. rewrite Hc in Hp, Hcs. simpl in Hp, Hcs. subst c.
    change (length (calls s0)) with (length (calls s)).
    eexists. split.
    { apply chain_lookup. rewrite Hcs. by apply list_lookup_middle. }
    done.
Qed.

(** C6, at the failing input.  The host refuses the URL.  The lobby
    promise is rejected with the exception of the constructor; its [catch]
    logs the warning and calls [connect], which throws the same exception:
    no socket is made, and [ready] is not published. *)
Theorem refused_url_breaks_the_fallback :
  let s := run refused_url (boot ws_only (λ _, "k3x9q0a")) in
  phase_of 0 s = Some (Rejected SyntaxError) ∧ jobs s = [] ∧
  sockets s = [] ∧ _ws s = None ∧ _roomId s = Some "room_g1_multi" ∧
  trace s = [TConsoleWarn "[Lorl] createLobby failed, falling back to legacy room:"].
Proof. vm_compute. done. Qed.

(** X25.  On a host that does not refuse the URL, for every call of the
    platform init hook with a server and a lobby to create or to join: the
    [catch] chained on the promise carries the server, the room id and the
    username of that call; in the task that rejects the promise, the
    engine warns, makes the socket of a legacy [connect] to the same server
    and then publishes [ready] with [multiplayer: true]; and that [connect]
    is the one of the [catch], which assigns the room id of the init call
    to [_roomId] and the new socket to [_ws].  On a host that refuses the
    URL the [catch] ends with the warning. *)
Theorem init_rejection_falls_back_to_legacy_room
    (s : state) (serverUrl : string) (roomId username gameId : option string)
    (lobbyCtx : lobby_ctx) (es : list event) (e : event) (p : phase) (err : err) :
  reachable s → refused s serverUrl = false →
  truthy (Some serverUrl) = true → asks_for_lobby lobbyCtx = true →
  let c := length (calls s) in
  let s1 := run es (step (Call (Init (Some serverUrl) roomId username gameId
                                     (Some lobbyCtx))) s) in
  phase_of c s1 = Some p → is_pending p = true →
  phase_of c (step e s1) = Some (Rejected err) →
  c_then <$> calls s1 !! c = Some (Some (InitFallback serverUrl roomId username)) ∧
  fallback_logged serverUrl s1 (step e s1) ∧
  (∀ s2 cl2 err2,
    typed s2 → calls s2 !! c = Some cl2 → c_phase cl2 = Rejected err2 →
    c_then cl2 = Some (InitFallback serverUrl roomId username) →
    refused s2 serverUrl = false →
    _roomId (react c s2) = roomId ∧ _ws (react c s2) = Some (length (sockets s2)) ∧
    sockets (react c s2) !! length (sockets s2) =
      Some (mkSocket serverUrl CONNECTING Legacy) ∧
    trace (react c s2) =
      trace s2 ++ fallback_trace (fallback_warning (c_kind cl2))
                    (length (sockets s2)) serverUrl
               ++ flat_map (invocation (PReady true)) (handlers_of "ready" s2)) ∧
  (∀ s2 cl2 err2,
    calls s2 !! c = Some cl2 → c_phase cl2 = Rejected err2 →
    c_then cl2 = Some (InitFallback serverUrl roomId username) →
    refused s2 serverUrl = true →
    _roomId (react c s2) = roomId ∧ _ws (react c s2) = _ws s2 ∧
    sockets (react c s2) = sockets s2 ∧
    trace (react c s2) = trace s2 ++ [TConsoleWarn (fallback_warning (c_kind cl2))]).
Proof.
  intros Hs Hre Hurl Hctx c s1 Hp Hpen Hrej.
  set (s0 := step (Call (Init (Some serverUrl) roomId username gameId
                               (Some lobbyCtx))) s) in *.
  assert (reachable s0) as Hs0 by by constructor.
  pose proof (reachable_typed _ Hs0) as Ht0.
  destruct (_init_chains serverUrl roomId username gameId lobbyCtx s Hurl Hctx)
    as (cl0 & Hcl0 & _ & Hth0).
  destruct (run_sound es s0 Ht0) as [Ht1 He1]. fold s1 in Ht1, He1.
  destruct (ev_calls _ _ _ He1 _ _ Hcl0) as (cl1 & Hcl1 & _ & Hth1 & _).
  fold c in Hcl1.
  assert (refused s1 serverUrl = false) as Hre1.
  { rewrite (ev_refused _ _ _ He1).
    destruct (step_sound (Call (Init (Some serverUrl) roomId username gameId
                                     (Some lobbyCtx))) s (reachable_typed _ Hs))
      as [_ He0].
    fold s0 in He0. by rewrite (ev_refused _ _ _ He0). }
  split_and!.
  - rewrite Hcl1. simpl. by rewrite Hth1, Hth0.
  - apply (rejected_in_step_falls_back s1 e c cl1 serverUrl roomId username err);
      try done; [|congruence].
    unfold phase_of in Hp. rewrite Hcl1 in Hp. by simplify_eq/=.
  - intros s2 cl2 err2. apply react_rejected.
  - intros s2 cl2 err2. apply react_refused.
Qed.

Lemma init_rejection_falls_back_to_legacy_room_witness :
  fallback_logged "wss://host"
    (run [SockOpen 0]
       (step (Call (Init (Some "wss://host") (Some "room_g1_multi") (Some "Ann")
                         (Some "g1") (Some (ctx_createLobby (Some "Arena") (Some 4%Z)))))
             (init (λ _, "k3x9q0a"))))
    (step (SockMessage 0 (Some (error_msg (Some "lobby limit reached"))))
       (run [SockOpen 0]
          (step (Call (Init (Some "wss://host") (Some "room_g1_multi") (Some "Ann")
                            (Some "g1")
                            (Some (ctx_createLobby (Some "Arena") (Some 4%Z)))))
                (init (λ _, "k3x9q0a"))))).
Proof.
  refine (proj1 (proj2 (init_rejection_falls_back_to_legacy_room
            (init (λ _, "k3x9q0a")) "wss://host" (Some "room_g1_multi") (Some "Ann")
            (Some "g1") (ctx_createLobby (Some "Arena") (Some 4%Z)) [SockOpen 0]
            (SockMessage 0 (Some (error_msg (Some "lobby limit reached"))))
            Handshake (ServerError (Some "lobby limit reached"))
            (reachable_init _) eq_refl eq_refl eq_refl _ eq_refl _))).
  - vm_compute. reflexivity.
  - vm_compute. reflexivity.
Defined.

(** ** Listing lobbies *)

Lemma phase_of_settle c p s cl :
  calls s !! c = Some cl → is_pending (c_phase cl) = true →
  phase_of c (settle c p s) = Some p.
Proof.
  intros Hcl Hpen. unfold phase_of, settle. rewrite Hcl, Hpen.
  destruct (c_then cl); simpl; by rewrite list_lookup_alter_eq, Hcl.
Qed.

Lemma phase_of_settle_ne c c' p s : c' ≠ c → phase_of c (settle c' p s) = phase_of c s.
Proof.
  intros Hne. unfold phase_of, settle. destruct (calls s !! c') as [cl|]; [|done].
  destruct (is_pending (c_phase cl)); [|done].
  destruct (c_then cl); simpl; by rewrite list_lookup_alter_ne.
Qed.

Lemma phase_of_settle_settled c c' p q s :
  phase_of c s = Some q → is_pending q = false → phase_of c (settle c' p s) = Some q.
Proof.
  intros Hq Hpen. destruct (decide (c' = c)) as [->|Hne].
  - unfold phase_of, settle in *. destruct (calls s !! c) as [cl|] eqn:Hcl; [|done].
    simpl in Hq. injection Hq as Hq. rewrite Hq, Hpen, Hcl. simpl. by rewrite Hq.
  - by rewrite phase_of_settle_ne.
Qed.

Lemma phase_of_off c event h s : phase_of c (off event h s) = phase_of c s.
Proof. unfold phase_of. by rewrite (proj1 (off_fields event h s)). Qed.

Lemma settled_stays R s s' c p :
  evolves R s s' → phase_of c s = Some p → is_pending p = false →
  phase_of c s' = Some p.
Proof.
  intros He Hp Hpen. unfold phase_of in *.
  destruct (calls s !! c) as [cl|] eqn:Hcl; [|done]. simpl in Hp. injection Hp as <-.
  destruct (ev_calls _ _ _ He _ _ Hcl) as (cl' & -> & _ & _ & Hs & _).
  simpl. by rewrite Hs.
Qed.

(** Publishing [lobbyList] resolves every listing that waits, with the
    list that is published. *)
Lemma forEach_resolves_listing c l hs s :
  (∀ h, h ∈ hs → (∃ f, h = User f) ∨ (∃ c', h = onList c')) →
  phase_of c s = Some (Resolved (VList l)) ∨
  (phase_of c s = Some Handshake ∧ onList c ∈ hs) →
  phase_of c (forEach (λ fn, try_catch (call_fn fn (PLobbyList l)) console_error) hs s).2
  = Some (Resolved (VList l)).
Proof.
  revert s. induction hs as [|h hs IH]; intros s Hhs Hc.
  - destruct Hc as [?|[_ Hin]]; [done | by apply elem_of_nil in Hin].
  - rewrite forEach_cons. apply IH; [intros h' ?; apply Hhs; by right|].
    destruct (Hhs h) as [[f ->]|[c' ->]]; [by left| |].
    + (* a function of the game: only the log changes *)
      assert (phase_of c (try_catch (call_fn (User f) (PLobbyList l)) console_error s).2
              = phase_of c s) as ->.
      { unfold try_catch. simpl. by destruct (fn_body f (PLobbyList l)). }
      destruct Hc as [?|[? Hin]]; [by left | right]. split; [done|].
      by apply elem_of_cons in Hin as [?|?].
    + unfold try_catch. simpl. unfold resolve.
      destruct Hc as [Hres|[Hhs' Hin]].
      * left. apply phase_of_settle_settled; [|done]. by rewrite phase_of_off.
      * destruct (decide (c' = c)) as [->|Hne].
        -- left. unfold phase_of in Hhs'.
           destruct (calls s !! c) as [cl|] eqn:Hcl; [|done]. simpl in Hhs'.
           injection Hhs' as Hph.
           apply (phase_of_settle _ _ _ cl); [|by rewrite Hph].
           by rewrite (proj1 (off_fields _ _ _)).
        -- right. rewrite phase_of_settle_ne, phase_of_off by done. split; [done|].
           apply elem_of_cons in Hin as [[= ?]|?]; done.
Qed.

Lemma emit_lobbyList_resolves c cl l s :
  typed s → calls s !! c = Some cl → tag_of (c_kind cl) = TList →
  c_phase cl = Handshake →
  phase_of c (emit_ "lobbyList" (PLobbyList l) s) = Some (Resolved (VList l)).
Proof.
  intros Ht Hcl Htag Hph. unfold emit_, emit. apply forEach_resolves_listing.
  - intros h Hin. apply (typed_handlers s Ht) in Hin.
    destruct h; simpl in Hin; try (by destruct Hin); eauto.
  - right. split; [by unfold phase_of, log; simpl; rewrite Hcl; simpl; rewrite Hph|].
    by apply (typed_listing s Ht c cl).
Qed.

Lemma listLobbies_resume_timer c gameId s :
  timers (listLobbies_resume c gameId s) =
  timers s ++ [mkTimer (ListTimeout c) (now s + 5000) true].
Proof. unfold listLobbies_resume, _send. cbv zeta. by case_match. Qed.

Lemma listLobbies_rejects_without_connection :
  phase_of 0 (run listing_without_server (init (λ _, "k3x9q0a")))
  = Some (Rejected TransportError).
Proof. vm_compute. reflexivity. Qed.

(** C4, as the code has it.  Once its connection is open and its request
    is sent, a [listLobbies] promise never rejects: in every later state it
    is pending or resolved with a list.  It resolves with the empty list
    when its timer, set to 5000 ms after the request, fires while it is
    pending, and the timer does nothing before that time has passed; it
    resolves with the [lobbies] of a [lobby_list] message dispatched while
    it is pending, the empty list when the message has none. *)
Theorem listLobbies_resolves_once_connected (s : state) (c : nat) :
  reachable s →
  kind_tag c s = Some TList →
  (phase_of c s = Some Handshake →
   ∀ es, phase_of c (run es s) = Some Handshake ∨
         ∃ l, phase_of c (run es s) = Some (Resolved (VList l))) ∧
  (∀ gameId,
     timers (listLobbies_resume c gameId s) =
     timers s ++ [mkTimer (ListTimeout c) (now s + 5000) true]) ∧
  (∀ t tm, timers (drain s) !! t = Some tm → (now (drain s) < t_deadline tm)%N →
           step (TimerFire t) s = drain s) ∧
  (∀ t d, timers (drain s) !! t = Some (mkTimer (ListTimeout c) d true) →
          (d ≤ now (drain s))%N → phase_of c (drain s) = Some Handshake →
          phase_of c (step (TimerFire t) s) = Some (Resolved (VList []))) ∧
  (∀ k r lobbies,
     readyState_of k (drain s) = Some OPEN → callbacks_of k (drain s) = Some r →
     r = Managed ∨ r = Legacy → phase_of c (drain s) = Some Handshake →
     phase_of c (step (SockMessage k (Some (lobby_list lobbies))) s)
     = Some (Resolved (VList (default [] lobbies)))).
Proof.
  intros Hs Hk. pose proof (reachable_typed _ Hs) as Ht.
  destruct (drain_sound rejecting s eq_refl Ht) as [Ht0 He0].
  pose proof (kind_tag_evolves _ _ _ _ _ He0 Hk) as Hk0.
  split_and!.
  - intros Hph es. destruct (run_sound es s Ht) as [_ He].
    unfold phase_of, kind_tag in *. destruct (calls s !! c) as [cl|] eqn:Hcl; [|done].
    simpl in *. injection Hk as Hk. injection Hph as Hph.
    destruct (ev_calls _ _ _ He _ _ Hcl) as (cl' & -> & _ & _ & _ & Hl & _).
    simpl. destruct (Hl Hk Hph) as [->|[l ->]]; eauto.
  - intros gameId. apply listLobbies_resume_timer.
  - intros t tm Htm Hnow. simpl. unfold timer_due. rewrite Htm.
    rewrite (bool_decide_eq_false_2 (t_deadline tm ≤ now (drain s))%N) by lia.
    by rewrite andb_false_r.
  - intros t d Htm Hd Hph. simpl. unfold timer_due. rewrite Htm. simpl.
    rewrite bool_decide_eq_true_2 by done.
    set (s1 := clearTimeout t (drain s)).
    assert (typed s1) as Ht1 by (by apply (clearTimeout_sound strict)).
    assert (calls s1 = calls (drain s) ∧ t_kind <$> timers s1 !! t = Some (ListTimeout c))
      as [Hc1 Ht1'].
    { unfold s1, clearTimeout. rewrite Htm. simpl. split; [done|].
      rewrite list_lookup_insert_eq by (by eapply lookup_lt_Some). done. }
    destruct (timeout_sound free t s1 eq_refl Ht1) as [Ht2 _].
    apply (settled_stays rejecting (timeout t s1)); [by apply drain_sound | | done].
    unfold timeout. rewrite Ht1'. unfold resolve, phase_of in *.
    destruct (calls (drain s) !! c) as [cl|] eqn:Hcl; [|done]. simpl in Hph.
    injection Hph as Hph.
    apply (phase_of_settle _ _ _ cl); [|by rewrite Hph].
    by rewrite (proj1 (off_fields _ _ _)), Hc1.
  - intros k r lobbies Hrs Hcb Hr Hph. simpl. rewrite Hrs.
    assert (onmessage k (Some (lobby_list lobbies)) (drain s) =
            emit_ "lobbyList" (PLobbyList (default [] lobbies)) (drain s)) as Hom.
    { unfold onmessage. rewrite Hcb. by destruct Hr as [-> | ->]. }
    rewrite Hom.
    assert (typed (emit_ "lobbyList" (PLobbyList (default [] lobbies)) (drain s))) as Ht1.
    { apply (emit_sound free); [|done|done]. intros _. eauto. }
    apply (settled_stays rejecting
             (emit_ "lobbyList" (PLobbyList (default [] lobbies)) (drain s)));
      [by apply drain_sound | | done].
    unfold phase_of, kind_tag in Hph, Hk0.
    destruct (calls (drain s) !! c) as [cl|] eqn:Hcl; [|done]. simpl in *.
    injection Hph as Hph. injection Hk0 as Hk0.
    by apply (emit_lobbyList_resolves c cl).
Qed.

Lemma listLobbies_resolves_once_connected_witness :
  phase_of 0 (step (SockMessage 0 (Some (lobby_list (Some [JStr "PUBLIC_Arena"]))))
                   (run listing_started (init (λ _, "k3x9q0a"))))
  = Some (Resolved (VList [JStr "PUBLIC_Arena"])) ∧
  phase_of 0 (step (TimerFire 1)
                   (run (listing_started ++ [Elapse 5000])
                        (init (λ _, "k3x9q0a"))))
  = Some (Resolved (VList [])).
Proof.
  split.
  - refine (proj2 (proj2 (proj2 (proj2 (listLobbies_resolves_once_connected
              (run listing_started (init (λ _, "k3x9q0a"))) 0
              (reachable_run _ _ (reachable_init _)) eq_refl))))
              0 Managed (Some [JStr "PUBLIC_Arena"]) eq_refl eq_refl (or_introl eq_refl)
              eq_refl).
  - refine (proj1 (proj2 (proj2 (proj2 (listLobbies_resolves_once_connected
              (run (listing_started ++ [Elapse 5000]) (init (λ _, "k3x9q0a"))) 0
              (reachable_run _ _ (reachable_init _)) eq_refl))))
              1 5000%N eq_refl _ eq_refl).
    vm_compute. discriminate.
Defined.

(** ** Who hosts the lobby *)

Lemma host_inv_frame s s' :
  _lobbyInfo s' = _lobbyInfo s → heap s' = heap s → _isHost s' = _isHost s →
  _playerId s' = _playerId s → host_inv s → host_inv s'.
Proof.
  intros Hl Hh Hi Hp H li. unfold lobby_obj. rewrite Hl, Hh, Hi, Hp. apply H.
Qed.

Lemma host_inv_none s : _lobbyInfo s = None → host_inv s.
Proof. intros Hl li. unfold lobby_obj. by rewrite Hl. Qed.

Lemma host_inv_emit event data s : host_inv s → host_inv (emit_ event data s).
Proof.
  destruct (emit_frame event data s) as (_ & _ & Hp & _ & _ & _ & _ & Hl & Hi & Hh & _).
  by apply host_inv_frame.
Qed.

Lemma host_ok_intro R s s' : sound R s s' → host_ok s → host_inv s' → host_ok s'.
Proof.
  intros Hs (Ht & Hp & _) Hi. destruct (Hs Ht) as [Ht' He].
  split; [done|]. split; [|done]. by rewrite (ev_playerId _ _ _ He Hp).
Qed.

Lemma host_keep R s s' : may_lobby R = false → sound R s s' → host_ok s → host_ok s'.
Proof.
  intros HR Hs Hok. apply (host_ok_intro R s); [done..|].
  destruct Hok as (Ht & Hp & Hi). destruct (Hs Ht) as [_ He].
  destruct (ev_lobby _ _ _ He HR) as (Hl & Hh & Hh' & _).
  apply (host_inv_frame s); try done. by apply (ev_playerId _ _ _ He).
Qed.

Lemma lobby_obj_new li s : lobby_obj (new_lobbyInfo li s) = Some li.
Proof.
  unfold lobby_obj, new_lobbyInfo. simpl.
  rewrite lookup_app_r by done. by rewrite Nat.sub_diag.
Qed.

Lemma host_inv_handleMessage m s : host_ok s → host_inv (_handleMessage m s).
Proof.
  intros Hok.
  destruct m;
    try (by eapply (host_keep (msg_perm _));
           [ | apply _handleMessage_sound | done]).
  - unfold _handleMessage. cbv zeta. apply host_inv_emit. intros li.
    unfold lobby_obj at 1. simpl. rewrite lookup_app_r by done.
    rewrite Nat.sub_diag. simpl. intros [= <-]. by right.
  - unfold _handleMessage. cbv zeta. apply host_inv_emit. intros li.
    unfold lobby_obj at 1. simpl. rewrite lookup_app_r by done.
    rewrite Nat.sub_diag. simpl. intros [= <-]. by left.
  - apply host_inv_emit. by apply host_inv_none.
  - apply host_inv_emit. by apply host_inv_none.
  - apply host_inv_emit. by apply host_inv_none.
  - unfold _handleMessage. cbv zeta. apply host_inv_emit. intros li.
    destruct (_lobbyInfo s) as [l|] eqn:Hl; unfold lobby_obj; simpl; rewrite Hl; [|done].
    simpl. rewrite list_lookup_alter_eq.
    destruct (heap s !! l) as [li0|]; [|done]. simpl. intros [= <-]. by left.
Qed.

Lemma host_handleMessage m s : host_ok s → host_ok (_handleMessage m s).
Proof.
  intros Hok. apply (host_ok_intro (msg_perm m) s); [|done|].
  - apply _handleMessage_sound.
  - by apply host_inv_handleMessage.
Qed.

Lemma host_onmessage k m s : host_ok s → host_ok (onmessage k (Some m) s).
Proof.
  intros Hok. unfold onmessage.
  destruct (callbacks_of k s) as [[]|]; try done; by apply host_handleMessage.
Qed.

Lemma host_onclose k s : host_ok s → host_ok (onclose k s).
Proof.
  intros Hok. apply (host_ok_intro free s); [by apply onclose_sound | done |].
  unfold onclose. destruct (callbacks_of k s) as [[]|]; try apply Hok.
  - apply host_inv_emit. by apply host_inv_none.
  - apply host_inv_emit. apply (host_inv_frame s); try done. apply Hok.
Qed.

Lemma host_api_call a s : host_ok s → host_ok (api_call a s).
Proof.
  intros Hok. apply (host_ok_intro (api_perm a) s); [apply api_call_sound | done |].
  destruct a;
    try (by eapply (host_keep (api_perm _));
           [ | apply api_call_sound | done]).
  - apply host_inv_none. unfold api_call, disconnect. by destruct (_ws s).
  - by apply host_inv_none.
  - destruct Hok as (Ht & Hp & Hi). unfold api_call, getLobbyInfo.
    destruct (_lobbyInfo s) as [l0|] eqn:Hl0; [|done].
    intros li. unfold lobby_obj. simpl. rewrite Hl0. simpl.
    rewrite lookup_app_l by (by apply (typed_lobby s Ht)).
    intros Hli. apply Hi. unfold lobby_obj. by rewrite Hl0.
Qed.

Lemma host_step e s : host_ok s → host_ok (step e s).
Proof.
  intros Hok.
  destruct e as [a| |l v|dt|k|k [m|]|k|k|t];
    try (by eapply (host_keep (event_perm _)); [ | apply step_sound | done]).
  - by apply host_api_call.
  - apply (host_ok_intro (event_perm (Mutate l v)) s); [apply step_sound | done |].
    destruct Hok as (Ht & Hp & Hi). simpl. case_bool_decide as Hl; [|done].
    intros li. unfold lobby_obj. simpl.
    destruct (_lobbyInfo s) as [l0|] eqn:Hl0; [|done]. simpl.
    rewrite list_lookup_insert_ne.
    + intros Hli. apply Hi. unfold lobby_obj. by rewrite Hl0.
    + intros ->. by apply (typed_lobby s Ht l0).
  - simpl. assert (host_ok (drain s)) as Hok0
      by (by apply (host_keep rejecting s); [|apply drain_sound|]).
    destruct (readyState_of k (drain s)) as [[]|]; try done.
    apply (host_keep rejecting (onmessage k (Some m) (drain s)));
      [done | by apply drain_sound | by apply host_onmessage].
  - simpl. assert (host_ok (drain s)) as Hok0
      by (by apply (host_keep rejecting s); [|apply drain_sound|]).
    destruct (readyState_of k (drain s)) as [[]|]; try done;
      (eapply (host_keep rejecting); [done | by apply drain_sound |];
       apply host_onclose;
       eapply (host_keep rejecting); [done | by apply drain_sound |];
       eapply (host_keep rejecting); [done | by apply onerror_sound |];
       eapply (host_keep rejecting); [done | apply set_readyState_sound | done]).
  - simpl. assert (host_ok (drain s)) as Hok0
      by (by apply (host_keep rejecting s); [|apply drain_sound|]).
    destruct (readyState_of k (drain s)) as [[]|]; try done;
      (eapply (host_keep rejecting); [done | by apply drain_sound |];
       apply host_onclose;
       eapply (host_keep rejecting); [done | apply set_readyState_sound | done]).
Qed.

Lemma host_run es s : host_ok s → host_ok (run es s).
Proof.
  revert s. induction es as [|e es IH]; intros s Hok; [done|].
  rewrite run_cons. apply IH. by apply host_step.
Qed.

(** A promise resolves only in a task that is permitted to resolve it. *)
Lemma resolution_needs_permission R s s' c t p v :
  evolves R s s' → kind_tag c s = Some t → phase_of c s = Some p →
  is_pending p = true → phase_of c s' = Some (Resolved v) →
  may_resolve R t = true.
Proof.
  intros He Hk Hp Hpen Hres. unfold kind_tag, phase_of in *.
  destruct (calls s !! c) as [cl|] eqn:Hcl; [|done]. simpl in *.
  injection Hk as <-. injection Hp as <-.
  destruct (ev_calls _ _ _ He _ _ Hcl) as (cl' & Hcl' & _ & _ & _ & _ & Hr & _).
  rewrite Hcl' in Hres. simpl in Hres. injection Hres as Hres.
  destruct (Hr v Hres) as [Hv|]; [|done]. rewrite Hv in Hpen. done.
Qed.

Lemma drain_idle s : jobs s = [] → drain s = s.
Proof. intros Hj. unfold drain. by rewrite Hj. Qed.

(** A message either reaches the dispatcher or changes nothing besides the
    microtasks that were due. *)
Lemma step_message k m s :
  typed s →
  step (SockMessage k (Some m)) s = drain s ∨
  step (SockMessage k (Some m)) s = drain (_handleMessage m (drain s)).
Proof.
  intros Ht. simpl.
  assert (drain (drain s) = drain s) as Hdd
    by (apply drain_idle; by apply drain_empties).
  destruct (readyState_of k (drain s)) as [[]|]; auto.
  unfold onmessage. destruct (callbacks_of k (drain s)) as [[]|]; auto.
Qed.

Lemma resolved_by_dispatch k m s c t p v :
  typed s → kind_tag c s = Some t → phase_of c s = Some p → is_pending p = true →
  phase_of c (step (SockMessage k (Some m)) s) = Some (Resolved v) →
  step (SockMessage k (Some m)) s = drain (_handleMessage m (drain s)).
Proof.
  intros Ht Hk Hp Hpen Hres. destruct (step_message k m s Ht) as [Hs|Hs]; [|done].
  rewrite Hs in Hres. destruct (drain_sound rejecting s eq_refl Ht) as [_ He].
  by pose proof (resolution_needs_permission _ _ _ _ _ _ _ He Hk Hp Hpen Hres).
Qed.

(** What the final checkpoint of a lobby message leaves alone. *)
Lemma host_after_dispatch m s :
  typed s →
  _isHost (drain (_handleMessage m s)) = _isHost (_handleMessage m s) ∧
  lobby_obj (drain (_handleMessage m s)) = lobby_obj (_handleMessage m s).
Proof.
  intros Ht. destruct (_handleMessage_sound m s Ht) as [Ht1 _].
  destruct (drain_sound rejecting _ eq_refl Ht1) as [_ He].
  destruct (ev_lobby _ _ _ He eq_refl) as (Hl & Hh & Hi & _).
  unfold lobby_obj. by rewrite Hl, Hh, Hi.
Qed.

Lemma created_lobby_has_no_owner :
  reachable (run (lobby_requested ++ [lobby_granted]) (init (λ _, "k3x9q0a"))) ∧
  ¬ host_matches_owner (run (lobby_requested ++ [lobby_granted]) (init (λ _, "k3x9q0a"))).
Proof.
  split; [apply reachable_run, reachable_init|].
  intros H. specialize (H (mkLobby (Some "L1") (Some "Arena") (Some false) None (Some 4%Z))
                          eq_refl).
  vm_compute in H. discriminate.
Qed.

(** C2, as the code has it.  In a session that has its player id, as every
    session with a [createLobby] or [joinLobby] call has, the engine keeps
    this invariant through every run: when a lobby is stored, [isHost()] is
    [ownerId === playerId] for the stored owner, or the lobby has no stored
    owner and [isHost()] is true, which is how [lobby_created] leaves it.
    A [createLobby] promise that resolves in a task leaves [isHost()] true
    and a lobby without owner stored; a [joinLobby] promise that resolves
    in a task leaves a lobby stored and [isHost()] equal to
    [ownerId === playerId] for its owner. *)
Theorem isHost_follows_stored_owner (s : state) :
  reachable s →
  (truthy (_playerId s) = true → host_inv s → ∀ es, host_inv (run es s)) ∧
  (∀ e c p v,
     kind_tag c s = Some TCreate → phase_of c s = Some p → is_pending p = true →
     phase_of c (step e s) = Some (Resolved v) →
     _isHost (step e s) = true ∧
     ∃ li, lobby_obj (step e s) = Some li ∧ li_ownerId li = None) ∧
  (∀ e c p v,
     kind_tag c s = Some TJoin → phase_of c s = Some p → is_pending p = true →
     phase_of c (step e s) = Some (Resolved v) →
     ∃ li, lobby_obj (step e s) = Some li ∧
           _isHost (step e s) = strict_eq (li_ownerId li) (_playerId (step e s))).
Proof.
  intros Hs. pose proof (reachable_typed _ Hs) as Ht.
  destruct (drain_sound rejecting s eq_refl Ht) as [Ht0 He0].
  split_and!.
  - intros Hp Hi es. by apply host_run.
  - intros e c p v Hk Hph Hpen Hres.
    destruct (step_sound e s Ht) as [_ He].
    pose proof (resolution_needs_permission _ _ _ _ _ _ _ He Hk Hph Hpen Hres) as HR.
    destruct e as [a| |l w|dt|k|k [m|]|k|k|t]; try done; [by destruct a|].
    destruct m; try done.
    rewrite (resolved_by_dispatch _ _ _ _ _ _ _ Ht Hk Hph Hpen Hres).
    destruct (host_after_dispatch
                (lobby_created lobbyId lobbyName isPublic maxPlayers playerId)
                (drain s) Ht0) as [-> ->].
    unfold _handleMessage. cbv zeta.
    match goal with |- context [emit_ ?ev ?d ?s1] =>
      destruct (emit_frame ev d s1) as (_ & _ & _ & _ & _ & _ & _ & Hl & Hi & Hh & _)
    end.
    unfold lobby_obj. rewrite Hl, Hi, Hh. simpl. split; [done|].
    rewrite lookup_app_r by done. rewrite Nat.sub_diag. simpl. eauto.
  - intros e c p v Hk Hph Hpen Hres.
    destruct (step_sound e s Ht) as [Ht' He].
    pose proof (resolution_needs_permission _ _ _ _ _ _ _ He Hk Hph Hpen Hres) as HR.
    assert (truthy (_playerId s) = true) as Hpid.
    { unfold kind_tag in Hk. destruct (calls s !! c) as [cl|] eqn:Hcl; [|done].
      apply (typed_playerId s Ht c cl Hcl). simpl in Hk. injection Hk as ->. done. }
    rewrite (ev_playerId _ _ _ He Hpid).
    destruct e as [a| |l w|dt|k|k [m|]|k|k|t]; try done; [by destruct a|].
    destruct m; try done.
    rewrite (resolved_by_dispatch _ _ _ _ _ _ _ Ht Hk Hph Hpen Hres).
    destruct (host_after_dispatch
                (lobby_state lobbyId lobbyName isPublic ownerId maxPlayers players)
                (drain s) Ht0) as [-> ->].
    unfold _handleMessage. cbv zeta.
    match goal with |- context [emit_ ?ev ?d ?s1] =>
      destruct (emit_frame ev d s1) as (_ & _ & _ & _ & _ & _ & _ & Hl & Hi & Hh & _)
    end.
    unfold lobby_obj. rewrite Hl, Hi, Hh. simpl.
    rewrite lookup_app_r by done. rewrite Nat.sub_diag. simpl.
    eexists. split; [done|]. simpl.
    by rewrite (ev_playerId _ _ _ He0 Hpid).
Qed.

Lemma isHost_follows_stored_owner_witness :
  host_inv (run [lobby_granted;
                 SockMessage 0 (Some (lobby_owner_changed (Some "p_bob")))]
                (run lobby_requested (init (λ _, "k3x9q0a")))) ∧
  _isHost (step lobby_granted (run lobby_requested (init (λ _, "k3x9q0a")))) = true.
Proof.
  split.
  - refine (proj1 (isHost_follows_stored_owner
                     (run lobby_requested (init (λ _, "k3x9q0a")))
                     (reachable_run _ _ (reachable_init _))) eq_refl _ _).
    intros li Hli. vm_compute in Hli. discriminate.
  - refine (proj1 (proj1 (proj2 (isHost_follows_stored_owner
                     (run lobby_requested (init (λ _, "k3x9q0a")))
                     (reachable_run _ _ (reachable_init _))))
                     lobby_granted 0 Handshake
                     (VPayload (PLobbyCreated
                        (mkLobby (Some "L1") (Some "Arena") (Some false) None (Some 4%Z))
                        (Some "p_k3x9q0a")))
                     eq_refl eq_refl eq_refl _)).
    vm_compute. reflexivity.
Defined.

(** ** Public lobbies *)

Lemma ws_open_frame s s' : frame_emit s s' → ws_open s' = ws_open s.
Proof.
  intros (Hw & _ & _ & _ & _ & _ & _ & _ & _ & _ & _ & Hs & _).
  unfold ws_open. by rewrite Hw, Hs.
Qed.

Lemma createLobby_resume_sends c gameId lobbyId lobbyName maxPlayers k s :
  ws_open s = Some k →
  last (trace (createLobby_resume c gameId lobbyId lobbyName maxPlayers s)) =
  Some (TSend k (lobby_create gameId (or_undefined lobbyId) lobbyName maxPlayers
                              (_playerId s) (_username s))).
Proof.
  intros Hk. unfold createLobby_resume. cbv zeta.
  set (s1 := emit_ "connected" (PConnected (_playerId s)) s).
  assert (frame_emit s s1) as Hf by apply emit_frame.
  pose proof Hf as (_ & _ & Hp & Hu & _).
  assert (ws_open (on "error" (onErr_create c) (on "lobbyCreated" (onCreated c) s1))
          = Some k) as Hk'.
  { rewrite <- Hk. apply ws_open_frame.
    eapply frame_emit_trans; [exact Hf|].
    eapply frame_emit_trans; apply on_frame. }
  unfold _send. rewrite Hk'. unfold log. simpl. rewrite last_snoc.
  change (_playerId (on "error" (onErr_create c) (on "lobbyCreated" (onCreated c) s1)))
    with (_playerId s1).
  change (_username (on "error" (onErr_create c) (on "lobbyCreated" (onCreated c) s1)))
    with (_username s1).
  by rewrite Hp, Hu.
Qed.

Lemma lobby_created_trace lobbyId lobbyName isPublic maxPlayers playerId s :
  trace (_handleMessage (lobby_created lobbyId lobbyName isPublic maxPlayers playerId) s)
  = trace s ++
    TEmit "lobbyCreated"
          (PLobbyCreated (mkLobby lobbyId lobbyName isPublic None maxPlayers) playerId)
    :: flat_map (invocation (PLobbyCreated
                   (mkLobby lobbyId lobbyName isPublic None maxPlayers) playerId))
                (handlers_of "lobbyCreated" s).
Proof.
  unfold _handleMessage. cbv zeta. rewrite emit_trace.
  assert (spread_lobbyInfo
            (set_isHost true
               (new_lobbyInfo (mkLobby lobbyId lobbyName isPublic None maxPlayers) s))
          = mkLobby lobbyId lobbyName isPublic None maxPlayers) as ->.
  { unfold spread_lobbyInfo, lobby_obj. simpl. rewrite lookup_app_r by done.
    by rewrite Nat.sub_diag. }
  done.
Qed.

(** C5.  [createLobby] registers its call with the lobby name it was given,
    ['My Lobby'] when it was given none, and the call keeps it; when the
    [await] of the call returns with an open socket, the [lobby_create]
    request goes out with that name; and when the answer of the server to
    that request is dispatched, the [lobbyCreated] event carries
    [isPublic === true] if the name starts with the public marker and
    [isPublic === false] if it does not. *)
Theorem lobbyCreated_isPublic_follows_marker (o : create_opts) (s : state) :
  reachable s →
  let c := (createLobby o s).1 in
  let lobbyName := default "My Lobby" (co_lobbyName o) in
  let maxPlayers := default 8%Z (co_maxPlayers o) in
  let kind := CreateCall (co_gameId o) (co_lobbyId o) lobbyName maxPlayers in
  (∀ es, c_kind <$> calls (run es (createLobby o s).2) !! c = Some kind) ∧
  (∀ s' k, c_kind <$> calls s' !! c = Some kind → phase_of c s' = Some AwaitOpen →
           ws_open s' = Some k →
           last (trace (resume c s')) =
           Some (TSend k (lobby_create (co_gameId o) (or_undefined (co_lobbyId o))
                                       lobbyName maxPlayers
                                       (_playerId s') (_username s')))) ∧
  (∀ s' gameId lobbyId pid username lobbyId' pid' reply,
     server_lobby_created lobbyId' pid'
       (lobby_create gameId lobbyId lobbyName maxPlayers pid username) = Some reply →
     ∃ info,
       trace (_handleMessage reply s') =
       trace s' ++ TEmit "lobbyCreated" (PLobbyCreated info pid')
       :: flat_map (invocation (PLobbyCreated info pid'))
                   (handlers_of "lobbyCreated" s') ∧
       li_lobbyName info = Some lobbyName ∧
       li_isPublic info = Some (String.prefix public_marker lobbyName)).
Proof.
  intros Hs c lobbyName maxPlayers kind. split_and!.
  - intros es.
    assert (typed (createLobby o s).2) as Ht1
      by (apply (createLobby_sound strict), reachable_typed, Hs).
    destruct (run_sound es _ Ht1) as [_ He].
    assert (calls (createLobby o s).2 !! c = Some (mkCall kind AwaitOpen None)) as Hc.
    { rewrite createLobby_calls. subst c. unfold createLobby. cbv zeta. simpl.
      rewrite (proj2 (proj2 (proj2 (assign_playerId_fields s)))).
      rewrite lookup_app_r by done. by rewrite Nat.sub_diag. }
    destruct (ev_calls _ _ _ He _ _ Hc) as (cl' & -> & Hk & _). simpl. by rewrite Hk.
  - intros s' k Hkind Hph Hk. unfold resume, phase_of in *.
    destruct (calls s' !! c) as [cl|]; [|done]. simpl in Hkind, Hph.
    injection Hkind as ->. injection Hph as ->.
    change (trace (set_phase c Handshake ?x)) with (trace x).
    by apply createLobby_resume_sends.
  - intros s' gameId lobbyId pid username lobbyId' pid' reply [= <-].
    eexists. split; [apply lobby_created_trace|]. done.
Qed.

Lemma lobbyCreated_isPublic_follows_marker_witness :
  ∃ info,
    trace (_handleMessage
             (lobby_created (Some "L1") (Some "PUBLIC_Arena") (Some true) (Some 4%Z)
                            (Some "p_k3x9q0a"))
             (init (λ _, "k3x9q0a"))) =
    trace (init (λ _, "k3x9q0a")) ++
    TEmit "lobbyCreated" (PLobbyCreated info (Some "p_k3x9q0a"))
    :: flat_map (invocation (PLobbyCreated info (Some "p_k3x9q0a")))
                (handlers_of "lobbyCreated" (init (λ _, "k3x9q0a"))) ∧
    li_lobbyName info = Some "PUBLIC_Arena" ∧
    li_isPublic info = Some true.
Proof.
  exact (proj2 (proj2 (lobbyCreated_isPublic_follows_marker
           (mkCreate "wss://host" (Some "g1") None (Some "PUBLIC_Arena")
                     (Some 4%Z) (Some "Ann"))
           (init (λ _, "k3x9q0a")) (reachable_init _)))
           (init (λ _, "k3x9q0a")) (Some "g1") None (Some "p_k3x9q0a") "Ann"
           (Some "L1") (Some "p_k3x9q0a") _ eq_refl).
Defined.

(** The whole exchange on a concrete run: the request that goes out and
    the event that the answer gives rise to. *)
Example public_lobby_exchange :
  trace (run public_lobby (init (λ _, "k3x9q0a"))) =
  [TNewSocket 0 "wss://host";
   TEmit "connected" (PConnected (Some "p_k3x9q0a"));
   TSend 0 (lobby_create (Some "g1") None "PUBLIC_Arena" 4 (Some "p_k3x9q0a") "Ann");
   TEmit "lobbyCreated"
         (PLobbyCreated (mkLobby (Some "L1") (Some "PUBLIC_Arena") (Some true) None
                                 (Some 4%Z))
                        (Some "p_k3x9q0a"));
   TInvoke (onCreated 0)
           (PLobbyCreated (mkLobby (Some "L1") (Some "PUBLIC_Arena") (Some true) None
                                   (Some 4%Z))
                          (Some "p_k3x9q0a"))].
Proof. vm_compute. reflexivity. Qed.

(** ** The copy that [getLobbyInfo] returns *)

(** No function of the engine but the dispatcher and [getLobbyInfo] reads
    or writes a lobby object: it commutes with a change of the store. *)

Lemma store_eta s : store (heap s) (exported s) (store [] [] s) = s.
Proof. by destruct s. Qed.

Ltac unstore :=
  repeat match goal with
  | |- context [?f (store ?h ?x ?s)] =>
      lazymatch f with
      | _ws => idtac | _connected => idtac | _playerId => idtac | _username => idtac
      | _gameId => idtac | _roomId => idtac | _players => idtac | _lobbyInfo => idtac
      | _isHost => idtac | _handlers => idtac | sockets => idtac | timers => idtac
      | calls => idtac | jobs => idtac | now => idtac | entropy => idtac
      | draws => idtac | trace => idtac | refused => idtac
      | Object_prototype_data => idtac | builtin_data => idtac
      end;
      change (f (store h x s)) with (f s)
  end.

Lemma set_ws_store v h x s : set_ws v (store h x s) = store h x (set_ws v s).
Proof. done. Qed.
Lemma set_connected_store v h x s :
  set_connected v (store h x s) = store h x (set_connected v s).
Proof. done. Qed.
Lemma set_playerId_store v h x s :
  set_playerId v (store h x s) = store h x (set_playerId v s).
Proof. done. Qed.
Lemma set_username_store v h x s :
  set_username v (store h x s) = store h x (set_username v s).
Proof. done. Qed.
Lemma set_gameId_store v h x s : set_gameId v (store h x s) = store h x (set_gameId v s).
Proof. done. Qed.
Lemma set_roomId_store v h x s : set_roomId v (store h x s) = store h x (set_roomId v s).
Proof. done. Qed.
Lemma set_players_store v h x s :
  set_players v (store h x s) = store h x (set_players v s).
Proof. done. Qed.
Lemma set_lobbyInfo_store v h x s :
  set_lobbyInfo v (store h x s) = store h x (set_lobbyInfo v s).
Proof. done. Qed.
Lemma set_isHost_store v h x s : set_isHost v (store h x s) = store h x (set_isHost v s).
Proof. done. Qed.
Lemma set_handlers_store v h x s :
  set_handlers v (store h x s) = store h x (set_handlers v s).
Proof. done. Qed.
Lemma set_sockets_store v h x s :
  set_sockets v (store h x s) = store h x (set_sockets v s).
Proof. done. Qed.
Lemma set_timers_store v h x s : set_timers v (store h x s) = store h x (set_timers v s).
Proof. done. Qed.
Lemma set_calls_store v h x s : set_calls v (store h x s) = store h x (set_calls v s).
Proof. done. Qed.
Lemma set_jobs_store v h x s : set_jobs v (store h x s) = store h x (set_jobs v s).
Proof. done. Qed.
Lemma set_now_store v h x s : set_now v (store h x s) = store h x (set_now v s).
Proof. done. Qed.
Lemma set_draws_store v h x s : set_draws v (store h x s) = store h x (set_draws v s).
Proof. done. Qed.
Lemma set_trace_store v h x s : set_trace v (store h x s) = store h x (set_trace v s).
Proof. done. Qed.
Lemma set_Object_prototype_data_store v h x s :
  set_Object_prototype_data v (store h x s) = store h x (set_Object_prototype_data v s).
Proof. done. Qed.
Lemma set_builtin_data_store v h x s :
  set_builtin_data v (store h x s) = store h x (set_builtin_data v s).
Proof. done. Qed.

Create Rewrite HintDb store.

#[local] Hint Rewrite set_ws_store set_connected_store set_playerId_store
  set_username_store set_gameId_store set_roomId_store set_players_store
  set_lobbyInfo_store set_isHost_store set_handlers_store set_sockets_store
  set_timers_store set_calls_store set_jobs_store set_now_store set_draws_store
  set_trace_store set_Object_prototype_data_store set_builtin_data_store : store.

Ltac oblivious :=
  intros; cbv zeta;
  repeat (progress (unstore; autorewrite with store; cbv zeta));
  repeat case_match;
  repeat (progress (unstore; autorewrite with store; cbv zeta));
  try reflexivity.

Lemma handlers_of_store event h x s : handlers_of event (store h x s) = handlers_of event s.
Proof. done. Qed.
Lemma ws_open_store h x s : ws_open (store h x s) = ws_open s.
Proof. done. Qed.
Lemma callbacks_of_store k h x s : callbacks_of k (store h x s) = callbacks_of k s.
Proof. done. Qed.
Lemma readyState_of_store k h x s : readyState_of k (store h x s) = readyState_of k s.
Proof. done. Qed.
Lemma timer_due_store t h x s : timer_due t (store h x s) = timer_due t s.
Proof. done. Qed.

#[local] Hint Rewrite handlers_of_store ws_open_store callbacks_of_store
  readyState_of_store timer_due_store : store.

Lemma log_store o h x s : log o (store h x s) = store h x (log o s).
Proof. done. Qed.
Lemma enqueue_store j h x s : enqueue j (store h x s) = store h x (enqueue j s).
Proof. done. Qed.
Lemma set_phase_store c p h x s : set_phase c p (store h x s) = store h x (set_phase c p s).
Proof. done. Qed.
Lemma chain_store c r h x s : chain c r (store h x s) = store h x (chain c r s).
Proof. done. Qed.
Lemma on_store event fn h x s : on event fn (store h x s) = store h x (on event fn s).
Proof. done. Qed.
Lemma new_socket_store url r h x s :
  new_socket url r (store h x s) = store h x <$> new_socket url r s.
Proof. unfold new_socket. unstore. by case_match. Qed.
Lemma setTimeout_store kind delay h x s :
  setTimeout kind delay (store h x s) = store h x (setTimeout kind delay s).
Proof. done. Qed.
Lemma set_readyState_store k r h x s :
  set_readyState k r (store h x s) = store h x (set_readyState k r s).
Proof. done. Qed.
Lemma set_callbacks_store k r h x s :
  set_callbacks k r (store h x s) = store h x (set_callbacks k r s).
Proof. done. Qed.

#[local] Hint Rewrite log_store enqueue_store set_phase_store chain_store on_store
  setTimeout_store set_readyState_store set_callbacks_store : store.

Lemma off_store event fn h x s : off event fn (store h x s) = store h x (off event fn s).
Proof. unfold off. oblivious. Qed.

Lemma settle_store c p h x s : settle c p (store h x s) = store h x (settle c p s).
Proof. unfold settle. oblivious. Qed.

Lemma assign_playerId_store h x s :
  assign_playerId (store h x s) = store h x (assign_playerId s).
Proof. unfold assign_playerId, random_id. oblivious. Qed.

Lemma ws_close_store k h x s : ws_close k (store h x s) = store h x (ws_close k s).
Proof. unfold ws_close. oblivious. Qed.

Lemma clearTimeout_store t h x s :
  clearTimeout t (store h x s) = store h x (clearTimeout t s).
Proof. unfold clearTimeout. oblivious. Qed.

Lemma _send_store m h x s : _send m (store h x s) = store h x (_send m s).
Proof. unfold _send. oblivious. Qed.

#[local] Hint Rewrite off_store settle_store assign_playerId_store ws_close_store
  clearTimeout_store _send_store : store.

Lemma _openWS_store serverUrl c h x s :
  _openWS serverUrl c (store h x s) = store h x (_openWS serverUrl c s).
Proof.
  unfold _openWS. cbv zeta. unstore. rewrite ws_open_store.
  destruct (ws_open s); [by autorewrite with store|].
  destruct (_ws s) as [k|].
  all:
    repeat (progress (unstore; autorewrite with store));
    rewrite new_socket_store;
    match goal with
    | |- context [new_socket ?u ?r ?s0] => destruct (new_socket u r s0)
    end; simpl; by autorewrite with store.
Qed.

#[local] Hint Rewrite _openWS_store : store.

(** Publishing: the handlers of the game do not see the engine. *)
Lemma call_fn_store fn data h x s :
  call_fn fn data (store h x s) =
  ((call_fn fn data s).1, store h x (call_fn fn data s).2).
Proof.
  unfold call_fn, resolve, reject. cbv zeta. destruct fn as [f| | | | |].
  - autorewrite with store. by destruct (fn_body f data).
  - by autorewrite with store.
  - by autorewrite with store.
  - by autorewrite with store.
  - by autorewrite with store.
  - by autorewrite with store.
Qed.

Lemma guarded_call_store fn data h x s :
  try_catch (call_fn fn data) console_error (store h x s) =
  ((try_catch (call_fn fn data) console_error s).1,
   store h x (try_catch (call_fn fn data) console_error s).2).
Proof.
  unfold try_catch. rewrite call_fn_store.
  destruct (call_fn fn data s) as [[|e] s1]; simpl; [done|].
  unfold console_error. by autorewrite with store.
Qed.

Lemma forEach_store data hs h x s :
  forEach (λ fn, try_catch (call_fn fn data) console_error) hs (store h x s) =
  ((forEach (λ fn, try_catch (call_fn fn data) console_error) hs s).1,
   store h x (forEach (λ fn, try_catch (call_fn fn data) console_error) hs s).2).
Proof.
  revert s. induction hs as [|fn hs IH]; intros s; [done|].
  cbn [forEach]. rewrite guarded_call_store.
  destruct (try_catch (call_fn fn data) console_error s) as [[|e] s1]; simpl; [|done].
  apply IH.
Qed.

Lemma emit__store event data h x s :
  emit_ event data (store h x s) = store h x (emit_ event data s).
Proof.
  unfold emit_, emit. autorewrite with store. by rewrite forEach_store.
Qed.

#[local] Hint Rewrite emit__store : store.

(** The API and the continuations of its calls. *)
Lemma connect_pair_store serverUrl roomId username h x s :
  connect serverUrl roomId username (store h x s) =
  ((connect serverUrl roomId username s).1,
   store h x (connect serverUrl roomId username s).2).
Proof.
  unfold connect. cbv zeta.
  repeat (progress (unstore; autorewrite with store)).
  rewrite new_socket_store.
  match goal with
  | |- context [new_socket ?u ?r ?s0] => destruct (new_socket u r s0)
  end; simpl; by autorewrite with store.
Qed.

Lemma connect_store serverUrl roomId username h x s :
  (connect serverUrl roomId username (store h x s)).2 =
  store h x (connect serverUrl roomId username s).2.
Proof. by rewrite connect_pair_store. Qed.

Lemma disconnect_store h x s : disconnect (store h x s) = store h x (disconnect s).
Proof. unfold disconnect. oblivious. Qed.

Lemma leaveLobby_store h x s : leaveLobby (store h x s) = store h x (leaveLobby s).
Proof. unfold leaveLobby. oblivious. Qed.

Lemma createLobby_store o h x s :
  createLobby o (store h x s) = ((createLobby o s).1, store h x (createLobby o s).2).
Proof. unfold createLobby, new_call. cbv zeta. cbn [fst snd]. oblivious. Qed.

Lemma joinLobby_store o h x s :
  joinLobby o (store h x s) = ((joinLobby o s).1, store h x (joinLobby o s).2).
Proof. unfold joinLobby, new_call. cbv zeta. cbn [fst snd]. oblivious. Qed.

Lemma listLobbies_store serverUrl gameId h x s :
  (listLobbies serverUrl gameId (store h x s)).2 =
  store h x (listLobbies serverUrl gameId s).2.
Proof. unfold listLobbies, new_call. cbv zeta. cbn [snd]. oblivious. Qed.

Lemma createLobby_resume_store c gameId lobbyId lobbyName maxPlayers h x s :
  createLobby_resume c gameId lobbyId lobbyName maxPlayers (store h x s) =
  store h x (createLobby_resume c gameId lobbyId lobbyName maxPlayers s).
Proof. unfold createLobby_resume. oblivious. Qed.

Lemma joinLobby_resume_store c gameId lobbyId h x s :
  joinLobby_resume c gameId lobbyId (store h x s) =
  store h x (joinLobby_resume c gameId lobbyId s).
Proof. unfold joinLobby_resume. oblivious. Qed.

Lemma listLobbies_resume_store c gameId h x s :
  listLobbies_resume c gameId (store h x s) = store h x (listLobbies_resume c gameId s).
Proof. unfold listLobbies_resume. oblivious. Qed.

#[local] Hint Rewrite connect_store disconnect_store leaveLobby_store
  listLobbies_store createLobby_resume_store joinLobby_resume_store
  listLobbies_resume_store : store.

Lemma legacy_store serverUrl roomId username h x s :
  match connect serverUrl roomId username (store h x s) with
  | (Normal _, s) => emit_ "ready" (PReady true) s
  | (Abrupt _, s) => s
  end =
  store h x match connect serverUrl roomId username s with
            | (Normal _, s) => emit_ "ready" (PReady true) s
            | (Abrupt _, s) => s
            end.
Proof.
  rewrite connect_pair_store.
  destruct (connect serverUrl roomId username s) as [[v|e] s1];
    simpl; by autorewrite with store.
Qed.

Lemma _init_store serverUrl roomId username gameId lobbyCtx h x s :
  _init serverUrl roomId username gameId lobbyCtx (store h x s) =
  store h x (_init serverUrl roomId username gameId lobbyCtx s).
Proof.
  unfold _init. cbv zeta. destruct (negb (truthy serverUrl)); [oblivious|].
  destruct lobbyCtx as [[lobbyName maxPlayers|joinLobbyId]|];
    [| |autorewrite with store; apply legacy_store].
  - autorewrite with store. unstore. rewrite createLobby_store.
    match goal with |- context [createLobby ?o ?s0] => destruct (createLobby o s0) end.
    by autorewrite with store.
  - destruct (truthy (Some joinLobbyId));
      [|autorewrite with store; apply legacy_store].
    autorewrite with store. unstore. rewrite joinLobby_store.
    match goal with |- context [joinLobby ?o ?s0] => destruct (joinLobby o s0) end.
    by autorewrite with store.
Qed.

(** Microtasks and the callbacks of the host. *)
Lemma resume_store c h x s : resume c (store h x s) = store h x (resume c s).
Proof. unfold resume. oblivious. Qed.

Lemma fail_open_store c e h x s : fail_open c e (store h x s) = store h x (fail_open c e s).
Proof. unfold fail_open, reject. oblivious. Qed.

Lemma react_store c h x s : react c (store h x s) = store h x (react c s).
Proof.
  unfold react. cbv zeta. unstore.
  destruct (calls s !! c) as [cl|]; [|done].
  destruct (c_then cl) as [[serverUrl roomId username]|]; [|done].
  destruct (c_phase cl); try done; [by autorewrite with store|].
  rewrite log_store. apply legacy_store.
Qed.

Lemma run_job_store j h x s : run_job j (store h x s) = store h x (run_job j s).
Proof. destruct j; [apply resume_store | apply fail_open_store | apply react_store]. Qed.

Lemma drain_n_store n h x s : drain_n n (store h x s) = store h x (drain_n n s).
Proof.
  revert s. induction n as [|n IH]; intros s; [done|].
  cbn [drain_n]. unstore. destruct (jobs s) as [|j js]; [done|].
  by rewrite set_jobs_store, run_job_store, IH.
Qed.

Lemma drain_store h x s : drain (store h x s) = store h x (drain s).
Proof. unfold drain. unstore. apply drain_n_store. Qed.

Lemma onopen_store k h x s : onopen k (store h x s) = store h x (onopen k s).
Proof. unfold onopen. oblivious. Qed.

Lemma onclose_store k h x s : onclose k (store h x s) = store h x (onclose k s).
Proof. unfold onclose. oblivious. Qed.

Lemma onerror_store k h x s : onerror k (store h x s) = store h x (onerror k s).
Proof. unfold onerror. oblivious. Qed.

Lemma timeout_store t h x s : timeout t (store h x s) = store h x (timeout t s).
Proof. unfold timeout, resolve. oblivious. Qed.

#[local] Hint Rewrite _init_store drain_store onopen_store onclose_store onerror_store
  timeout_store : store.

(** What the engine does next does not depend on the objects of the game. *)

Lemma indistinguishable_refl s : indistinguishable s s.
Proof. by repeat split. Qed.

Lemma indistinguishable_oblivious (f : state → state) s1 s2 :
  (∀ h x s, f (store h x s) = store h x (f s)) →
  indistinguishable s1 s2 → indistinguishable (f s1) (f s2).
Proof.
  intros Hf (Hc & Hx & Hlen & Hl).
  assert (∀ s, f s = store (heap s) (exported s) (f (store [] [] s))) as Hf'
    by (intros s; by rewrite <- Hf, store_eta).
  rewrite (Hf' s1), (Hf' s2), Hc, Hx.
  split_and!; try done.
  intros l Hin. apply Hl. by rewrite Hx.
Qed.

Lemma indistinguishable_fields s1 s2 :
  indistinguishable s1 s2 →
  sockets s1 = sockets s2 ∧ _lobbyInfo s1 = _lobbyInfo s2 ∧
  _playerId s1 = _playerId s2 ∧ _players s1 = _players s2 ∧
  _isHost s1 = _isHost s2 ∧ trace s1 = trace s2 ∧ timers s1 = timers s2 ∧
  now s1 = now s2.
Proof.
  intros (Hc & _).
  split_and!;
    [ apply (f_equal sockets) in Hc | apply (f_equal _lobbyInfo) in Hc
    | apply (f_equal _playerId) in Hc | apply (f_equal _players) in Hc
    | apply (f_equal _isHost) in Hc | apply (f_equal trace) in Hc
    | apply (f_equal timers) in Hc | apply (f_equal now) in Hc ]; exact Hc.
Qed.

Lemma lookup_snoc_agree (h1 h2 : list lobby_info) li1 li2 l :
  length h1 = length h2 → h1 !! l = h2 !! l → (l = length h1 → li1 = li2) →
  (h1 ++ [li1]) !! l = (h2 ++ [li2]) !! l.
Proof.
  intros Hlen Hl Hli. destruct (decide (l < length h1)) as [Hlt|Hge].
  - rewrite !lookup_app_l by lia. done.
  - rewrite !lookup_app_r by lia. rewrite <- Hlen.
    destruct (l - length h1) as [|n] eqn:Hn; simpl; [|done].
    rewrite Hli; [done | lia].
Qed.

Lemma new_lobbyInfo_indistinguishable li s1 s2 :
  indistinguishable s1 s2 →
  indistinguishable (new_lobbyInfo li s1) (new_lobbyInfo li s2).
Proof.
  intros (Hc & Hx & Hlen & Hl). unfold new_lobbyInfo. rewrite Hlen.
  split_and!; try done.
  - change (set_lobbyInfo (Some (length (heap s2))) (store [] [] s1) =
            set_lobbyInfo (Some (length (heap s2))) (store [] [] s2)).
    by rewrite Hc.
  - simpl. rewrite !length_app. by rewrite Hlen.
  - simpl. intros l Hin. apply lookup_snoc_agree; auto.
Qed.

Lemma spread_new_lobbyInfo li s : spread_lobbyInfo (new_lobbyInfo li s) = li.
Proof. unfold spread_lobbyInfo. by rewrite lobby_obj_new. Qed.

Lemma inherit_store d h x s : inherit d (store h x s) = inherit d s.
Proof. done. Qed.

Lemma inherit_json_store d h x s : inherit_json d (store h x s) = inherit_json d s.
Proof. done. Qed.

Lemma update_data_store k playerId username data h x s :
  update_data k playerId username data (store h x s) =
  store h x (update_data k playerId username data s).
Proof. unfold update_data, merge_data. unstore. by repeat case_match. Qed.

#[local] Hint Rewrite inherit_store inherit_json_store update_data_store : store.

Lemma _handleMessage_indistinguishable m s1 s2 :
  indistinguishable s1 s2 →
  indistinguishable (_handleMessage m s1) (_handleMessage m s2).
Proof.
  intros Hs. pose proof (indistinguishable_fields _ _ Hs)
    as (_ & Hli & Hp & Hpl & _).
  destruct m;
    try (by match goal with
            | |- indistinguishable (_handleMessage ?m _) _ =>
                apply (indistinguishable_oblivious (_handleMessage m));
                [intros; unfold _handleMessage; oblivious | done]
            end);
    unfold _handleMessage; cbv zeta.
  - (* lobby_created *)
    change (spread_lobbyInfo (set_isHost true (new_lobbyInfo ?li ?s)))
      with (spread_lobbyInfo (new_lobbyInfo li s)).
    rewrite !spread_new_lobbyInfo.
    apply (indistinguishable_oblivious (λ s, emit_ _ _ (set_isHost true s)));
      [by oblivious|].
    by apply new_lobbyInfo_indistinguishable.
  - (* lobby_state *)
    change (_playerId (new_lobbyInfo ?li (set_players ?p s1))) with (_playerId s1).
    change (_playerId (new_lobbyInfo ?li (set_players ?p s2))) with (_playerId s2).
    change (_players (set_isHost ?b (new_lobbyInfo ?li (set_players ?p ?s)))) with p.
    rewrite Hp.
    apply (indistinguishable_oblivious (λ s, emit_ _ _ (set_isHost _ s)));
      [by oblivious|].
    apply new_lobbyInfo_indistinguishable.
    apply (indistinguishable_oblivious (set_players _)); [by oblivious | done].
  - (* lobby_owner_changed *)
    rewrite <- Hli.
    set (s1' := match _lobbyInfo s1 with
                | Some l => set_heap (alter (with_ownerId newOwnerId) l (heap s1)) s1
                | None => s1
                end).
    set (s2' := match _lobbyInfo s1 with
                | Some l => set_heap (alter (with_ownerId newOwnerId) l (heap s2)) s2
                | None => s2
                end).
    assert (indistinguishable s1' s2') as Hs'.
    { subst s1' s2'. destruct (_lobbyInfo s1) as [l|]; [|done].
      destruct Hs as (Hc & Hx & Hlen & Hl). split_and!; try done.
      - simpl. by rewrite !length_alter.
      - simpl. intros l' Hin. rewrite !list_lookup_alter.
        destruct (decide (l = l')) as [->|]; by rewrite (Hl l' Hin). }
    assert (_playerId s1' = _playerId s2') as ->
      by (by apply indistinguishable_fields).
    by apply (indistinguishable_oblivious (λ s, emit_ _ _ (set_isHost _ s)));
      [by oblivious|].
Qed.

Lemma getLobbyInfo_indistinguishable s1 s2 :
  indistinguishable s1 s2 →
  indistinguishable (getLobbyInfo s1).2 (getLobbyInfo s2).2.
Proof.
  intros Hs. pose proof (indistinguishable_fields _ _ Hs) as (_ & Hli & _).
  destruct Hs as (Hc & Hx & Hlen & Hl).
  unfold getLobbyInfo. rewrite <- Hli. destruct (_lobbyInfo s1) as [l0|]; [|done].
  simpl. rewrite Hlen, <- Hx. split_and!; try done.
  - simpl. rewrite !length_app. by rewrite Hlen.
  - simpl. intros l Hin. apply not_elem_of_cons in Hin as [Hne Hin].
    apply lookup_snoc_agree; auto. intros ->. by rewrite Hlen in Hne.
Qed.

Lemma mutate_indistinguishable l v s1 s2 :
  indistinguishable s1 s2 →
  indistinguishable (step (Mutate l v) s1) (step (Mutate l v) s2).
Proof.
  intros (Hc & Hx & Hlen & Hl). simpl. rewrite <- Hx.
  case_bool_decide as Hin; [|done].
  split_and!; try done.
  - simpl. by rewrite !length_insert.
  - simpl. intros l' Hl'. assert (l ≠ l') by (by intros ->).
    rewrite !list_lookup_insert_ne by done. by apply Hl.
Qed.

Lemma api_call_indistinguishable a s1 s2 :
  indistinguishable s1 s2 → indistinguishable (api_call a s1) (api_call a s2).
Proof.
  intros Hs.
  destruct a;
    try (by match goal with
            | |- indistinguishable (api_call ?a _) _ =>
                apply (indistinguishable_oblivious (api_call a));
                [intros; unfold api_call, updateState, sendMessage, kickFromLobby,
                   closeLobby; oblivious | done]
            end).
  - apply (indistinguishable_oblivious (api_call (CreateLobby o))); [|done].
    intros. unfold api_call. by rewrite createLobby_store.
  - apply (indistinguishable_oblivious (api_call (JoinLobby o))); [|done].
    intros. unfold api_call. by rewrite joinLobby_store.
  - by apply getLobbyInfo_indistinguishable.
Qed.

Lemma step_indistinguishable e s1 s2 :
  indistinguishable s1 s2 → indistinguishable (step e s1) (step e s2).
Proof.
  intros Hs.
  destruct e as [a| |l v|dt|k|k [m|]|k|k|t];
    try (by match goal with
            | |- indistinguishable (step ?e _) _ =>
                apply (indistinguishable_oblivious (step e));
                [intros; unfold step, onmessage; oblivious | done]
            end).
  - by apply api_call_indistinguishable.
  - by apply mutate_indistinguishable.
  - unfold step. cbv zeta.
    assert (indistinguishable (drain s1) (drain s2)) as Hd
      by (apply (indistinguishable_oblivious drain); [apply drain_store | done]).
    pose proof (indistinguishable_fields _ _ Hd) as (Hsk & _).
    unfold readyState_of, onmessage, callbacks_of. rewrite <- Hsk.
    destruct (sockets (drain s1) !! k) as [[u [] []]|]; simpl; try done;
      (apply (indistinguishable_oblivious drain); [apply drain_store|]);
      try done; by apply _handleMessage_indistinguishable.
Qed.

Lemma run_indistinguishable es s1 s2 :
  indistinguishable s1 s2 → indistinguishable (run es s1) (run es s2).
Proof.
  revert s1 s2. induction es as [|e es IH]; intros s1 s2 Hs; [done|].
  rewrite !run_cons. by apply IH, step_indistinguishable.
Qed.

(** The engine reads its lobby object, which the game does not hold. *)
Lemma indistinguishable_lobby s1 s2 :
  typed s1 → indistinguishable s1 s2 → lobby_obj s1 = lobby_obj s2.
Proof.
  intros Ht Hs. pose proof (indistinguishable_fields _ _ Hs) as (_ & Hli & _).
  destruct Hs as (_ & _ & _ & Hl). unfold lobby_obj. rewrite <- Hli.
  destruct (_lobbyInfo s1) as [l|] eqn:Hl1; [|done]. simpl.
  apply Hl. by apply (typed_lobby s1 Ht).
Qed.

(** C10.  [getLobbyInfo()] returns [null] when no lobby is stored.  When
    one is stored, it returns a reference to a new object, distinct from
    the object of the engine, with the same properties, and changes no
    variable of the engine.  Whatever the game then writes into that
    object, every later run of the engine goes the same way as without the
    write: the two states differ at most in the objects the game holds, so
    all variables, promises, sockets, timers and the log of what was
    published and sent are equal, the stored lobby is the same, and a later
    [getLobbyInfo()] returns the same reference to an object with the same
    properties. *)
Theorem getLobbyInfo_returns_detached_copy (s : state) :
  reachable s →
  (_lobbyInfo s = None → getLobbyInfo s = (None, s)) ∧
  (∀ l0, _lobbyInfo s = Some l0 →
     ∃ li l,
       lobby_obj s = Some li ∧
       (getLobbyInfo s).1 = Some l ∧ l ≠ l0 ∧ heap s !! l = None ∧
       heap (getLobbyInfo s).2 !! l = Some li ∧
       lobby_obj (getLobbyInfo s).2 = Some li ∧
       store (heap s) (exported s) (getLobbyInfo s).2 = s ∧
       ∀ v es,
         let changed := run es (step (Mutate l v) (getLobbyInfo s).2) in
         let unchanged := run es (getLobbyInfo s).2 in
         indistinguishable changed unchanged ∧
         trace changed = trace unchanged ∧
         _isHost changed = _isHost unchanged ∧
         lobby_obj changed = lobby_obj unchanged ∧
         (getLobbyInfo changed).1 = (getLobbyInfo unchanged).1 ∧
         ∀ l', (getLobbyInfo changed).1 = Some l' →
               heap (getLobbyInfo changed).2 !! l' =
               heap (getLobbyInfo unchanged).2 !! l').
Proof.
  intros Hs. pose proof (reachable_typed _ Hs) as Ht. split.
  - intros Hl. unfold getLobbyInfo. by rewrite Hl.
  - intros l0 Hl0. destruct (typed_lobby s Ht l0 Hl0) as [Hlt Hex].
    destruct (lookup_lt_is_Some_2 (heap s) l0 Hlt) as [li Hli].
    assert (lobby_obj s = Some li) as Hobj by (unfold lobby_obj; by rewrite Hl0).
    exists li, (length (heap s)).
    assert (getLobbyInfo s =
            (Some (length (heap s)),
             set_exported (length (heap s) :: exported s)
                          (set_heap (heap s ++ [li]) s))) as Hg.
    { unfold getLobbyInfo, spread_lobbyInfo. by rewrite Hl0, Hobj. }
    rewrite Hg. cbn [fst snd]. split_and!; try done.
    + lia.
    + by apply lookup_ge_None_2.
    + simpl. rewrite lookup_app_r by done. by rewrite Nat.sub_diag.
    + unfold lobby_obj. simpl. rewrite Hl0. simpl. by rewrite lookup_app_l.
    + by destruct s.
    + intros v es.
      set (s1 := set_exported (length (heap s) :: exported s)
                              (set_heap (heap s ++ [li]) s)) in *.
      set (changed := run es (step (Mutate (length (heap s)) v) s1)).
      set (unchanged := run es s1).
      assert (reachable s1) as Hs1.
      { replace s1 with (step (Call GetLobbyInfo) s);
          [by constructor | simpl; by rewrite Hg]. }
      assert (indistinguishable changed unchanged) as Hsim.
      { apply run_indistinguishable. unfold step.
        case_bool_decide; [|apply indistinguishable_refl].
        split_and!; try done.
        - simpl. by rewrite length_insert.
        - simpl. intros l' Hl'. apply list_lookup_insert_ne.
          intros <-. apply Hl'. by left. }
      assert (typed changed) as Htc.
      { apply reachable_typed, reachable_run. by constructor. }
      pose proof (indistinguishable_fields _ _ Hsim)
        as (_ & Hli' & _ & _ & Hh & Htr & _).
      pose proof (indistinguishable_lobby _ _ Htc Hsim) as Hlo.
      pose proof (getLobbyInfo_indistinguishable _ _ Hsim) as Hsim'.
      pose proof Hsim as (_ & Hx & Hlen & Hag).
      assert ((getLobbyInfo changed).1 = (getLobbyInfo unchanged).1) as Hr.
      { unfold getLobbyInfo. rewrite <- Hli'.
        destruct (_lobbyInfo changed); [|done]. simpl. by rewrite Hlen. }
      split_and!; try done.
      intros l' Hl'. unfold getLobbyInfo in *. rewrite <- Hli' in *.
      destruct (_lobbyInfo changed) as [lc|] eqn:Hlc; [|done].
      simpl in Hl'. injection Hl' as <-. simpl.
      rewrite lookup_app_r by done. rewrite lookup_app_r by (by rewrite Hlen).
      rewrite Hlen, Nat.sub_diag. simpl. unfold spread_lobbyInfo. by rewrite Hlo.
Qed.

Lemma getLobbyInfo_returns_detached_copy_witness :
  ∃ l, (getLobbyInfo in_lobby).1 = Some l ∧
       heap (getLobbyInfo in_lobby).2 !! l = lobby_obj in_lobby ∧
       ∀ v es, trace (run es (step (Mutate l v) (getLobbyInfo in_lobby).2)) =
               trace (run es (getLobbyInfo in_lobby).2).
Proof.
  destruct (proj2 (getLobbyInfo_returns_detached_copy in_lobby
                     (reachable_run _ _ (reachable_init _))) 0 eq_refl)
    as (li & l & Hobj & Hl & _ & _ & Hcopy & _ & _ & Hrun).
  exists l. split; [exact Hl|]. split; [by rewrite Hobj|].
  intros v es. exact (proj1 (proj2 (Hrun v es))).
Defined.

(** * Further properties of the engine *)

(** ** Subscriptions *)

Lemma not_invoked_filtered data (f : user_fn) hs (g : user_fn) :
  fn_ref g = fn_ref f →
  TInvoke (User g) data ∉
    flat_map (invocation data) (List.filter (λ h, negb (same_fn h (User f))) hs).
Proof.
  intros Hg Hin. apply list_elem_of_In, in_flat_map in Hin as (h & Hh & Hin).
  apply filter_In in Hh as [_ Hh]. unfold invocation in Hin.
  destruct Hin as [Heq|Hin].
  - injection Heq as ->. simpl in Hh. rewrite Hg, Nat.eqb_refl in Hh. done.
  - destruct (thrown h data); [|done]. by destruct Hin as [Heq|[]].
Qed.

(** X1.  [off(event, f)] removes every subscription of [f] to [event], how
    often it was subscribed, keeps the other handlers of the event in
    their order and leaves the other events alone; the next [emit] of the
    event calls the handlers that are left and never [f].  For an event
    that nothing ever subscribed to it changes nothing.  The event is not
    a name that objects inherit: for those [_handlers[event]] is not an
    array. *)
Theorem off_removes_every_subscription
    (s : state) (event : string) (f : user_fn) (data : payload) :
  own_key event = true →
  let s' := off event (User f) s in
  let left := List.filter (λ h, negb (same_fn h (User f))) (handlers_of event s) in
  handlers_of event s' = left ∧
  (∀ event', event' ≠ event → handlers_of event' s' = handlers_of event' s) ∧
  trace (emit_ event data s') =
    trace s ++ TEmit event data :: flat_map (invocation data) left ∧
  (∀ g, fn_ref g = fn_ref f →
        TInvoke (User g) data ∉ flat_map (invocation data) left) ∧
  (_handlers s !! event = None → s' = s).
Proof.
  intros _ s' left. split_and!.
  - apply handlers_of_off.
  - intros event' Hne. by apply handlers_of_off_ne.
  - rewrite emit_trace. unfold s'. rewrite handlers_of_off.
    destruct (off_fields event (User f) s) as (_ & _ & _ & _ & _ & _ & -> & _). done.
  - intros g Hg. by apply not_invoked_filtered.
  - intros Hnone. unfold s', off. by rewrite Hnone.
Qed.

Lemma off_removes_every_subscription_witness :
  handlers_of "message"
    (off "message" (User (mkFn 1 (λ _, None)))
       (on "message" (User (mkFn 1 (λ _, None)))
          (on "message" (User (mkFn 0 (λ _, Some "boom")))
             (on "message" (User (mkFn 1 (λ _, None))) (init (λ _, "r"))))))
  = [User (mkFn 0 (λ _, Some "boom"))].
Proof.
  refine (eq_trans
            (proj1 (off_removes_every_subscription
               (on "message" (User (mkFn 1 (λ _, None)))
                  (on "message" (User (mkFn 0 (λ _, Some "boom")))
                     (on "message" (User (mkFn 1 (λ _, None))) (init (λ _, "r")))))
               "message" (mkFn 1 (λ _, None)) PEmpty _)) _).
  - vm_compute. reflexivity.
  - vm_compute. reflexivity.
Defined.

Lemma filter_keeps_all (hs : list handler) (h : handler) :
  (∀ h', h' ∈ hs → same_fn h' h = false) →
  List.filter (λ h', negb (same_fn h' h)) hs = hs.
Proof.
  induction hs as [|h0 hs IH]; intros Hall; [done|]. simpl.
  rewrite (Hall h0) by (by left). simpl. f_equal. apply IH.
  intros h' Hin. apply Hall. by right.
Qed.

(** X2.  Subscribing a function that is not subscribed to the event and
    unsubscribing it again leaves every event with the handlers it had;
    the same holds when it was subscribed twice in between, since one
    [off] removes both.  The event is not a name that objects inherit. *)
Theorem on_then_off_restores_handlers (s : state) (event : string) (f : user_fn) :
  own_key event = true →
  (∀ h, h ∈ handlers_of event s → same_fn h (User f) = false) →
  (∀ event', handlers_of event' (off event (User f) (on event (User f) s))
             = handlers_of event' s) ∧
  (∀ event', handlers_of event'
               (off event (User f) (on event (User f) (on event (User f) s)))
             = handlers_of event' s).
Proof.
  intros _ Hnew.
  assert (List.filter (λ h', negb (same_fn h' (User f))) [User f] = []) as Hself
    by (simpl; by rewrite Nat.eqb_refl).
  split; intros event'; destruct (decide (event' = event)) as [->|Hne].
  - rewrite handlers_of_off, handlers_of_on, List.filter_app, Hself, app_nil_r.
    by apply filter_keeps_all.
  - rewrite handlers_of_off_ne by done. by apply handlers_of_on_ne.
  - rewrite handlers_of_off, !handlers_of_on, !List.filter_app, Hself, !app_nil_r.
    by apply filter_keeps_all.
  - rewrite handlers_of_off_ne by done. rewrite !handlers_of_on_ne by done. done.
Qed.

Lemma on_then_off_restores_handlers_witness :
  handlers_of "message"
    (off "message" (User (mkFn 1 (λ _, None)))
       (on "message" (User (mkFn 1 (λ _, None)))
          (on "message" (User (mkFn 0 (λ _, None))) (init (λ _, "r")))))
  = [User (mkFn 0 (λ _, None))].
Proof.
  refine (proj1 (on_then_off_restores_handlers
            (on "message" (User (mkFn 0 (λ _, None))) (init (λ _, "r")))
            "message" (mkFn 1 (λ _, None)) _ _) "message").
  - vm_compute. reflexivity.
  - intros h Hin. vm_compute in Hin. apply list_elem_of_singleton in Hin. by subst h.
Defined.

(** ** Leaving and disconnecting *)

Lemma ws_open_spec s k :
  ws_open s = Some k ↔ _ws s = Some k ∧ readyState_of k s = Some OPEN.
Proof.
  unfold ws_open, readyState_of.
  destruct (_ws s) as [k'|]; [|split; [done | by intros [? ?]]].
  destruct (sockets s !! k') as [sk|] eqn:Hsk; simpl.
  - destruct (readyState sk) eqn:Hr; split; try done;
      try (intros [[= ->] Hk]; rewrite Hsk in Hk; simpl in Hk; congruence).
    intros [= ->]. by rewrite Hsk, <- Hr.
  - split; [done|]. intros [[= ->] Hk]. by rewrite Hsk in Hk.
Qed.

(** X3.  [leaveLobby()] forgets the lobby at once, whether or not the
    request can be sent: afterwards [getLobbyInfo()] is [null], [isHost()]
    is false and [getPlayers()] is empty.  It keeps the connection and the
    subscriptions, publishes nothing, and logs exactly the [lobby_leave]
    request when the current socket is open and nothing otherwise. *)
Theorem leaveLobby_forgets_the_lobby (s : state) :
  let s' := leaveLobby s in
  getLobbyInfo s' = (None, s') ∧ isHost s' = false ∧ getPlayers s' = [] ∧
  _ws s' = _ws s ∧ isConnected s' = isConnected s ∧ sockets s' = sockets s ∧
  _handlers s' = _handlers s ∧ calls s' = calls s ∧
  (∀ k, _ws s = Some k → readyState_of k s = Some OPEN →
        trace s' = trace s ++ [TSend k lobby_leave]) ∧
  (ws_open s = None → trace s' = trace s).
Proof.
  intros s'. unfold s', leaveLobby, _send. cbv zeta.
  destruct (ws_open s) as [k0|] eqn:Hopen; (split_and!; try done).
  - intros k Hk Hr. apply ws_open_spec in Hopen as [Hk0 _].
    rewrite Hk in Hk0. by injection Hk0 as ->.
  - intros k Hk Hr. by rewrite (proj2 (ws_open_spec s k) (conj Hk Hr)) in Hopen.
Qed.

Lemma ws_open_closed k s : _ws s = Some k → ws_open (set_ws None (ws_close k s)) = None.
Proof. done. Qed.

(** X4.  [disconnect()] closes the current socket when it is connecting
    or open, forgets it and the lobby, and publishes nothing itself.
    Afterwards nothing can be sent: [updateState], [sendMessage],
    [kickFromLobby] and [closeLobby] change nothing and [leaveLobby]
    nothing in the log, and a second [disconnect()] changes nothing. *)
Theorem disconnect_closes_and_silences (s : state) :
  let s' := disconnect s in
  _ws s' = None ∧ isConnected s' = false ∧ getLobbyInfo s' = (None, s') ∧
  isHost s' = false ∧ trace s' = trace s ∧ _handlers s' = _handlers s ∧
  (∀ k, _ws s = Some k →
        readyState_of k s = Some CONNECTING ∨ readyState_of k s = Some OPEN →
        readyState_of k s' = Some CLOSING) ∧
  (∀ k k', _ws s = Some k → k' ≠ k → sockets s' !! k' = sockets s !! k') ∧
  (∀ data event d target,
     updateState data s' = s' ∧ sendMessage event d s' = s' ∧
     kickFromLobby target s' = s' ∧ closeLobby s' = s' ∧
     trace (leaveLobby s') = trace s) ∧
  disconnect s' = s'.
Proof.
  intros s'.
  assert (_ws s' = None) as Hws
    by (unfold s', disconnect; by destruct (_ws s) eqn:E).
  assert (ws_open s' = None) as Hopen by (unfold ws_open; by rewrite Hws).
  assert (_lobbyInfo s' = None) as Hli
    by (unfold s', disconnect; by destruct (_ws s)).
  assert (trace s' = trace s) as Htr.
  { unfold s', disconnect, ws_close. destruct (_ws s) as [k|]; [|done]. simpl.
    by repeat case_match. }
  split_and!; try done.
  - unfold s', disconnect, ws_close. destruct (_ws s) as [k|]; [|done]. simpl.
    by repeat case_match.
  - intros k Hk Hr. unfold s', disconnect, ws_close, readyState_of in *. rewrite Hk.
    simpl. destruct (sockets s !! k) as [sk|] eqn:Hsk; [|by destruct Hr].
    simpl in Hr.
    assert (k < length (sockets s)) by (by eapply lookup_lt_Some).
    destruct (readyState sk); simpl;
      try (by rewrite list_lookup_insert_eq);
      destruct Hr as [[=]|[=]].
  - intros k k' Hk Hne. unfold s', disconnect, ws_close. rewrite Hk. simpl.
    repeat case_match; simpl; try done; by rewrite list_lookup_insert_ne.
  - intros data event d target.
    unfold updateState, sendMessage, kickFromLobby, closeLobby, leaveLobby, _send.
    cbv zeta. by rewrite Hopen.
  - unfold disconnect at 1. rewrite Hws. unfold s', disconnect.
    by destruct (_ws s).
Qed.

(** ** What stays the same over a session *)

Lemma _openWS_playerId serverUrl c s : _playerId (_openWS serverUrl c s) = _playerId s.
Proof.
  unfold _openWS, new_socket, ws_close. repeat case_match; by simplify_eq.
Qed.

(** X5.  The player id is assigned once per session.  [createLobby],
    [joinLobby] and [connect] leave the session with a player id, the one
    it had or a new one of the form ['p_' + random]; [connect] returns
    that id when the host accepts the URL, and throws after the assignment
    when the host refuses it; and from a state with a player id no run of
    the engine changes it. *)
Theorem playerId_is_assigned_once (s : state) :
  reachable s →
  (∀ o, truthy (_playerId (createLobby o s).2) = true) ∧
  (∀ o, truthy (_playerId (joinLobby o s).2) = true) ∧
  (∀ serverUrl roomId username,
     truthy (_playerId (connect serverUrl roomId username s).2) = true ∧
     (refused s serverUrl = false →
      (connect serverUrl roomId username s).1 =
        Normal (_playerId (connect serverUrl roomId username s).2)) ∧
     (refused s serverUrl = true →
      (connect serverUrl roomId username s).1 = Abrupt SyntaxError)) ∧
  (truthy (_playerId s) = false →
   _playerId (assign_playerId s) = Some ("p_" +:+ entropy s (draws s))) ∧
  (truthy (_playerId s) = true → ∀ es, _playerId (run es s) = _playerId s).
Proof.
  intros Hs. pose proof (reachable_typed _ Hs) as Ht. split_and!.
  - intros o. unfold createLobby. cbv zeta. cbn [snd]. rewrite _openWS_playerId.
    apply truthy_assign_playerId.
  - intros o. unfold joinLobby. cbv zeta. cbn [snd]. rewrite _openWS_playerId.
    apply truthy_assign_playerId.
  - intros serverUrl roomId username. unfold connect, new_socket. cbv zeta.
    change (refused (set_roomId ?r (set_username ?u (assign_playerId s))) serverUrl)
      with (refused (assign_playerId s) serverUrl).
    rewrite assign_playerId_refused.
    destruct (refused s serverUrl); cbn [fst snd];
      (split_and!; [apply truthy_assign_playerId | done | done]).
  - intros Hp. unfold assign_playerId. by rewrite Hp.
  - intros Hp es. destruct (run_sound es s Ht) as [_ He].
    by apply (ev_playerId _ _ _ He).
Qed.

Lemma playerId_is_assigned_once_witness :
  _playerId (run [Call (JoinLobby (mkJoin "wss://other" (Some "g2") (Some "L9") None));
                  Call (Connect "wss://room" (Some "r1") (Some "Bea"))]
                 (run lobby_requested (init (λ _, "k3x9q0a"))))
  = Some "p_k3x9q0a".
Proof.
  refine (eq_trans
            (proj2 (proj2 (proj2 (proj2 (playerId_is_assigned_once
               (run lobby_requested (init (λ _, "k3x9q0a")))
               (reachable_run _ _ (reachable_init _))))))
               _
               [Call (JoinLobby (mkJoin "wss://other" (Some "g2") (Some "L9") None));
                Call (Connect "wss://room" (Some "r1") (Some "Bea"))])
            _).
  - vm_compute. reflexivity.
  - vm_compute. reflexivity.
Defined.

(** X7.  The lobby variables change only where the lobby changes: a task
    that is not a lobby message ([lobby_created], [lobby_state],
    [lobby_left], [lobby_kicked], [lobby_closed], [lobby_owner_changed]),
    not the loss of a socket and not a call of [leaveLobby], [disconnect]
    or [getLobbyInfo] leaves [_lobbyInfo], the lobby object and [_isHost]
    as they are.  Calls of [createLobby], [joinLobby], [connect] and
    [_init], player and state messages, server errors, sockets that open
    and timers are such tasks. *)
Theorem lobby_changes_only_by_lobby_events (s : state) (e : event) :
  reachable s → may_lobby (event_perm e) = false →
  _lobbyInfo (step e s) = _lobbyInfo s ∧ lobby_obj (step e s) = lobby_obj s ∧
  isHost (step e s) = isHost s ∧ heap (step e s) = heap s.
Proof.
  intros Hs HR. destruct (step_sound e s (reachable_typed _ Hs)) as [_ He].
  destruct (ev_lobby _ _ _ He HR) as (Hl & Hh & Hi & _).
  unfold lobby_obj, isHost. by rewrite Hl, Hh, Hi.
Qed.

Lemma lobby_changes_only_by_lobby_events_witness :
  lobby_obj (step (Call (CreateLobby (mkCreate "wss://host" (Some "g1") None
                                               (Some "Second") None None)))
                  in_lobby)
  = lobby_obj in_lobby ∧
  isHost (step (SockMessage 0 (Some (error_msg (Some "no")))) in_lobby)
  = isHost in_lobby.
Proof.
  split.
  - exact (proj1 (proj2 (lobby_changes_only_by_lobby_events in_lobby
             (Call (CreateLobby (mkCreate "wss://host" (Some "g1") None
                                          (Some "Second") None None)))
             (reachable_run _ _ (reachable_init _)) eq_refl))).
  - exact (proj1 (proj2 (proj2 (lobby_changes_only_by_lobby_events in_lobby
             (SockMessage 0 (Some (error_msg (Some "no"))))
             (reachable_run _ _ (reachable_init _)) eq_refl)))).
Defined.

(** ** Opening the connection *)

Lemma drain_n_idle n s : jobs s = [] → drain_n n s = s.
Proof. intros Hj. destruct n; simpl; by rewrite ?Hj. Qed.

Lemma drain_one j s : jobs s = [j] → drain s = drain_n 1 (run_job j (set_jobs [] s)).
Proof.
  intros Hj. unfold drain. rewrite Hj. change (2 * length [j]) with 2.
  cbn [drain_n]. by rewrite Hj.
Qed.

Lemma typed_set_jobs js s : typed s → typed (set_jobs js s).
Proof. by apply typed_ext. Qed.

Lemma drain_resumes c s : typed s → jobs s = [JOpened c] → drain s = resume c (set_jobs [] s).
Proof.
  intros Ht Hj. rewrite (drain_one _ _ Hj). apply drain_n_idle.
  cbn [run_job]. rewrite resume_jobs by (by apply typed_set_jobs). done.
Qed.

Lemma drain_rejects c e s :
  typed s → jobs s = [JOpenFailed c e] → phase_of c s = Some AwaitOpen →
  phase_of c (drain s) = Some (Rejected e).
Proof.
  intros Ht Hj Hph. rewrite (drain_one _ _ Hj).
  destruct (pop_sound rejecting _ _ _ eq_refl Hj Ht) as [Ht1 _].
  apply (settled_stays rejecting (run_job (JOpenFailed c e) (set_jobs [] s)));
    [by apply drain_n_sound | | done].
  cbn [run_job]. unfold fail_open, phase_of in *.
  change (calls (set_jobs [] s)) with (calls s).
  destruct (calls s !! c) as [cl|] eqn:Hcl; [|done]. simpl in Hph.
  injection Hph as Hph. rewrite Hph.
  apply (phase_of_settle _ _ _ cl); [done | by rewrite Hph].
Qed.

Lemma ws_close_closes k s :
  readyState_of k (ws_close k s) ≠ Some CONNECTING ∧
  readyState_of k (ws_close k s) ≠ Some OPEN.
Proof.
  unfold ws_close, readyState_of. destruct (sockets s !! k) as [sk|] eqn:Hsk.
  - assert (k < length (sockets s)) by (by eapply lookup_lt_Some).
    destruct (readyState sk) eqn:Hr; simpl;
      rewrite ?list_lookup_insert_eq by done; rewrite ?Hsk; simpl; rewrite ?Hr; done.
  - by rewrite Hsk.
Qed.

(** X8.  A connection that does not open in time fails the call that
    waits for it.  When the timer that [_openWS] set fires while the call
    still waits, the socket is closed and the promise of the call, be it
    of [createLobby], [joinLobby] or [listLobbies], is rejected with
    ['Connection timed out']; the timer cannot fire before its time. *)
Theorem connection_timeout_rejects (s : state) (c t k : nat) (d : N) :
  reachable s →
  timers (drain s) !! t = Some (mkTimer (OpenTimeout k c) d true) →
  phase_of c (drain s) = Some AwaitOpen →
  ((d ≤ now (drain s))%N →
   phase_of c (step (TimerFire t) s) = Some (Rejected TimedOut)) ∧
  ((now (drain s) < d)%N → step (TimerFire t) s = drain s) ∧
  readyState_of k (timeout t (clearTimeout t (drain s))) ≠ Some CONNECTING ∧
  readyState_of k (timeout t (clearTimeout t (drain s))) ≠ Some OPEN.
Proof.
  intros Hs Htm Hph. pose proof (reachable_typed _ Hs) as Ht.
  destruct (drain_sound rejecting s eq_refl Ht) as [Ht0 _].
  pose proof (drain_empties s Ht) as Hj0.
  set (s1 := clearTimeout t (drain s)).
  assert (typed s1) as Ht1 by (by apply (clearTimeout_sound strict)).
  assert (t_kind <$> timers s1 !! t = Some (OpenTimeout k c) ∧
          calls s1 = calls (drain s) ∧ jobs s1 = []) as (Hk1 & Hc1 & Hj1).
  { unfold s1, clearTimeout. rewrite Htm. simpl. split; [|done].
    by rewrite list_lookup_insert_eq by (by eapply lookup_lt_Some). }
  assert (timeout t s1 = enqueue (JOpenFailed c TimedOut) (ws_close k s1)) as Hto
    by (unfold timeout; by rewrite Hk1).
  assert (jobs (ws_close k s1) = [] ∧ calls (ws_close k s1) = calls s1) as [Hj2 Hc2]
    by (unfold ws_close; by repeat case_match).
  split_and!.
  - intros Hd. simpl. unfold timer_due. rewrite Htm. simpl.
    rewrite bool_decide_eq_true_2 by done. fold s1. rewrite Hto.
    apply drain_rejects.
    + apply (enqueue_sound strict), (ws_close_sound strict), Ht1.
    + unfold enqueue. simpl. by rewrite Hj2.
    + unfold phase_of, enqueue. simpl. by rewrite Hc2, Hc1.
  - intros Hd. simpl. unfold timer_due. rewrite Htm. simpl.
    by rewrite bool_decide_eq_false_2 by lia.
  - rewrite Hto. change (readyState_of k (enqueue ?j ?x)) with (readyState_of k x).
    apply ws_close_closes.
  - rewrite Hto. change (readyState_of k (enqueue ?j ?x)) with (readyState_of k x).
    apply ws_close_closes.
Qed.

Lemma connection_timeout_rejects_witness :
  phase_of 0 (step (TimerFire 0)
                (run [Call (JoinLobby (mkJoin "wss://slow" (Some "g1") (Some "L1") None));
                      Elapse 8000]
                     (init (λ _, "k3x9q0a"))))
  = Some (Rejected TimedOut).
Proof.
  refine (proj1 (connection_timeout_rejects
            (run [Call (JoinLobby (mkJoin "wss://slow" (Some "g1") (Some "L1") None));
                  Elapse 8000]
                 (init (λ _, "k3x9q0a")))
            0 0 0 8000%N (reachable_run _ _ (reachable_init _)) _ _) _).
  - vm_compute. reflexivity.
  - vm_compute. reflexivity.
  - vm_compute. discriminate.
Defined.

(** X9.  A connection that fails before it opens fails the call that waits
    for it: when the socket of a waiting call reports an error, the
    promise of the call is rejected with that error. *)
Theorem connection_error_rejects (s : state) (c t k : nat) (r : ready_state) :
  reachable s →
  callbacks_of k (drain s) = Some (Opening c t) →
  readyState_of k (drain s) = Some r → r ≠ CLOSED →
  phase_of c (drain s) = Some AwaitOpen →
  phase_of c (step (SockError k) s) = Some (Rejected TransportError).
Proof.
  intros Hs Hcb Hr Hne Hph. pose proof (reachable_typed _ Hs) as Ht.
  destruct (drain_sound rejecting s eq_refl Ht) as [Ht0 _].
  pose proof (drain_empties s Ht) as Hj0.
  set (s1 := set_readyState k CLOSED (drain s)).
  assert (typed s1) as Ht1 by (by apply (set_readyState_sound strict)).
  assert (callbacks_of k s1 = Some (Opening c t)) as Hcb1.
  { unfold s1, set_readyState, callbacks_of in *. simpl.
    rewrite list_lookup_alter_eq. by destruct (sockets (drain s) !! k). }
  set (s2 := onerror k s1).
  assert (s2 = enqueue (JOpenFailed c TransportError) (clearTimeout t s1)) as Hs2
    by (unfold s2, onerror; by rewrite Hcb1).
  assert (typed s2) as Ht2 by (by apply (onerror_sound rejecting)).
  assert (jobs (clearTimeout t s1) = [] ∧ calls (clearTimeout t s1) = calls (drain s))
    as [Hj1 Hc1] by (unfold clearTimeout; by case_match).
  assert (phase_of c (drain s2) = Some (Rejected TransportError)) as Hrej.
  { apply drain_rejects; [done | |].
    - rewrite Hs2. unfold enqueue. simpl. by rewrite Hj1.
    - rewrite Hs2. unfold phase_of, enqueue. simpl. by rewrite Hc1. }
  assert (typed (drain s2)) as Ht3 by (by apply (drain_sound rejecting)).
  assert (sound free (drain s2) (drain (onclose k (drain s2)))) as Hrest.
  { eapply sound_trans; [by apply onclose_sound | by apply drain_sound]. }
  assert (step (SockError k) s = drain (onclose k (drain s2))) as ->.
  { simpl. rewrite Hr. by destruct r. }
  apply (settled_stays free (drain s2)); [by apply Hrest | done | done].
Qed.

Lemma connection_error_rejects_witness :
  phase_of 0 (step (SockError 0)
                (run [Call (CreateLobby (mkCreate "wss://down" (Some "g1") None None
                                                  None None))]
                     (init (λ _, "k3x9q0a"))))
  = Some (Rejected TransportError).
Proof.
  refine (connection_error_rejects
            (run [Call (CreateLobby (mkCreate "wss://down" (Some "g1") None None
                                              None None))]
                 (init (λ _, "k3x9q0a")))
            0 0 0 CONNECTING (reachable_run _ _ (reachable_init _)) _ _ _ _).
  - vm_compute. reflexivity.
  - vm_compute. reflexivity.
  - discriminate.
  - vm_compute. reflexivity.
Defined.

Lemma joinLobby_resume_sends c gameId lobbyId k s :
  ws_open s = Some k →
  last (trace (joinLobby_resume c gameId lobbyId s)) =
  Some (TSend k (lobby_join gameId lobbyId (_playerId s) (_username s))).
Proof.
  intros Hk. unfold joinLobby_resume. cbv zeta.
  set (s1 := emit_ "connected" (PConnected (_playerId s)) s).
  assert (frame_emit s s1) as Hf by apply emit_frame.
  pose proof Hf as (_ & _ & Hp & Hu & _).
  assert (ws_open (on "error" (onErr_join c) (on "lobbyJoined" (onJoined c) s1))
          = Some k) as Hk'.
  { rewrite <- Hk. apply ws_open_frame.
    eapply frame_emit_trans; [exact Hf|].
    eapply frame_emit_trans; apply on_frame. }
  unfold _send. rewrite Hk'. unfold log. simpl. rewrite last_snoc.
  change (_playerId (on "error" (onErr_join c) (on "lobbyJoined" (onJoined c) s1)))
    with (_playerId s1).
  change (_username (on "error" (onErr_join c) (on "lobbyJoined" (onJoined c) s1)))
    with (_username s1).
  by rewrite Hp, Hu.
Qed.

Lemma listLobbies_resume_sends c gameId k s :
  ws_open s = Some k →
  last (trace (listLobbies_resume c gameId s)) = Some (TSend k (lobby_list_request gameId)).
Proof.
  intros Hk. unfold listLobbies_resume, _send. cbv zeta.
  change (ws_open (on "lobbyList" (onList c) s)) with (ws_open s). rewrite Hk.
  simpl. by rewrite last_snoc.
Qed.

(** What the rest of an async function leaves alone. *)
Lemma resume_fields c s :
  _ws (resume c s) = _ws s ∧ _connected (resume c s) = _connected s ∧
  sockets (resume c s) = sockets s ∧ _playerId (resume c s) = _playerId s ∧
  _username (resume c s) = _username s ∧
  (∀ t tm, timers s !! t = Some tm → timers (resume c s) !! t = Some tm).
Proof.
  unfold resume. destruct (calls s !! c) as [cl|]; [|done].
  destruct (c_phase cl); try done.
  destruct (c_kind cl) as [g l n m|g l|g].
  - assert (frame_emit s (createLobby_resume c g l n m s)) as Hf.
    { unfold createLobby_resume, _send. cbv zeta.
      eapply frame_emit_trans; [apply emit_frame|].
      eapply frame_emit_trans; [apply on_frame|].
      eapply frame_emit_trans; [apply on_frame|].
      case_match; [apply log_frame | apply frame_emit_refl]. }
    destruct Hf as (H1 & H2 & H3 & H4 & _ & _ & _ & _ & _ & _ & _ & H5 & H6 & _).
    simpl. rewrite H1, H2, H3, H4, H5, H6. done.
  - assert (frame_emit s (joinLobby_resume c g l s)) as Hf.
    { unfold joinLobby_resume, _send. cbv zeta.
      eapply frame_emit_trans; [apply emit_frame|].
      eapply frame_emit_trans; [apply on_frame|].
      eapply frame_emit_trans; [apply on_frame|].
      case_match; [apply log_frame | apply frame_emit_refl]. }
    destruct Hf as (H1 & H2 & H3 & H4 & _ & _ & _ & _ & _ & _ & _ & H5 & H6 & _).
    simpl. rewrite H1, H2, H3, H4, H5, H6. done.
  - unfold listLobbies_resume, _send. cbv zeta.
    case_match; simpl; split_and!; try done;
      intros t tm Htm; by apply lookup_app_l_Some.
Qed.

Lemma settle_calls_length c p s : length (calls (settle c p s)) = length (calls s).
Proof. unfold settle. repeat case_match; simpl; by rewrite ?length_alter. Qed.

Lemma guarded_call_calls_length fn data s :
  length (calls (try_catch (call_fn fn data) console_error s).2) = length (calls s).
Proof.
  unfold try_catch, call_fn, resolve, reject. cbv zeta.
  destruct fn as [f| | | | |]; simpl;
    rewrite ?settle_calls_length, ?(proj1 (off_fields _ _ _)); try done.
  by destruct (fn_body f data).
Qed.

Lemma emit_calls_length event data s :
  length (calls (emit_ event data s)) = length (calls s).
Proof.
  unfold emit_, emit.
  change (length (calls s)) with (length (calls (log (TEmit event data) s))).
  generalize (log (TEmit event data) s). generalize (handlers_of event s).
  intros hs. induction hs as [|h hs IH]; intros s0; [done|].
  rewrite forEach_cons, IH. apply guarded_call_calls_length.
Qed.

Lemma resume_requests c cl k s :
  calls s !! c = Some cl → c_phase cl = AwaitOpen → ws_open s = Some k →
  last (trace (resume c s)) = Some (TSend k (request_of (c_kind cl) s)) ∧
  phase_of c (resume c s) = Some Handshake.
Proof.
  intros Hcl Hph Hk. unfold resume. rewrite Hcl, Hph. split.
  - change (trace (set_phase c Handshake ?x)) with (trace x).
    destruct (c_kind cl); simpl;
      [by apply createLobby_resume_sends | by apply joinLobby_resume_sends
      | by apply listLobbies_resume_sends].
  - unfold phase_of, set_phase. simpl. rewrite list_lookup_alter_eq.
    pose proof (lookup_lt_Some _ _ _ Hcl) as Hlt.
    match goal with |- context [calls ?x !! c] =>
      assert (length (calls x) = length (calls s)) as Hlen
    end.
    { destruct (c_kind cl) as [g l n m|g l|g].
      - unfold createLobby_resume, _send. cbv zeta.
        case_match; simpl; apply emit_calls_length.
      - unfold joinLobby_resume, _send. cbv zeta.
        case_match; simpl; apply emit_calls_length.
      - by rewrite (proj1 (listLobbies_resume_calls c g s)). }
    match goal with |- context [calls ?x !! c] =>
      destruct (lookup_lt_is_Some_2 (calls x) c) as [cl' ->]; [lia | done]
    end.
Qed.

(** X10.  When the socket of a waiting call opens, the call goes on in the
    same task: the socket becomes the current one, the session is
    connected, the timer of the connection is cleared, and the request of
    the call is the last thing sent, on that socket: [lobby_create],
    [lobby_join] or [lobby_list] with the arguments of the call and the
    player id and username of the session.  The promise is then pending
    until the server answers. *)
Theorem open_socket_starts_the_handshake (s : state) (c t k : nat) (cl : call) :
  reachable s →
  callbacks_of k (drain s) = Some (Opening c t) →
  readyState_of k (drain s) = Some CONNECTING →
  calls (drain s) !! c = Some cl → c_phase cl = AwaitOpen →
  let s' := step (SockOpen k) s in
  _ws s' = Some k ∧ isConnected s' = true ∧
  readyState_of k s' = Some OPEN ∧ callbacks_of k s' = Some Managed ∧
  (∀ tm, timers (drain s) !! t = Some tm →
         timers s' !! t = Some (mkTimer (t_kind tm) (t_deadline tm) false)) ∧
  last (trace s') = Some (TSend k (request_of (c_kind cl) (drain s))) ∧
  phase_of c s' = Some Handshake.
Proof.
  intros Hs Hcb Hr Hcl Hph. pose proof (reachable_typed _ Hs) as Ht.
  destruct (drain_sound rejecting s eq_refl Ht) as [Ht0 _].
  pose proof (drain_empties s Ht) as Hj0.
  set (s0 := drain s) in *.
  set (s1 := set_readyState k OPEN s0).
  assert (typed s1) as Ht1 by (by apply (set_readyState_sound strict)).
  assert (callbacks_of k s1 = Some (Opening c t)) as Hcb1.
  { unfold s1, set_readyState, callbacks_of in *. simpl.
    rewrite list_lookup_alter_eq. by destruct (sockets s0 !! k). }
  set (s2 := set_callbacks k Managed
               (set_connected true (set_ws (Some k) (clearTimeout t s1)))).
  assert (onopen k s1 = enqueue (JOpened c) s2) as Hop
    by (unfold onopen; by rewrite Hcb1).
  assert (typed (onopen k s1)) as Ht2 by (by apply (onopen_sound strict)).
  assert (sockets (clearTimeout t s1) = sockets s1 ∧
          jobs (clearTimeout t s1) = [] ∧ calls (clearTimeout t s1) = calls s0 ∧
          _playerId (clearTimeout t s1) = _playerId s0 ∧
          _username (clearTimeout t s1) = _username s0 ∧
          (∀ tm, timers s0 !! t = Some tm →
                 timers (clearTimeout t s1) !! t =
                 Some (mkTimer (t_kind tm) (t_deadline tm) false)))
    as (Hso & Hjc & Hcc & Hpc & Huc & Htc).
  { unfold clearTimeout. change (timers s1) with (timers s0).
    destruct (timers s0 !! t) as [tm|] eqn:Htm; [|done]. split_and!; try done.
    intros tm' [= <-]. simpl.
    by rewrite list_lookup_insert_eq by (by eapply lookup_lt_Some). }
  assert (set_jobs [] (enqueue (JOpened c) s2) = s2) as Hpop.
  { unfold enqueue, s2, set_callbacks. simpl. rewrite Hjc.
    destruct (clearTimeout t s1). simpl in *. by subst. }
  assert (sockets s2 !! k = Some (mkSocket (default "" (url <$> sockets s0 !! k))
                                           OPEN Managed)) as Hsk.
  { unfold s2, set_callbacks. simpl. rewrite Hso. unfold s1, set_readyState. simpl.
    rewrite !list_lookup_alter_eq. unfold readyState_of in Hr.
    by destruct (sockets s0 !! k). }
  assert (ws_open s2 = Some k) as Hopen.
  { apply ws_open_spec. split; [done|]. unfold readyState_of. by rewrite Hsk. }
  assert (step (SockOpen k) s = resume c s2) as Hstep.
  { simpl. fold s0. rewrite Hr. fold s1. rewrite Hop.
    rewrite (drain_resumes c); [by rewrite Hpop | by rewrite <- Hop |].
    unfold enqueue, s2, set_callbacks. simpl. by rewrite Hjc. }
  intros s'. unfold s'. rewrite Hstep.
  destruct (resume_fields c s2) as (Hw & Hco & Hsoc & Hp & Hu & Htm).
  destruct (resume_requests c cl k s2) as [Hlast Hhs];
    [change (calls s2) with (calls (clearTimeout t s1)); by rewrite Hcc | done.. |].
  unfold isConnected, readyState_of, callbacks_of.
  rewrite Hw, Hco, Hsoc, Hsk. split_and!; try done.
  - intros tm Htm0. apply Htm. unfold s2, set_callbacks. simpl. by apply Htc.
  - rewrite Hlast. do 2 f_equal. unfold request_of.
    change (_playerId s2) with (_playerId (clearTimeout t s1)).
    change (_username s2) with (_username (clearTimeout t s1)).
    by rewrite Hpc, Huc.
Qed.

Lemma open_socket_starts_the_handshake_witness :
  last (trace (step (SockOpen 0)
                 (run [Call (JoinLobby (mkJoin "wss://host" (Some "g1") (Some "L1")
                                               (Some "Ann")))]
                      (init (λ _, "k3x9q0a")))))
  = Some (TSend 0 (lobby_join (Some "g1") (Some "L1") (Some "p_k3x9q0a") "Ann")).
Proof.
  refine (eq_trans
            (proj1 (proj2 (proj2 (proj2 (proj2 (proj2
               (open_socket_starts_the_handshake
                  (run [Call (JoinLobby (mkJoin "wss://host" (Some "g1") (Some "L1")
                                                (Some "Ann")))]
                       (init (λ _, "k3x9q0a")))
                  0 0 0 (mkCall (JoinCall (Some "g1") (Some "L1")) AwaitOpen None)
                  (reachable_run _ _ (reachable_init _)) _ _ _ eq_refl))))))) _).
  - vm_compute. reflexivity.
  - vm_compute. reflexivity.
  - vm_compute. reflexivity.
  - vm_compute. reflexivity.
Defined.

Lemma pop_enqueued j s : jobs s = [] → set_jobs [] (enqueue j s) = s.
Proof. intros Hj. unfold enqueue. destruct s. simpl in *. by subst. Qed.

(** A call on an open connection: its [await] returns in the microtask
    checkpoint of the task that made the call. *)
Lemma _openWS_reuses serverUrl c kind k s :
  typed s → ws_open s = Some k → jobs s = [] →
  calls s !! c = Some (mkCall kind AwaitOpen None) →
  sockets (_openWS serverUrl c s) = sockets s ∧
  timers (_openWS serverUrl c s) = timers s ∧
  _ws (_openWS serverUrl c s) = _ws s ∧
  last (trace (drain (_openWS serverUrl c s))) = Some (TSend k (request_of kind s)) ∧
  phase_of c (drain (_openWS serverUrl c s)) = Some Handshake.
Proof.
  intros Ht Hk Hj Hcl. unfold _openWS. rewrite Hk. split_and!; try done.
  - rewrite (drain_resumes c);
      [| by apply (enqueue_sound strict) | unfold enqueue; simpl; by rewrite Hj].
    rewrite pop_enqueued by done.
    by destruct (resume_requests c _ k s Hcl eq_refl Hk) as [-> _].
  - rewrite (drain_resumes c);
      [| by apply (enqueue_sound strict) | unfold enqueue; simpl; by rewrite Hj].
    rewrite pop_enqueued by done.
    by destruct (resume_requests c _ k s Hcl eq_refl Hk) as [_ ->].
Qed.

Lemma _openWS_username serverUrl c s : _username (_openWS serverUrl c s) = _username s.
Proof.
  unfold _openWS, new_socket, ws_close. repeat case_match; by simplify_eq.
Qed.

Lemma assign_playerId_frame s :
  _ws (assign_playerId s) = _ws s ∧ sockets (assign_playerId s) = sockets s ∧
  timers (assign_playerId s) = timers s ∧ jobs (assign_playerId s) = jobs s ∧
  calls (assign_playerId s) = calls s ∧ ws_open (assign_playerId s) = ws_open s.
Proof. unfold assign_playerId. by case_match. Qed.

(** X11.  While a socket is open the lobby calls reuse it.  [createLobby],
    [joinLobby] and [listLobbies] then make no socket and set no timer,
    and their request goes out on the open socket when the task that made
    the call ends. *)
Theorem open_socket_is_reused (s : state) (k : nat) :
  reachable s → ws_open s = Some k → jobs s = [] →
  (∀ o, let s1 := (createLobby o s).2 in
        sockets s1 = sockets s ∧ timers s1 = timers s ∧ _ws s1 = _ws s ∧
        last (trace (step Yield s1)) =
        Some (TSend k (lobby_create (co_gameId o) (or_undefined (co_lobbyId o))
                                    (default "My Lobby" (co_lobbyName o))
                                    (default 8%Z (co_maxPlayers o))
                                    (_playerId s1) (_username s1)))) ∧
  (∀ o, let s1 := (joinLobby o s).2 in
        sockets s1 = sockets s ∧ timers s1 = timers s ∧ _ws s1 = _ws s ∧
        last (trace (step Yield s1)) =
        Some (TSend k (lobby_join (jo_gameId o) (jo_lobbyId o)
                                  (_playerId s1) (_username s1)))) ∧
  (∀ serverUrl gameId,
        let s1 := (listLobbies serverUrl gameId s).2 in
        sockets s1 = sockets s ∧ timers s1 = timers s ∧ _ws s1 = _ws s ∧
        last (trace (step Yield s1)) = Some (TSend k (lobby_list_request gameId))).
Proof.
  intros Hs Hk Hj. pose proof (reachable_typed _ Hs) as Ht.
  destruct (assign_playerId_frame s) as (Hw & Hso & Hti & Hjo & Hca & Hop).
  split_and!.
  - intros o s1. unfold s1, createLobby. cbv zeta. cbn [snd].
    set (kind := CreateCall (co_gameId o) (co_lobbyId o)
                            (default "My Lobby" (co_lobbyName o))
                            (default 8%Z (co_maxPlayers o))).
    set (s0 := new_call kind
                 (set_gameId (co_gameId o)
                    (set_username (or_str (co_username o) (_username (assign_playerId s)))
                       (assign_playerId s)))).
    change (length (calls (set_gameId _ (set_username _ (assign_playerId s)))))
      with (length (calls (assign_playerId s))).
    rewrite _openWS_playerId.
    destruct (_openWS_reuses (co_serverUrl o) (length (calls (assign_playerId s)))
                kind k s0) as (H1 & H2 & H3 & H4 & _).
    + unfold s0. apply (new_call_sound strict); [intros _; apply truthy_assign_playerId|].
      apply (set_gameId_sound strict), (set_username_sound strict),
        (assign_playerId_sound strict), Ht.
    + change (ws_open s0) with (ws_open (assign_playerId s)). by rewrite Hop.
    + change (jobs s0) with (jobs (assign_playerId s)). by rewrite Hjo.
    + unfold s0, new_call. simpl. rewrite lookup_app_r by done.
      by rewrite Nat.sub_diag.
    + rewrite H1, H2, H3. change (step Yield ?x) with (drain x). rewrite H4.
      split_and!; try done.
      assert (_username (_openWS (co_serverUrl o)
                           (length (calls (assign_playerId s))) s0) = _username s0) as ->
        by apply _openWS_username.
      done.
  - intros o s1. unfold s1, joinLobby. cbv zeta. cbn [snd].
    set (kind := JoinCall (jo_gameId o) (jo_lobbyId o)).
    set (s0 := new_call kind
                 (set_gameId (jo_gameId o)
                    (set_username (or_str (jo_username o) (_username (assign_playerId s)))
                       (assign_playerId s)))).
    change (length (calls (set_gameId _ (set_username _ (assign_playerId s)))))
      with (length (calls (assign_playerId s))).
    rewrite _openWS_playerId.
    destruct (_openWS_reuses (jo_serverUrl o) (length (calls (assign_playerId s)))
                kind k s0) as (H1 & H2 & H3 & H4 & _).
    + unfold s0. apply (new_call_sound strict); [intros _; apply truthy_assign_playerId|].
      apply (set_gameId_sound strict), (set_username_sound strict),
        (assign_playerId_sound strict), Ht.
    + change (ws_open s0) with (ws_open (assign_playerId s)). by rewrite Hop.
    + change (jobs s0) with (jobs (assign_playerId s)). by rewrite Hjo.
    + unfold s0, new_call. simpl. rewrite lookup_app_r by done.
      by rewrite Nat.sub_diag.
    + rewrite H1, H2, H3. change (step Yield ?x) with (drain x). rewrite H4.
      split_and!; try done.
      assert (_username (_openWS (jo_serverUrl o)
                           (length (calls (assign_playerId s))) s0) = _username s0) as ->
        by apply _openWS_username.
      done.
  - intros serverUrl gameId s1. unfold s1, listLobbies. cbv zeta. cbn [snd].
    destruct (_openWS_reuses serverUrl (length (calls s)) (ListCall gameId) k
                (new_call (ListCall gameId) s)) as (H1 & H2 & H3 & H4 & _); try done.
    + by apply (new_call_sound strict).
    + unfold new_call. simpl. rewrite lookup_app_r by done. by rewrite Nat.sub_diag.
Qed.

Lemma open_socket_is_reused_witness :
  last (trace (step Yield
                 (listLobbies "wss://host" (Some "g1")
                    (run (lobby_requested ++ [lobby_granted])
                         (init (λ _, "k3x9q0a")))).2))
  = Some (TSend 0 (lobby_list_request (Some "g1"))).
Proof.
  refine (proj2 (proj2 (proj2 (proj2 (proj2 (open_socket_is_reused
            (run (lobby_requested ++ [lobby_granted]) (init (λ _, "k3x9q0a"))) 0
            (reachable_run _ _ (reachable_init _)) _ _))
            "wss://host" (Some "g1"))))).
  - vm_compute. reflexivity.
  - vm_compute. reflexivity.
Defined.

Lemma open_sockets_app (P : nat → bool) n :
  List.filter P (seq 0 (S n)) = List.filter P (seq 0 n) ++ (if P n then [n] else []).
Proof. rewrite seq_S, List.filter_app. simpl. by destruct (P n). Qed.

(** X12.  Without an open socket [_openWS] starts over: it closes the
    current socket if there is one and forgets it, and the sockets that
    are open are the same as before.  On a host that accepts the URL it
    makes one new socket to the given server and sets the timer of the
    connection 8000 ms ahead, and nothing is queued: the promise settles
    when the new socket opens, fails or times out.  On a host that refuses
    the URL there is no new socket and no timer, and the rejection of the
    promise with the exception of the constructor is what the executor
    leaves behind. *)
Theorem openWS_replaces_a_stale_socket (s : state) (serverUrl : string) (c : nat) :
  ws_open s = None →
  let s' := _openWS serverUrl c s in
  _ws s' = None ∧
  (∀ k, _ws s = Some k → is_Some (sockets s !! k) →
        readyState_of k s' ≠ Some CONNECTING ∧ readyState_of k s' ≠ Some OPEN) ∧
  open_sockets s' = open_sockets s ∧
  (refused s serverUrl = false →
   length (sockets s') = S (length (sockets s)) ∧
   sockets s' !! length (sockets s) =
     Some (mkSocket serverUrl CONNECTING (Opening c (length (timers s)))) ∧
   timers s' = timers s ++ [mkTimer (OpenTimeout (length (sockets s)) c)
                                    (now s + 8000) true] ∧
   trace s' = trace s ++ [TNewSocket (length (sockets s)) serverUrl] ∧
   jobs s' = jobs s) ∧
  (refused s serverUrl = true →
   length (sockets s') = length (sockets s) ∧ timers s' = timers s ∧
   trace s' = trace s ∧
   jobs s' = jobs s ++ [JOpenFailed c SyntaxError]).
Proof.
  intros Hopen s'. unfold s', _openWS. rewrite Hopen. cbv zeta.
  set (s1 := match _ws s with
             | Some k => set_ws None (ws_close k s)
             | None => s
             end).
  assert (_ws s1 = None ∧ length (sockets s1) = length (sockets s) ∧
          timers s1 = timers s ∧ now s1 = now s ∧ jobs s1 = jobs s ∧
          trace s1 = trace s ∧ refused s1 = refused s ∧
          (∀ k, _ws s = Some k →
                readyState_of k s1 ≠ Some CONNECTING ∧ readyState_of k s1 ≠ Some OPEN) ∧
          (∀ i, (readyState_of i s1 = Some OPEN) ↔ (readyState_of i s = Some OPEN)))
    as (Hw & Hlen & Hti & Hnow & Hj & Htr & Hre & Hcl & Hsame).
  { unfold s1. destruct (_ws s) as [k|] eqn:Hk; [|by split_and!].
    assert (readyState_of k s ≠ Some OPEN) as Hnot.
    { intros Hr. by rewrite (proj2 (ws_open_spec s k) (conj Hk Hr)) in Hopen. }
    pose proof (ws_close_closes k s) as [Hc1 Hc2].
    split_and!; try done.
    - unfold ws_close. simpl. repeat case_match; simpl; by rewrite ?length_insert.
    - unfold ws_close. by repeat case_match.
    - unfold ws_close. by repeat case_match.
    - unfold ws_close. by repeat case_match.
    - unfold ws_close. by repeat case_match.
    - unfold ws_close. by repeat case_match.
    - by intros ? [= <-].
    - intros i. change (readyState_of i (set_ws None ?x)) with (readyState_of i x).
      destruct (decide (i = k)) as [->|Hne]; [tauto|].
      unfold ws_close, readyState_of. repeat case_match; simpl; try done;
        by rewrite list_lookup_insert_ne. }
  assert (open_sockets s1 = open_sockets s) as Hos.
  { unfold open_sockets. rewrite Hlen. apply List.filter_ext_in. intros i _.
    pose proof (Hsame i) as Hi'. unfold readyState_of in *.
    destruct (sockets s1 !! i) as [[u [] r]|]; destruct (sockets s !! i) as [[u' [] r']|];
      simpl in *; try done; destruct Hi' as [Ha Hb];
      first [by specialize (Hb eq_refl) | by specialize (Ha eq_refl)]. }
  unfold new_socket. rewrite Hre.
  destruct (refused s serverUrl) eqn:Hr.
  - (* the constructor throws *)
    unfold enqueue. simpl. rewrite Hj. split_and!; try done.
    intros k Hk _. apply (Hcl k Hk).
  - unfold setTimeout, log. simpl. rewrite Hlen, Hti, Hnow, Htr.
    split_and!; try done.
    + intros k Hk Hsk. unfold readyState_of. simpl.
      destruct (Hcl k Hk) as [H1 H2]. unfold readyState_of in H1, H2.
      apply lookup_lt_is_Some in Hsk. by rewrite lookup_app_l by lia.
    + rewrite <- Hos. unfold open_sockets. simpl.
      rewrite length_app, Nat.add_1_r. simpl length.
      rewrite open_sockets_app.
      assert (readyState_of (length (sockets s1))
                (set_timers (timers s ++ [mkTimer (OpenTimeout (length (sockets s)) c)
                                                  (now s + 8000) true])
                   (set_trace (trace s ++ [TNewSocket (length (sockets s)) serverUrl])
                      (set_sockets (sockets s1 ++
                         [mkSocket serverUrl CONNECTING (Opening c (length (timers s)))])
                         s1))) = Some CONNECTING) as Hnew.
      { unfold readyState_of. simpl. rewrite lookup_app_r by done.
        by rewrite Nat.sub_diag. }
      rewrite Hnew, app_nil_r.
      apply List.filter_ext_in. intros i Hi. apply in_seq in Hi.
      unfold readyState_of. simpl. by rewrite lookup_app_l by lia.
    + intros _. split_and!; try done.
      * by rewrite length_app, Hlen, Nat.add_1_r.
      * rewrite lookup_app_r by lia. by rewrite Hlen, Nat.sub_diag.
Qed.

Lemma openWS_replaces_a_stale_socket_witness :
  open_sockets (_openWS "wss://two" 0
                  (run [Call (Connect "wss://one" (Some "r1") None)]
                       (init (λ _, "k3x9q0a"))))
  = [] ∧
  readyState_of 0 (_openWS "wss://two" 0
                     (run [Call (Connect "wss://one" (Some "r1") None)]
                          (init (λ _, "k3x9q0a"))))
  ≠ Some CONNECTING.
Proof.
  pose proof (openWS_replaces_a_stale_socket
                (run [Call (Connect "wss://one" (Some "r1") None)]
                     (init (λ _, "k3x9q0a")))
                "wss://two" 0 eq_refl) as (_ & Hstale & Hopen & _).
  split.
  - exact (eq_trans Hopen eq_refl).
  - exact (proj1 (Hstale 0 eq_refl (ex_intro _ _ eq_refl))).
Defined.

(** ** The player table *)

Lemma load_players_snoc ps p :
  load_players (Some (ps ++ [p])) = assign (key (p_id p)) p (load_players (Some ps)).
Proof. unfold load_players. simpl. by rewrite foldl_app. Qed.

Lemma load_players_lookup ps k :
  k ≠ "__proto__" →
  load_players (Some ps) !! k =
  last (List.filter (λ p, bool_decide (key (p_id p) = k)) ps).
Proof.
  intros Hk. induction ps as [|p ps IH] using rev_ind; [done|].
  rewrite load_players_snoc, List.filter_app. simpl. unfold assign.
  case_decide as Hp.
  - rewrite bool_decide_false by congruence. by rewrite app_nil_r.
  - case_bool_decide as Hk'.
    + rewrite Hk', table_lookup_insert_eq. by rewrite last_snoc.
    + rewrite table_lookup_insert_ne by done. by rewrite app_nil_r.
Qed.

Lemma load_players_proto ps : load_players (Some ps) !! "__proto__" = None.
Proof.
  induction ps as [|p ps IH] using rev_ind; [done|].
  rewrite load_players_snoc. unfold assign. case_decide as Hp; [done|].
  by rewrite table_lookup_insert_ne.
Qed.

(** Players with distinct ids, none of them an array index or
    [__proto__], are listed in the order of the message. *)
Lemma load_players_props ps :
  NoDup (key ∘ p_id <$> ps) →
  Forall (λ p, array_index (key (p_id p)) = None ∧ key (p_id p) ≠ "__proto__") ps →
  props (load_players (Some ps)) = (λ p, (key (p_id p), p)) <$> ps.
Proof.
  induction ps as [|p ps IH] using rev_ind; [done|]. intros Hnd Hall.
  rewrite fmap_app in Hnd. apply NoDup_app in Hnd as (Hnd & Hnew & _).
  apply Forall_app in Hall as [Hall Hp]. apply Forall_singleton in Hp as [Hi Hp].
  rewrite load_players_snoc, fmap_app. unfold assign.
  case_decide; [done|]. unfold insert, table_insert. simpl.
  rewrite IH by done.
  rewrite assoc_absent.
  - by apply place_last.
  - rewrite <- list_fmap_compose. intros Hin. apply (Hnew _ Hin).
    apply list_elem_of_singleton. done.
Qed.

(** X13.  A snapshot replaces the player table.  After [room_state] or
    [lobby_state] the table holds the players of the message and nobody
    else, whoever was there before: under an id other than [__proto__] the
    entry is the last player of the message with that id, a player with
    the id [__proto__] gets no entry, and a message without [players]
    empties the table.  [getPlayers()] lists the entries with the array
    indices first, in ascending order, and then the other ids in the order
    in which the message first names them: players with distinct ids, none
    of them an array index or [__proto__], are listed as the message has
    them.  [roomState] and [lobbyJoined] are published with that list. *)
Theorem snapshot_replaces_the_player_table
    (s : state) (players : option (list player))
    (lobbyId lobbyName : option string) (isPublic : option bool)
    (ownerId : option string) (maxPlayers : option Z) :
  let room := _handleMessage (room_state players) s in
  let lobby := _handleMessage
                 (lobby_state lobbyId lobbyName isPublic ownerId maxPlayers players) s in
  (∀ k, k ≠ "__proto__" →
        _players room !! k =
        last (List.filter (λ p, bool_decide (key (p_id p) = k)) (default [] players))) ∧
  _players room !! "__proto__" = None ∧
  _players lobby = _players room ∧
  (players = None → getPlayers room = [] ∧ getPlayers lobby = []) ∧
  (NoDup (key ∘ p_id <$> default [] players) →
   Forall (λ p, array_index (key (p_id p)) = None ∧ key (p_id p) ≠ "__proto__")
          (default [] players) →
   getPlayers room = default [] players) ∧
  (∀ a b c d,
     players = Some [mkPlayer (Some "b") a None; mkPlayer (Some "10") b None;
                     mkPlayer (Some "a") c None; mkPlayer (Some "9") d None;
                     mkPlayer (Some "b") d None] →
     getPlayers room = [mkPlayer (Some "9") d None; mkPlayer (Some "10") b None;
                        mkPlayer (Some "b") d None; mkPlayer (Some "a") c None]) ∧
  trace room = trace s ++ TEmit "roomState" (PRoomState (getPlayers room))
                       :: flat_map (invocation (PRoomState (getPlayers room)))
                                   (handlers_of "roomState" s) ∧
  trace lobby = trace s ++
    TEmit "lobbyJoined" (PLobbyJoined lobbyId lobbyName ownerId (getPlayers lobby))
    :: flat_map (invocation (PLobbyJoined lobbyId lobbyName ownerId (getPlayers lobby)))
                (handlers_of "lobbyJoined" s).
Proof.
  intros room lobby.
  assert (_players room = load_players players) as Hr
    by (unfold room, _handleMessage; cbv zeta; by rewrite emit_players).
  assert (_players lobby = load_players players) as Hl
    by (unfold lobby, _handleMessage; cbv zeta; by rewrite emit_players).
  unfold getPlayers. rewrite Hr, Hl. split_and!.
  - intros k Hk. destruct players as [ps|]; [by apply load_players_lookup | done].
  - destruct players as [ps|]; [apply load_players_proto | done].
  - done.
  - by intros ->.
  - intros Hnd Hall. destruct players as [ps|]; [|done]. simpl in *.
    unfold Object_values. rewrite load_players_props by done.
    rewrite <- list_fmap_compose. apply list_fmap_id.
  - by intros a b c d ->.
  - unfold room, _handleMessage. cbv zeta. by rewrite emit_trace.
  - unfold lobby, _handleMessage. cbv zeta. by rewrite emit_trace.
Qed.

(** X14.  A player that joins and leaves.  [lobby_player_joined] and
    [player_joined] put the player in the table with empty data, also when
    an entry with data was there; [lobby_player_left] and [player_left]
    take the entry out and publish [playerLeft] with the username that the
    table had, none for an id that is not in the table.  For an id that
    was not in the table, joining and leaving gives the table back.  The
    id is not a name that objects inherit: not one of the names of
    [Object.prototype], and not [id], [username] or [data] once a message
    for the id [__proto__] has touched the prototypes. *)
Theorem player_joins_and_leaves
    (s : state) (playerId username reason : option string) :
  own_key (key playerId) = true → followed (key playerId) s →
  let joined := _handleMessage (lobby_player_joined playerId username) s in
  let left := _handleMessage (lobby_player_left playerId reason) s in
  let name := _players s !! key playerId ≫= p_username in
  (_players joined !! key playerId = Some (mkPlayer playerId username (Some ∅)) ∧
   getState playerId joined = ∅ ∧
   _players (_handleMessage (player_joined playerId username) s) = _players joined) ∧
  (_players left = delete (key playerId) (_players s) ∧
   trace left = trace s ++ TEmit "playerLeft" (PPlayerLeft playerId name reason)
                        :: flat_map (invocation (PPlayerLeft playerId name reason))
                                    (handlers_of "playerLeft" s) ∧
   _players (_handleMessage (player_left playerId) s) = _players left ∧
   trace (_handleMessage (player_left playerId) s) =
     trace s ++ TEmit "playerLeft" (PPlayerLeft playerId name None)
             :: flat_map (invocation (PPlayerLeft playerId name None))
                         (handlers_of "playerLeft" s)) ∧
  (_players s !! key playerId = None →
   _players (dispatch [lobby_player_joined playerId username;
                       lobby_player_left playerId reason] s) = _players s ∧
   _players (dispatch [player_joined playerId username; player_left playerId] s)
   = _players s ∧
   ∃ before after,
     trace (dispatch [lobby_player_joined playerId username;
                      lobby_player_left playerId reason] s)
     = before ++ TEmit "playerLeft" (PPlayerLeft playerId username reason) :: after).
Proof.
  intros Hown _ joined left name.
  assert (key playerId ≠ "__proto__") as Hp by (by intros E; rewrite E in Hown).
  assert (∀ p t, assign (key playerId) p t = <[key playerId := p]> t) as Ha
    by (intros p t; unfold assign; by case_decide).
  assert (∀ s0, _players (_handleMessage (lobby_player_joined playerId username) s0) =
                <[key playerId := mkPlayer playerId username (Some ∅)]> (_players s0))
    as Hj by (intros s0; unfold _handleMessage; cbv zeta; by rewrite emit_players, Ha).
  assert (∀ s0, _players (_handleMessage (player_joined playerId username) s0) =
                <[key playerId := mkPlayer playerId username (Some ∅)]> (_players s0))
    as Hj' by (intros s0; unfold _handleMessage; cbv zeta; by rewrite emit_players, Ha).
  assert (∀ r s0, _players (_handleMessage (lobby_player_left playerId r) s0) =
                  delete (key playerId) (_players s0))
    as Hl by (intros r s0; unfold _handleMessage; cbv zeta; by rewrite emit_players).
  assert (∀ s0, _players (_handleMessage (player_left playerId) s0) =
                delete (key playerId) (_players s0))
    as Hl' by (intros s0; unfold _handleMessage; cbv zeta; by rewrite emit_players).
  split_and!.
  - unfold joined. by rewrite Hj, table_lookup_insert_eq.
  - unfold getState, joined. rewrite Hj, get_own by done.
    by rewrite table_lookup_insert_eq.
  - unfold joined. by rewrite Hj, Hj'.
  - apply Hl.
  - unfold left, _handleMessage. cbv zeta.
    by rewrite emit_trace, username_of_own.
  - unfold left. by rewrite Hl, Hl'.
  - unfold _handleMessage. cbv zeta. by rewrite emit_trace, username_of_own.
  - intros Hnew. split_and!.
    + unfold dispatch. cbn [foldl]. rewrite Hl, Hj.
      by apply table_delete_insert.
    + unfold dispatch. cbn [foldl]. rewrite Hl', Hj'.
      by apply table_delete_insert.
    + unfold dispatch. cbn [foldl].
      set (s1 := _handleMessage (lobby_player_joined playerId username) s).
      assert (_players s1 !! key playerId ≫= p_username = username) as Hname
        by (unfold s1; by rewrite Hj, table_lookup_insert_eq).
      unfold _handleMessage at 1. cbv zeta.
      rewrite emit_trace, username_of_own, Hname by done.
      eexists _, _. reflexivity.
Qed.

Lemma player_joins_and_leaves_witness :
  _players (dispatch [lobby_player_joined (Some "p_bob") (Some "Bob");
                      lobby_player_left (Some "p_bob") (Some "left")]
                     (init (λ _, "r")))
  = _players (init (λ _, "r")).
Proof.
  refine (proj1 (proj2 (proj2 (player_joins_and_leaves (init (λ _, "r"))
            (Some "p_bob") (Some "Bob") (Some "left") _
            (or_introl (conj eq_refl eq_refl))))
            eq_refl)).
  vm_compute. reflexivity.
Defined.

(** ** Losing the lobby *)

(** X15.  [lobby_left], [lobby_kicked] and [lobby_closed] end the lobby and
    nothing else: afterwards [getLobbyInfo()] is [null], [isHost()] is
    false and [getPlayers()] is empty, while the socket, the connected
    flag and the player id stay as they are; [lobbyLeft], [lobbyKicked]
    with the reason of the message, or [lobbyClosed] is published to the
    handlers subscribed before. *)
Theorem lobby_ends_but_connection_stays (s : state) (m : msg) (event : string)
    (data : payload) :
  (m = lobby_left ∧ event = "lobbyLeft" ∧ data = PEmpty) ∨
  (∃ reason, m = lobby_kicked reason ∧ event = "lobbyKicked" ∧
             data = PLobbyKicked reason) ∨
  (m = lobby_closed ∧ event = "lobbyClosed" ∧ data = PEmpty) →
  let s' := _handleMessage m s in
  getLobbyInfo s' = (None, s') ∧ isHost s' = false ∧ getPlayers s' = [] ∧
  _ws s' = _ws s ∧ isConnected s' = isConnected s ∧ sockets s' = sockets s ∧
  getPlayerId s' = getPlayerId s ∧
  trace s' = trace s ++ TEmit event data
                     :: flat_map (invocation data) (handlers_of event s).
Proof.
  intros Hm s'.
  assert (s' = emit_ event data (set_players ∅ (set_isHost false (set_lobbyInfo None s))))
    as Hs' by (unfold s'; destruct Hm as [(-> & -> & ->)|[(r & -> & -> & ->)|(-> & -> & ->)]];
               done).
  destruct (emit_frame event data (set_players ∅ (set_isHost false (set_lobbyInfo None s))))
    as (Hw & Hc & Hp & _ & _ & _ & Hpl & Hl & Hi & _ & _ & Hso & _).
  rewrite <- Hs' in *.
  unfold getLobbyInfo, isHost, getPlayers, isConnected, getPlayerId.
  rewrite Hl, Hi, Hpl, Hw, Hc, Hso, Hp. split_and!; try done.
  rewrite Hs'. by rewrite emit_trace.
Qed.

Lemma lobby_ends_but_connection_stays_witness :
  isHost (_handleMessage (lobby_kicked (Some "afk")) in_lobby) = false ∧
  isConnected (_handleMessage (lobby_kicked (Some "afk")) in_lobby)
  = isConnected in_lobby.
Proof.
  pose proof (lobby_ends_but_connection_stays in_lobby (lobby_kicked (Some "afk"))
                "lobbyKicked" (PLobbyKicked (Some "afk"))
                (or_intror (or_introl (ex_intro _ (Some "afk")
                                         (conj eq_refl (conj eq_refl eq_refl))))))
    as (_ & Hh & _ & _ & Hc & _).
  exact (conj Hh Hc).
Defined.

(** ** The platform init hook without a lobby *)

(** X16.  Without a server [_init] starts a single-player session: it
    publishes [ready] with [multiplayer: false] to the handlers subscribed
    before and does nothing else but set the game id, ['unknown'] when
    none is given, and the username, ['Player'] when none is given: no
    socket, no promise, no player id. *)
Theorem init_without_server_is_single_player
    (s : state) (serverUrl roomId username gameId : option string)
    (lobbyCtx : option lobby_ctx) :
  reachable s → truthy serverUrl = false →
  let s' := _init serverUrl roomId username gameId lobbyCtx s in
  s' = set_trace (trace s ++ TEmit "ready" (PReady false)
                          :: flat_map (invocation (PReady false))
                                      (handlers_of "ready" s))
         (set_username (or_str username "Player")
            (set_gameId (Some (or_str gameId "unknown")) s)) ∧
  sockets s' = sockets s ∧ calls s' = calls s ∧ _ws s' = _ws s ∧
  getPlayerId s' = getPlayerId s ∧ isConnected s' = isConnected s.
Proof.
  intros Hs Hurl s'. pose proof (reachable_typed _ Hs) as Ht.
  assert (s' = set_trace (trace s ++ TEmit "ready" (PReady false)
                          :: flat_map (invocation (PReady false))
                                      (handlers_of "ready" s))
         (set_username (or_str username "Player")
            (set_gameId (Some (or_str gameId "unknown")) s))) as ->; [|done].
  unfold s', _init. cbv zeta. rewrite Hurl. simpl negb. cbv iota.
  rewrite emit_plain; [done | | plain].
  apply (set_username_sound strict), (set_gameId_sound strict), Ht.
Qed.

Lemma init_without_server_is_single_player_witness :
  sockets (_init None (Some "room_g1_single") (Some "Ann") (Some "g1") None
                 (init (λ _, "r"))) = [] ∧
  trace (_init None (Some "room_g1_single") (Some "Ann") (Some "g1") None
               (init (λ _, "r"))) = [TEmit "ready" (PReady false)].
Proof.
  pose proof (init_without_server_is_single_player (init (λ _, "r")) None
                (Some "room_g1_single") (Some "Ann") (Some "g1") None
                (reachable_init _) eq_refl) as (Heq & Hso & _).
  split; [exact Hso|]. exact (f_equal trace Heq).
Defined.

(** X17.  With a server and no lobby to create or join, which includes a
    lobby context whose [joinLobbyId] is empty, [_init] takes the legacy
    path at once and makes no promise: it calls [connect(serverUrl,
    roomId, username)], which assigns the room id and the player id.  On a
    host that accepts the URL the socket of that [connect] becomes the
    current socket and [ready] is published with [multiplayer: true] in
    the same call, before the socket has opened.  On a host that refuses
    the URL [connect] throws: there is no socket, and [ready] is not
    published. *)
Theorem init_without_lobby_connects_to_the_room
    (s : state) (serverUrl : string) (roomId username gameId : option string)
    (lobbyCtx : option lobby_ctx) :
  reachable s → truthy (Some serverUrl) = true →
  lobbyCtx = None ∨ lobbyCtx = Some (ctx_joinLobbyId "") →
  let s' := _init (Some serverUrl) roomId username gameId lobbyCtx s in
  _roomId s' = roomId ∧ calls s' = calls s ∧ jobs s' = jobs s ∧
  truthy (getPlayerId s') = true ∧ isConnected s' = isConnected s ∧
  (refused s serverUrl = false →
   sockets s' = sockets s ++ [mkSocket serverUrl CONNECTING Legacy] ∧
   _ws s' = Some (length (sockets s)) ∧
   trace s' = trace s ++ TNewSocket (length (sockets s)) serverUrl
                      :: TEmit "ready" (PReady true)
                      :: flat_map (invocation (PReady true)) (handlers_of "ready" s)) ∧
  (refused s serverUrl = true →
   sockets s' = sockets s ∧ _ws s' = _ws s ∧ trace s' = trace s).
Proof.
  intros Hs Hurl Hctx s'. pose proof (reachable_typed _ Hs) as Ht.
  set (s0 := set_username (or_str username "Player")
               (set_gameId (Some (or_str gameId "unknown")) s)).
  assert (typed s0) as Ht0
    by apply (set_username_sound strict), (set_gameId_sound strict), Ht.
  assert (s' = match connect serverUrl roomId username s0 with
               | (Normal _, s1) => emit_ "ready" (PReady true) s1
               | (Abrupt _, s1) => s1
               end) as Hs'.
  { unfold s', _init. cbv zeta. rewrite Hurl. simpl negb. cbv iota. simpl default.
    by destruct Hctx as [-> | ->]. }
  destruct (assign_playerId_fields s0) as (Hat & Has & Haj & Hac).
  destruct (assign_playerId_frame s0) as (Haw & _).
  assert (_connected (assign_playerId s0) = _connected s) as Hco.
  { unfold assign_playerId. by destruct (truthy (_playerId s0)). }
  destruct (refused s serverUrl) eqn:Hre.
  - (* the constructor throws *)
    rewrite (connect_refused serverUrl roomId username s0 Hre) in Hs'.
    rewrite Hs'. unfold getPlayerId, isConnected. simpl.
    rewrite Hac, Haj, Hco, Hat, Has, Haw.
    split_and!; try done. apply truthy_assign_playerId.
  - rewrite (connect_accepted serverUrl roomId username s0 Hre) in Hs'.
    destruct (connect_fields serverUrl roomId username s0 Hre)
      as (Htr & Hso & Hw & Hroom & Hj & Hc & Hh).
    assert (typed (connect serverUrl roomId username s0).2) as Ht1
      by (by apply (connect_sound strict)).
    rewrite Hs', (emit_plain _ _ _ Ht1) by plain.
    set (s1 := (connect serverUrl roomId username s0).2) in *.
    assert (_playerId s1 = _playerId (assign_playerId s0) ∧
            _connected s1 = _connected s) as [Hp Hco1].
    { unfold s1. rewrite (connect_accepted serverUrl roomId username s0 Hre).
      unfold connect, new_socket. cbv zeta.
      change (refused (set_roomId ?r (set_username ?u (assign_playerId s0))) serverUrl)
        with (refused (assign_playerId s0) serverUrl).
      rewrite assign_playerId_refused.
      change (refused s0) with (refused s). rewrite Hre. by cbn [snd]. }
    unfold getPlayerId, isConnected, handlers_of.
    change (sockets (set_trace ?t ?x)) with (sockets x).
    change (_ws (set_trace ?t ?x)) with (_ws x).
    change (_roomId (set_trace ?t ?x)) with (_roomId x).
    change (calls (set_trace ?t ?x)) with (calls x).
    change (jobs (set_trace ?t ?x)) with (jobs x).
    change (_playerId (set_trace ?t ?x)) with (_playerId x).
    change (_connected (set_trace ?t ?x)) with (_connected x).
    change (trace (set_trace ?t ?x)) with t.
    rewrite Htr, Hso, Hw, Hroom, Hj, Hc, Hh, Hp, Hco1. split_and!; try done.
    + apply truthy_assign_playerId.
    + intros _. split_and!; try done. by rewrite <- app_assoc.
Qed.

Lemma init_without_lobby_connects_to_the_room_witness :
  sockets (_init (Some "wss://host") (Some "room_g1_multi") (Some "Ann") (Some "g1")
                 (Some (ctx_joinLobbyId "")) (init (λ _, "r")))
  = [mkSocket "wss://host" CONNECTING Legacy] ∧
  trace (_init (Some "ftp://host") (Some "room_g1_multi") (Some "Ann") (Some "g1")
               None (boot ws_only (λ _, "r")))
  = [].
Proof.
  pose proof (init_without_lobby_connects_to_the_room (init (λ _, "r")) "wss://host"
                (Some "room_g1_multi") (Some "Ann") (Some "g1")
                (Some (ctx_joinLobbyId ""))
                (reachable_init _) eq_refl (or_intror eq_refl))
    as (_ & _ & _ & _ & _ & Haccepted & _).
  pose proof (init_without_lobby_connects_to_the_room (boot ws_only (λ _, "r"))
                "ftp://host" (Some "room_g1_multi") (Some "Ann") (Some "g1") None
                (reachable_boot _ _) eq_refl (or_introl eq_refl))
    as (_ & _ & _ & _ & _ & _ & Hrefused).
  split.
  - exact (proj1 (Haccepted eq_refl)).
  - exact (proj2 (proj2 (Hrefused eq_refl))).
Defined.

(** ** The legacy room *)

(** X18.  When the socket of a legacy [connect] opens while it is the
    current socket, the session is connected, [join] goes out on it with
    the game id of the session, ['unknown'] when there is none, the room
    id, the player id and the username, and then [connected] is published
    with the player id. *)
Theorem legacy_socket_joins_the_room (s : state) (k : nat) :
  reachable s →
  callbacks_of k (drain s) = Some Legacy →
  readyState_of k (drain s) = Some CONNECTING →
  _ws (drain s) = Some k →
  let s0 := drain s in
  let s' := step (SockOpen k) s in
  isConnected s' = true ∧ readyState_of k s' = Some OPEN ∧
  trace s' = trace s0 ++
    TSend k (join (or_str (_gameId s0) "unknown") (_roomId s0) (_playerId s0)
                  (_username s0))
    :: TEmit "connected" (PConnected (_playerId s0))
    :: flat_map (invocation (PConnected (_playerId s0))) (handlers_of "connected" s0).
Proof.
  intros Hs Hcb Hr Hw s0 s'. pose proof (reachable_typed _ Hs) as Ht.
  destruct (drain_sound rejecting s eq_refl Ht) as [Ht0 _].
  pose proof (drain_empties s Ht) as Hj0. fold s0 in Hcb, Hr, Hw, Ht0, Hj0.
  set (s1 := set_readyState k OPEN s0).
  assert (typed s1) as Ht1 by (by apply (set_readyState_sound strict)).
  assert (callbacks_of k s1 = Some Legacy ∧ readyState_of k s1 = Some OPEN) as [Hcb1 Hr1].
  { unfold s1, set_readyState, callbacks_of, readyState_of in *. simpl.
    rewrite list_lookup_alter_eq. by destruct (sockets s0 !! k). }
  set (s2 := set_connected true s1).
  assert (ws_open s2 = Some k) as Hopen by (by apply ws_open_spec).
  set (m := join (or_str (_gameId s0) "unknown") (_roomId s0) (_playerId s0)
                 (_username s0)).
  assert (onopen k s1 = emit_ "connected" (PConnected (_playerId s0)) (log (TSend k m) s2))
    as Hop.
  { unfold onopen. rewrite Hcb1. cbv zeta. fold s2. unfold _send. rewrite Hopen. done. }
  assert (typed (log (TSend k m) s2)) as Ht2
    by apply (log_sound strict), (set_connected_sound strict), Ht1.
  assert (s' = onopen k s1) as ->.
  { unfold s'. simpl. fold s0. rewrite Hr. fold s1. apply drain_idle.
    rewrite Hop, (emit_plain _ _ _ Ht2) by plain. done. }
  rewrite Hop, (emit_plain _ _ _ Ht2) by plain.
  unfold isConnected, readyState_of. simpl. split_and!; try done.
  by rewrite <- app_assoc.
Qed.

Lemma legacy_socket_joins_the_room_witness :
  trace (step (SockOpen 0)
           (run [Call (Connect "wss://room" (Some "r1") (Some "Bea"))]
                (init (λ _, "k3x9q0a"))))
  = [TNewSocket 0 "wss://room";
     TSend 0 (join "unknown" (Some "r1") (Some "p_k3x9q0a") "Bea");
     TEmit "connected" (PConnected (Some "p_k3x9q0a"))].
Proof.
  refine (eq_trans
            (proj2 (proj2 (legacy_socket_joins_the_room
               (run [Call (Connect "wss://room" (Some "r1") (Some "Bea"))]
                    (init (λ _, "k3x9q0a")))
               0 (reachable_run _ _ (reachable_init _)) _ _ _))) _).
  - vm_compute. reflexivity.
  - vm_compute. reflexivity.
  - vm_compute. reflexivity.
  - vm_compute. reflexivity.
Defined.

(** ** Promises that wait for the server *)

Lemma awaits_ext s s' :
  _handlers s' = _handlers s → calls s' = calls s → awaits s → awaits s'.
Proof.
  intros Hh Hc Ha c cl event h. unfold handlers_of. rewrite Hh, Hc. apply Ha.
Qed.

Lemma awaits_but_ext c s s' :
  _handlers s' = _handlers s → calls s' = calls s → awaits_but c s → awaits_but c s'.
Proof.
  intros Hh Hc Ha c' cl event h. unfold handlers_of. rewrite Hh, Hc. apply Ha.
Qed.

Lemma awaits_weaken c s : awaits s → awaits_but c s.
Proof. intros Ha c' cl event h _. apply Ha. Qed.

Lemma closures_call k c event h : (event, h) ∈ closures k c → closure_call h = Some c.
Proof.
  destruct k; simpl; rewrite ?elem_of_cons, elem_of_nil; intros H;
    destruct_or?; simplify_eq; done.
Qed.

Lemma same_fn_closures h h' c c' :
  closure_call h = Some c → closure_call h' = Some c' → c' ≠ c → same_fn h' h = false.
Proof.
  intros Hh Hh' Hne. destruct h, h'; simpl in *; simplify_eq; try done;
    by apply Nat.eqb_neq.
Qed.

Lemma awaits_on event h s : awaits s → awaits (on event h s).
Proof.
  intros Ha c cl event' h' Hcl Hph Hin.
  specialize (Ha c cl event' h' Hcl Hph Hin).
  destruct (decide (event' = event)) as [->|Hne].
  - rewrite handlers_of_on. set_solver.
  - by rewrite handlers_of_on_ne.
Qed.

Lemma awaits_off_user event f s : awaits s → awaits (off event (User f) s).
Proof.
  intros Ha c cl event' h' Hcl Hph Hin.
  rewrite (proj1 (off_fields _ _ _)) in Hcl.
  apply elem_of_handlers_off_other; [|by apply (Ha c cl)].
  apply closures_call in Hin. by destruct h'.
Qed.

Lemma awaits_but_off c event h s :
  closure_call h = Some c → awaits_but c s → awaits_but c (off event h s).
Proof.
  intros Hh Ha c' cl event' h' Hne Hcl Hph Hin.
  rewrite (proj1 (off_fields _ _ _)) in Hcl.
  apply elem_of_handlers_off_other; [|by apply (Ha c' cl)].
  apply closures_call in Hin. by apply (same_fn_closures h h' c c').
Qed.

Lemma awaits_settle c p s : is_pending p = false → awaits_but c s → awaits (settle c p s).
Proof.
  intros Hp Ha c' cl' event h Hcl' Hph Hin.
  assert (_handlers (settle c p s) = _handlers s) as Hh
    by (unfold settle; by repeat case_match).
  unfold handlers_of. rewrite Hh.
  destruct (decide (c' = c)) as [->|Hne].
  - apply (settle_settled c p s cl' Hp) in Hcl'. by rewrite Hph in Hcl'.
  - assert (calls (settle c p s) !! c' = calls s !! c') as Hsame.
    { unfold settle, set_phase. repeat case_match; simpl; try done;
        by rewrite list_lookup_alter_ne. }
    rewrite Hsame in Hcl'. by apply (Ha c' cl').
Qed.

Lemma awaits_guarded_call fn data s :
  awaits s → awaits (try_catch (call_fn fn data) console_error s).2.
Proof.
  intros Ha. unfold try_catch, call_fn, resolve, reject. cbv zeta.
  destruct fn as [f|c|c|c|c|c]; simpl.
  - destruct (fn_body f data); simpl; by apply (awaits_ext s).
  - apply awaits_settle; [done|]. do 2 (apply awaits_but_off; [done|]).
    by apply (awaits_but_ext c s), awaits_weaken.
  - apply awaits_settle; [done|]. do 2 (apply awaits_but_off; [done|]).
    by apply (awaits_but_ext c s), awaits_weaken.
  - apply awaits_settle; [done|]. do 2 (apply awaits_but_off; [done|]).
    by apply (awaits_but_ext c s), awaits_weaken.
  - apply awaits_settle; [done|]. do 2 (apply awaits_but_off; [done|]).
    by apply (awaits_but_ext c s), awaits_weaken.
  - apply awaits_settle; [by destruct data|]. apply awaits_but_off; [done|].
    by apply (awaits_but_ext c s), awaits_weaken.
Qed.

Lemma awaits_emit event data s : awaits s → awaits (emit_ event data s).
Proof.
  intros Ha. unfold emit_, emit.
  assert (awaits (log (TEmit event data) s)) as Ha0 by (by apply (awaits_ext s)).
  revert Ha0. generalize (log (TEmit event data) s). generalize (handlers_of event s).
  intros hs. induction hs as [|h hs IH]; intros s0 Ha0; [done|].
  rewrite forEach_cons. by apply IH, awaits_guarded_call.
Qed.

(** A function that assigns neither [_handlers] nor a promise. *)
Ltac quiet :=
  match goal with
  | Ha : awaits ?s |- awaits ?s' =>
      apply (awaits_ext s); [| |exact Ha];
      repeat (unfold _send, ws_close, clearTimeout, assign_playerId, random_id,
              new_socket, setTimeout, log, enqueue, set_readyState, set_callbacks,
              new_lobbyInfo, update_data);
      by repeat case_match
  end.

Lemma awaits__send m s : awaits s → awaits (_send m s).
Proof. intros Ha. quiet. Qed.

Lemma awaits_handleMessage m s : awaits s → awaits (_handleMessage m s).
Proof.
  intros Ha. destruct m; unfold _handleMessage; cbv zeta;
    try (apply awaits_emit; quiet); done.
Qed.

Lemma awaits_openWS serverUrl c s : awaits s → awaits (_openWS serverUrl c s).
Proof.
  intros Ha. apply (awaits_ext s); [| |done];
    unfold _openWS, new_socket, ws_close; repeat case_match; by simplify_eq.
Qed.

Lemma awaits_new_call k s : awaits s → awaits (new_call k s).
Proof.
  intros Ha c cl event h Hcl Hph Hin. unfold new_call in Hcl. simpl in Hcl.
  apply lookup_app_Some in Hcl as [Hcl|[_ Hcl]].
  - by apply (Ha c cl).
  - apply list_lookup_singleton_Some in Hcl as [_ <-]. done.
Qed.

Lemma awaits_chain c r s : awaits s → awaits (chain c r s).
Proof.
  intros Ha c' cl' event h Hcl Hph Hin. unfold chain in Hcl. simpl in Hcl.
  rewrite list_lookup_alter in Hcl. destruct (decide (c = c')) as [->|Hne].
  - destruct (calls s !! c') as [cl|] eqn:Hc; [|done]. simpl in Hcl.
    injection Hcl as <-. by apply (Ha c' cl).
  - by apply (Ha c' cl').
Qed.

Lemma awaits_connect serverUrl roomId username s :
  awaits s → awaits (connect serverUrl roomId username s).2.
Proof.
  intros Ha. destruct (connect_frame serverUrl roomId username s)
    as (_ & Hc & Hh & _). by apply (awaits_ext s).
Qed.

Lemma awaits_legacy serverUrl roomId username s :
  awaits s →
  awaits match connect serverUrl roomId username s with
         | (Normal _, s1) => emit_ "ready" (PReady true) s1
         | (Abrupt _, s1) => s1
         end.
Proof.
  intros Ha. pose proof (awaits_connect serverUrl roomId username s Ha) as H.
  destruct (connect serverUrl roomId username s) as [[v|e] s1]; simpl in H; [|done].
  by apply awaits_emit.
Qed.

Lemma awaits_createLobby o s : awaits s → awaits (createLobby o s).2.
Proof.
  intros Ha. unfold createLobby. cbv zeta. cbn [snd].
  apply awaits_openWS, awaits_new_call. quiet.
Qed.

Lemma awaits_joinLobby o s : awaits s → awaits (joinLobby o s).2.
Proof.
  intros Ha. unfold joinLobby. cbv zeta. cbn [snd].
  apply awaits_openWS, awaits_new_call. quiet.
Qed.

Lemma awaits_init serverUrl roomId username gameId lobbyCtx s :
  awaits s → awaits (_init serverUrl roomId username gameId lobbyCtx s).
Proof.
  intros Ha. unfold _init. cbv zeta.
  set (s0 := set_username _ (set_gameId _ s)).
  assert (awaits s0) as Ha0 by (by apply (awaits_ext s)).
  destruct (negb (truthy serverUrl)); [by apply awaits_emit|].
  destruct lobbyCtx as [[lobbyName maxPlayers|joinLobbyId]|].
  - match goal with |- context [createLobby ?o s0] =>
      pose proof (awaits_createLobby o s0 Ha0) as H;
      destruct (createLobby o s0) as [c s1]
    end. by apply awaits_chain.
  - destruct (truthy (Some joinLobbyId)).
    + match goal with |- context [joinLobby ?o s0] =>
        pose proof (awaits_joinLobby o s0 Ha0) as H;
        destruct (joinLobby o s0) as [c s1]
      end. by apply awaits_chain.
    + by apply awaits_legacy.
  - by apply awaits_legacy.
Qed.

Lemma awaits_api_call a s : awaits s → awaits (api_call a s).
Proof.
  intros Ha. destruct a; unfold api_call.
  - by apply awaits_connect.
  - by apply (awaits_ext s); unfold disconnect, ws_close; repeat case_match.
  - by apply awaits__send.
  - by apply awaits__send.
  - by apply awaits_on.
  - by apply awaits_off_user.
  - by apply awaits_createLobby.
  - by apply awaits_joinLobby.
  - unfold leaveLobby. cbv zeta. apply (awaits_ext (_send lobby_leave s)); try done.
    by apply awaits__send.
  - unfold listLobbies. cbv zeta. cbn [snd]. by apply awaits_openWS, awaits_new_call.
  - by apply awaits__send.
  - by apply awaits__send.
  - by apply (awaits_ext s); unfold getLobbyInfo; repeat case_match.
  - by apply awaits_init.
Qed.

Lemma awaits_resume c s : awaits s → awaits (resume c s).
Proof.
  intros Ha. unfold resume. destruct (calls s !! c) as [cl|] eqn:Hcl; [|done].
  destruct (c_phase cl) eqn:Hph; try done.
  (* the rest of the function, then the promise in its handshake *)
  assert (∀ x, awaits x →
               (∀ event h, (event, h) ∈ closures (c_kind cl) c → h ∈ handlers_of event x) →
               (∀ cl', calls x !! c = Some cl' → c_kind cl' = c_kind cl) →
               awaits (set_phase c Handshake x)) as Hset.
  { intros x Hx Hsub Hkind c' cl' event h Hcl' Hph' Hin.
    change (handlers_of event (set_phase c Handshake x)) with (handlers_of event x).
    unfold set_phase in Hcl'. simpl in Hcl'. rewrite list_lookup_alter in Hcl'.
    destruct (decide (c = c')) as [<-|Hne]; [|by apply (Hx c' cl')].
    destruct (calls x !! c) as [cl0|] eqn:Hc0; [|done]. simpl in Hcl'.
    injection Hcl' as <-. simpl in Hin. rewrite (Hkind cl0 eq_refl) in Hin.
    by apply Hsub. }
  assert (∀ event data x cl', calls (emit_ event data x) !! c = Some cl' →
            ∃ cl0, calls x !! c = Some cl0 ∧ c_kind cl' = c_kind cl0) as Hemit.
  { intros event data x cl' Hcl'. unfold emit_, emit in Hcl'.
    assert (∀ hs x0 cl1,
              calls (forEach (λ fn, try_catch (call_fn fn data) console_error) hs x0).2
                !! c = Some cl1 →
              ∃ cl0, calls x0 !! c = Some cl0 ∧ c_kind cl1 = c_kind cl0) as Hfe.
    { induction hs as [|h hs IH]; intros x0 cl1; [simpl; eauto|].
      rewrite forEach_cons. intros H1.
      destruct (IH _ _ H1) as (cl2 & H2 & Hk2). rewrite Hk2. clear H1 Hk2 IH.
      revert H2. unfold try_catch, call_fn, resolve, reject. cbv zeta.
      assert (∀ c2 p x1 cl3, calls (settle c2 p x1) !! c = Some cl3 →
                ∃ cl0, calls x1 !! c = Some cl0 ∧ c_kind cl3 = c_kind cl0) as Hst.
      { intros c2 p x1 cl3. unfold settle.
        destruct (calls x1 !! c2) as [cl5|] eqn:E; [|eauto].
        destruct (is_pending (c_phase cl5)); [|eauto].
        assert (calls (set_phase c2 p x1) !! c = Some cl3 →
                ∃ cl0, calls x1 !! c = Some cl0 ∧ c_kind cl3 = c_kind cl0) as Hsp.
        { unfold set_phase. simpl. rewrite list_lookup_alter.
          destruct (decide (c2 = c)) as [->|]; [|eauto].
          rewrite E. simpl. intros [= <-]. eauto. }
        destruct (c_then cl5); simpl; exact Hsp. }
      destruct h as [f| | | | |]; simpl.
      - destruct (fn_body f data); simpl; eauto.
      - intros H2. apply Hst in H2. by rewrite !(proj1 (off_fields _ _ _)) in H2.
      - intros H2. apply Hst in H2. by rewrite !(proj1 (off_fields _ _ _)) in H2.
      - intros H2. apply Hst in H2. by rewrite !(proj1 (off_fields _ _ _)) in H2.
      - intros H2. apply Hst in H2. by rewrite !(proj1 (off_fields _ _ _)) in H2.
      - intros H2. apply Hst in H2. by rewrite !(proj1 (off_fields _ _ _)) in H2. }
    apply Hfe in Hcl'. done. }
  destruct (c_kind cl) as [g l n m|g l|g] eqn:Hkind.
  - apply Hset.
    + unfold createLobby_resume. cbv zeta.
      apply awaits__send, awaits_on, awaits_on, awaits_emit, Ha.
    + intros event h Hin. unfold createLobby_resume. cbv zeta.
      assert (∀ x, handlers_of event (_send (lobby_create g (or_undefined l) n m
                      (_playerId x) (_username x)) x) = handlers_of event x) as ->
        by (intros x; unfold _send; by case_match).
      simpl in Hin. rewrite !elem_of_cons, elem_of_nil in Hin.
      destruct Hin as [[= -> ->]|[[= -> ->]|[]]].
      * rewrite handlers_of_on_ne by done. rewrite handlers_of_on. set_solver.
      * rewrite handlers_of_on. set_solver.
    + intros cl' Hcl'. unfold createLobby_resume, _send in Hcl'. cbv zeta in Hcl'.
      assert (calls (emit_ "connected" (PConnected (_playerId s)) s) !! c = Some cl')
        as Hc by (revert Hcl'; by case_match).
      apply Hemit in Hc as (cl0 & Hc0 & ->). rewrite Hcl in Hc0. by injection Hc0 as <-.
  - apply Hset.
    + unfold joinLobby_resume. cbv zeta.
      apply awaits__send, awaits_on, awaits_on, awaits_emit, Ha.
    + intros event h Hin. unfold joinLobby_resume. cbv zeta.
      assert (∀ x, handlers_of event (_send (lobby_join g l
                      (_playerId x) (_username x)) x) = handlers_of event x) as ->
        by (intros x; unfold _send; by case_match).
      simpl in Hin. rewrite !elem_of_cons, elem_of_nil in Hin.
      destruct Hin as [[= -> ->]|[[= -> ->]|[]]].
      * rewrite handlers_of_on_ne by done. rewrite handlers_of_on. set_solver.
      * rewrite handlers_of_on. set_solver.
    + intros cl' Hcl'. unfold joinLobby_resume, _send in Hcl'. cbv zeta in Hcl'.
      assert (calls (emit_ "connected" (PConnected (_playerId s)) s) !! c = Some cl')
        as Hc by (revert Hcl'; by case_match).
      apply Hemit in Hc as (cl0 & Hc0 & ->). rewrite Hcl in Hc0. by injection Hc0 as <-.
  - apply Hset.
    + unfold listLobbies_resume. cbv zeta.
      apply (awaits_ext (_send (lobby_list_request g) (on "lobbyList" (onList c) s)));
        try done.
      apply awaits__send, awaits_on, Ha.
    + intros event h Hin. simpl in Hin. apply list_elem_of_singleton in Hin as [= -> ->].
      unfold listLobbies_resume, _send. cbv zeta.
      assert (handlers_of "lobbyList" (on "lobbyList" (onList c) s)
              = handlers_of "lobbyList" s ++ [onList c]) as Hon by apply handlers_of_on.
      case_match; unfold setTimeout, log, handlers_of in *; simpl in *;
        rewrite Hon; set_solver.
    + intros cl'. rewrite (proj1 (listLobbies_resume_calls c g s)), Hcl.
      by intros [= <-].
Qed.

Lemma awaits_run_job j s : awaits s → awaits (run_job j s).
Proof.
  intros Ha. destruct j as [c|c e|c]; simpl.
  - by apply awaits_resume.
  - unfold fail_open, reject. repeat case_match; try done.
    by apply awaits_settle, awaits_weaken.
  - unfold react. destruct (calls s !! c) as [cl|]; [|done].
    destruct (c_then cl) as [[serverUrl roomId username]|]; [|done].
    destruct (c_phase cl); try done; cbv zeta.
    + by apply awaits_emit.
    + apply awaits_legacy. by apply (awaits_ext s).
Qed.

Lemma awaits_drain s : awaits s → awaits (drain s).
Proof.
  unfold drain. generalize (2 * length (jobs s)). intros n. revert s.
  induction n as [|n IH]; intros s Ha; simpl; [done|].
  destruct (jobs s) as [|j js]; [done|].
  apply IH, awaits_run_job. by apply (awaits_ext s).
Qed.

Lemma awaits_step e s : awaits s → awaits (step e s).
Proof.
  intros Ha. pose proof (awaits_drain s Ha) as Hd.
  destruct e as [a| |l v|dt|k|k frame|k|k|t]; simpl; try done.
  - by apply awaits_api_call.
  - case_bool_decide; [|done]. by apply (awaits_ext s).
  - destruct (readyState_of k (drain s)) as [[]|]; try done.
    apply awaits_drain. unfold onopen.
    assert (awaits (set_readyState k OPEN (drain s))) as H1
      by (by apply (awaits_ext (drain s))).
    destruct (callbacks_of k _) as [[c t| |]|]; try done; cbv zeta.
    + apply (awaits_ext (set_readyState k OPEN (drain s))); try done;
        unfold clearTimeout; by case_match.
    + apply awaits_emit, awaits__send. by apply (awaits_ext (drain s)).
  - destruct (readyState_of k (drain s)) as [[]|]; try done.
    apply awaits_drain. unfold onmessage.
    destruct (callbacks_of k _) as [[]|], frame; try done;
      by apply awaits_handleMessage.
  - assert (∀ x, awaits x → awaits (onclose k x)) as Hclose.
    { intros x Hx. unfold onclose. destruct (callbacks_of k x) as [[]|]; try done;
        cbv zeta; apply awaits_emit; by apply (awaits_ext x). }
    assert (∀ x, awaits x → awaits (onerror k x)) as Herr.
    { intros x Hx. unfold onerror. destruct (callbacks_of k x) as [[]|]; try done.
      - apply (awaits_ext x); try done; unfold clearTimeout; by case_match.
      - by apply awaits_emit.
      - by apply awaits_emit. }
    destruct (readyState_of k (drain s)) as [[]|]; try done;
      apply awaits_drain, Hclose, awaits_drain, Herr; by apply (awaits_ext (drain s)).
  - assert (∀ x, awaits x → awaits (onclose k x)) as Hclose.
    { intros x Hx. unfold onclose. destruct (callbacks_of k x) as [[]|]; try done;
        cbv zeta; apply awaits_emit; by apply (awaits_ext x). }
    destruct (readyState_of k (drain s)) as [[]|]; try done;
      apply awaits_drain, Hclose; by apply (awaits_ext (drain s)).
  - destruct (timer_due t (drain s)); [|done]. apply awaits_drain.
    assert (awaits (clearTimeout t (drain s))) as H1
      by (apply (awaits_ext (drain s)); try done; unfold clearTimeout; by case_match).
    unfold timeout. destruct (t_kind <$> _) as [[k c|c]|]; try done.
    + apply (awaits_ext (clearTimeout t (drain s))); try done;
        unfold ws_close; by repeat case_match.
    + unfold resolve. apply awaits_settle; [done|]. apply awaits_but_off; [done|].
      by apply awaits_weaken.
Qed.

(** In every state the engine can be in, a promise in its handshake has
    its closures subscribed. *)
Lemma reachable_awaits s : reachable s → awaits s.
Proof.
  induction 1 as [rnd|s e _ IH]; [|by apply awaits_step].
  intros c cl event h Hcl. done.
Qed.

(** What publishing an event does to the promise of call [c]. *)

Lemma guarded_call_settles h c data s :
  closure_call h = Some c →
  ∃ x, (try_catch (call_fn h data) console_error s).2 = settle c (closure_phase h data) x ∧
       calls x = calls s.
Proof.
  intros Hh. unfold try_catch, call_fn, resolve, reject. cbv zeta.
  destruct h; simpl in *; simplify_eq; eexists; (split; [reflexivity|]);
    by rewrite ?(proj1 (off_fields _ _ _)).
Qed.

Lemma guarded_call_other h c data s :
  closure_call h ≠ Some c →
  phase_of c (try_catch (call_fn h data) console_error s).2 = phase_of c s.
Proof.
  intros Hh. destruct (closure_call h) as [c'|] eqn:Hc.
  - destruct (guarded_call_settles h c' data s Hc) as (x & -> & Hx).
    rewrite phase_of_settle_ne by congruence. unfold phase_of. by rewrite Hx.
  - destruct h; try done. unfold try_catch. simpl. by destruct (fn_body f data).
Qed.

Lemma forEach_settles c data P hs s :
  is_pending P = false →
  (∀ h, h ∈ hs → closure_call h = Some c → closure_phase h data = P) →
  phase_of c s = Some P ∨
  ((∃ p, phase_of c s = Some p ∧ is_pending p = true) ∧
   ∃ h, h ∈ hs ∧ closure_call h = Some c) →
  phase_of c (forEach (λ fn, try_catch (call_fn fn data) console_error) hs s).2 = Some P.
Proof.
  intros HP. revert s. induction hs as [|h hs IH]; intros s Hhs Hc.
  - destruct Hc as [?|[_ (h & Hin & _)]]; [done | by apply elem_of_nil in Hin].
  - rewrite forEach_cons. apply IH; [intros h' ?; apply Hhs; by right|].
    destruct (decide (closure_call h = Some c)) as [Hh|Hh].
    + left. destruct (guarded_call_settles h c data s Hh) as (x & -> & Hx).
      rewrite (Hhs h) by (done || by left).
      destruct Hc as [Hset|[(p & Hp & Hpen) _]].
      * apply phase_of_settle_settled; [|done]. unfold phase_of. by rewrite Hx.
      * unfold phase_of in Hp. rewrite <- Hx in Hp.
        destruct (calls x !! c) as [cl|] eqn:Hcl; [|done]. simpl in Hp.
        injection Hp as <-. by apply (phase_of_settle _ _ _ cl).
    + rewrite guarded_call_other by done.
      destruct Hc as [?|[Hp (h' & Hin & Hh')]]; [by left | right].
      split; [done|]. exists h'. split; [|done].
      apply elem_of_cons in Hin as [->|?]; done.
Qed.

Lemma emit_settles event data h c p s :
  typed s → h ∈ handlers_of event s → closure_call h = Some c →
  phase_of c s = Some p → is_pending p = true →
  phase_of c (emit_ event data s) = Some (closure_phase h data).
Proof.
  intros Ht Hin Hh Hp Hpen. unfold emit_, emit. apply forEach_settles.
  - by destruct h.
  - intros h' Hin' Hh'.
    pose proof (typed_handlers s Ht _ _ Hin) as Hok.
    pose proof (typed_handlers s Ht _ _ Hin') as Hok'.
    destruct h, h'; simpl in *; simplify_eq; try done;
      destruct Hok as [-> _], Hok' as [? _]; done.
  - right. split; [by exists p | by exists h].
Qed.

Lemma step_dispatches k r m s :
  typed s → readyState_of k (drain s) = Some OPEN →
  callbacks_of k (drain s) = Some r → r = Managed ∨ r = Legacy →
  step (SockMessage k (Some m)) s = drain (_handleMessage m (drain s)).
Proof.
  intros Ht Hr Hcb Hrole. simpl. rewrite Hr. unfold onmessage. rewrite Hcb.
  by destruct Hrole as [-> | ->].
Qed.

(** X19.  The promises resolve with the answer of the server.  In every
    state the engine can be in, when [lobby_created] arrives on an open
    socket, a [createLobby] promise in its handshake resolves with the
    lobby info of the message and its [playerId]; when [lobby_state]
    arrives, a [joinLobby] promise in its handshake resolves with the
    lobby id, name and owner of the message and with the players of the
    table that the message gives, in the order of [Object.values].  These
    are the values at the end of the task in which the message arrives,
    when the reactions of the promise have run. *)
Theorem lobby_promise_resolves_with_the_answer
    (s : state) (c k : nat) (cl : call) (r : role) :
  reachable s →
  readyState_of k (drain s) = Some OPEN →
  callbacks_of k (drain s) = Some r → r = Managed ∨ r = Legacy →
  calls (drain s) !! c = Some cl → c_phase cl = Handshake →
  (∀ lobbyId lobbyName isPublic maxPlayers playerId,
     tag_of (c_kind cl) = TCreate →
     phase_of c (step (SockMessage k (Some (lobby_created lobbyId lobbyName isPublic
                                              maxPlayers playerId))) s)
     = Some (Resolved (VPayload (PLobbyCreated
               (mkLobby lobbyId lobbyName isPublic None maxPlayers) playerId)))) ∧
  (∀ lobbyId lobbyName isPublic ownerId maxPlayers players,
     tag_of (c_kind cl) = TJoin →
     phase_of c (step (SockMessage k (Some (lobby_state lobbyId lobbyName isPublic
                                              ownerId maxPlayers players))) s)
     = Some (Resolved (VPayload (PLobbyJoined lobbyId lobbyName ownerId
               (Object_values (load_players players)))))).
Proof.
  intros Hs Hr Hcb Hrole Hcl Hph. pose proof (reachable_typed _ Hs) as Ht.
  destruct (drain_sound rejecting s eq_refl Ht) as [Ht0 _].
  pose proof (awaits_drain s (reachable_awaits s Hs)) as Ha0.
  split.
  - intros lobbyId lobbyName isPublic maxPlayers playerId Htag.
    rewrite (step_dispatches k r _ s Ht Hr Hcb Hrole).
    destruct (_handleMessage_sound
                (lobby_created lobbyId lobbyName isPublic maxPlayers playerId)
                (drain s) Ht0) as [Ht1 _].
    apply (settled_stays rejecting
             (_handleMessage (lobby_created lobbyId lobbyName isPublic maxPlayers playerId)
                             (drain s))); [by apply drain_sound | | done].
    revert Ht1. unfold _handleMessage. cbv zeta.
    change (spread_lobbyInfo (set_isHost true (new_lobbyInfo ?li ?x)))
      with (spread_lobbyInfo (new_lobbyInfo li x)).
    rewrite spread_new_lobbyInfo. intros _.
    set (s2 := set_isHost true (new_lobbyInfo _ (drain s))).
    assert (typed s2) as Ht2
      by (apply (set_isHost_sound free); [done|]; by apply (new_lobbyInfo_sound free)).
    apply (emit_settles "lobbyCreated" _ (onCreated c) c Handshake); try done.
    + change (handlers_of "lobbyCreated" s2) with (handlers_of "lobbyCreated" (drain s)).
      apply (Ha0 c cl); [done..|]. destruct (c_kind cl); try done. by left.
    + unfold phase_of. change (calls s2) with (calls (drain s)). rewrite Hcl. simpl. by rewrite Hph.
  - intros lobbyId lobbyName isPublic ownerId maxPlayers players Htag.
    rewrite (step_dispatches k r _ s Ht Hr Hcb Hrole).
    destruct (_handleMessage_sound
                (lobby_state lobbyId lobbyName isPublic ownerId maxPlayers players)
                (drain s) Ht0) as [Ht1 _].
    apply (settled_stays rejecting
             (_handleMessage
                (lobby_state lobbyId lobbyName isPublic ownerId maxPlayers players)
                (drain s))); [by apply drain_sound | | done].
    revert Ht1. unfold _handleMessage. cbv zeta. intros _.
    set (s1 := new_lobbyInfo _ (set_players (load_players players) (drain s))).
    set (s2 := set_isHost (strict_eq ownerId (_playerId s1)) s1).
    assert (typed s2) as Ht2.
    { apply (set_isHost_sound free); [done|]. apply (new_lobbyInfo_sound free); [done|].
      by apply (set_players_sound free). }
    change (_players s2) with (load_players players).
    apply (emit_settles "lobbyJoined" _ (onJoined c) c Handshake); try done.
    + change (handlers_of "lobbyJoined" s2) with (handlers_of "lobbyJoined" (drain s)).
      apply (Ha0 c cl); [done..|]. destruct (c_kind cl); try done. by left.
    + unfold phase_of. change (calls s2) with (calls (drain s)). rewrite Hcl. simpl. by rewrite Hph.
Qed.

Lemma lobby_promise_resolves_with_the_answer_witness :
  phase_of 0 (step (SockMessage 0 (Some (lobby_created (Some "L7") (Some "PUBLIC_Arena")
                                           (Some true) (Some 4%Z) (Some "p_k3x9q0a"))))
                (run lobby_requested (init (λ _, "k3x9q0a"))))
  = Some (Resolved (VPayload (PLobbyCreated
            (mkLobby (Some "L7") (Some "PUBLIC_Arena") (Some true) None (Some 4%Z))
            (Some "p_k3x9q0a")))).
Proof.
  refine (proj1 (lobby_promise_resolves_with_the_answer
            (run lobby_requested (init (λ _, "k3x9q0a"))) 0 0
            (mkCall (CreateCall (Some "g1") None "Arena" 4) Handshake None) Managed
            (reachable_run _ _ (reachable_init _)) _ _ (or_introl eq_refl) _ eq_refl)
            (Some "L7") (Some "PUBLIC_Arena") (Some true) (Some 4%Z) (Some "p_k3x9q0a")
            eq_refl).
  - vm_compute. reflexivity.
  - vm_compute. reflexivity.
  - vm_compute. reflexivity.
Defined.

(** X20.  A server error fails the lobby calls that wait for an answer.
    In every state the engine can be in, when an [error] message arrives
    on an open socket, every [createLobby] and [joinLobby] promise in its
    handshake is rejected with the error of the message; a [listLobbies]
    promise in its handshake is not affected and keeps waiting for its
    list or its timer. *)
Theorem server_error_rejects_lobby_promises
    (s : state) (c k : nat) (cl : call) (r : role) (message : option string) :
  reachable s →
  readyState_of k (drain s) = Some OPEN →
  callbacks_of k (drain s) = Some r → r = Managed ∨ r = Legacy →
  calls (drain s) !! c = Some cl → c_phase cl = Handshake →
  let s' := step (SockMessage k (Some (error_msg message))) s in
  (tag_of (c_kind cl) ≠ TList → phase_of c s' = Some (Rejected (ServerError message))) ∧
  (tag_of (c_kind cl) = TList → phase_of c s' = Some Handshake).
Proof.
  intros Hs Hr Hcb Hrole Hcl Hph s'. pose proof (reachable_typed _ Hs) as Ht.
  destruct (drain_sound rejecting s eq_refl Ht) as [Ht0 _].
  pose proof (awaits_drain s (reachable_awaits s Hs)) as Ha0.
  unfold s'. rewrite (step_dispatches k r _ s Ht Hr Hcb Hrole).
  destruct (_handleMessage_sound (error_msg message) (drain s) Ht0) as [Ht1 He1].
  destruct (drain_sound rejecting _ eq_refl Ht1) as [_ He2].
  split.
  - intros Htag.
    apply (settled_stays rejecting (_handleMessage (error_msg message) (drain s)));
      [done | | done].
    unfold _handleMessage.
    set (s2 := log (TConsoleWarn "[Lorl server error]") (drain s)).
    assert (typed s2) as Ht2 by (by apply (log_sound strict)).
    assert (∃ h, h ∈ handlers_of "error" s2 ∧ closure_call h = Some c ∧
                 closure_phase h (PError (ServerError message))
                 = Rejected (ServerError message)) as (h & Hin & Hh & <-).
    { change (handlers_of "error" s2) with (handlers_of "error" (drain s)).
      destruct (c_kind cl) as [g l n m|g l|g] eqn:Hk; [| |done].
      - exists (onErr_create c). split_and!; try done.
        apply (Ha0 c cl); [done..|]. rewrite Hk. by right; left.
      - exists (onErr_join c). split_and!; try done.
        apply (Ha0 c cl); [done..|]. rewrite Hk. by right; left. }
    apply (emit_settles "error" _ h c Handshake); try done.
    unfold phase_of. change (calls s2) with (calls (drain s)).
    rewrite Hcl. simpl. by rewrite Hph.
  - intros Htag.
    assert (evolves rejecting (drain s)
              (drain (_handleMessage (error_msg message) (drain s)))) as He
      by (by eapply evolves_trans).
    destruct (ev_calls _ _ _ He _ _ Hcl) as (cl' & Hcl' & _ & _ & _ & Hl & Hres & _).
    unfold phase_of. rewrite Hcl'. simpl.
    destruct (Hl Htag Hph) as [->|[l Hl']]; [done|].
    destruct (Hres _ Hl') as [Hx|Hx]; [by rewrite Hph in Hx | done].
Qed.

Lemma server_error_rejects_lobby_promises_witness :
  phase_of 0 (step (SockMessage 0 (Some (error_msg (Some "lobby limit reached"))))
                (run lobby_requested (init (λ _, "k3x9q0a"))))
  = Some (Rejected (ServerError (Some "lobby limit reached"))).
Proof.
  refine (proj1 (server_error_rejects_lobby_promises
            (run lobby_requested (init (λ _, "k3x9q0a"))) 0 0
            (mkCall (CreateCall (Some "g1") None "Arena" 4) Handshake None) Managed
            (Some "lobby limit reached")
            (reachable_run _ _ (reachable_init _)) _ _ (or_introl eq_refl) _ eq_refl) _).
  - vm_compute. reflexivity.
  - vm_compute. reflexivity.
  - vm_compute. reflexivity.
  - discriminate.
Defined.

(** X21.  A socket that closes settles no promise.  When an open or
    connecting socket of the engine closes, the session is no longer
    connected and [disconnected] is published, but every promise is as it
    was: a [createLobby] or [joinLobby] call in its handshake stays
    pending.  The variable [_ws] keeps the closed socket, so that nothing
    is sent until a lobby call or [connect] makes a new one. *)
Theorem socket_close_settles_no_promise (s : state) (k : nat) (r : role)
    (rs : ready_state) :
  reachable s →
  readyState_of k (drain s) = Some rs → rs ≠ CLOSED →
  callbacks_of k (drain s) = Some r → r = Managed ∨ r = Legacy →
  let s' := step (SockClose k) s in
  calls s' = calls (drain s) ∧ isConnected s' = false ∧
  _ws s' = _ws (drain s) ∧ readyState_of k s' = Some CLOSED ∧
  (_ws (drain s) = Some k → ∀ m, _send m s' = s') ∧
  trace s' = trace (drain s) ++ TEmit "disconnected" PEmpty
                            :: flat_map (invocation PEmpty)
                                        (handlers_of "disconnected" (drain s)).
Proof.
  intros Hs Hr Hne Hcb Hrole s'. pose proof (reachable_typed _ Hs) as Ht.
  destruct (drain_sound rejecting s eq_refl Ht) as [Ht0 _].
  pose proof (drain_empties s Ht) as Hj0.
  set (s0 := drain s) in *.
  set (s1 := set_readyState k CLOSED s0).
  assert (typed s1) as Ht1 by (by apply (set_readyState_sound strict)).
  assert (callbacks_of k s1 = Some r ∧ readyState_of k s1 = Some CLOSED) as [Hcb1 Hr1].
  { unfold s1, set_readyState, callbacks_of, readyState_of in *. simpl.
    rewrite list_lookup_alter_eq. by destruct (sockets s0 !! k). }
  assert (∃ s2, typed s2 ∧ onclose k s1 = emit_ "disconnected" PEmpty s2 ∧
                calls s2 = calls s0 ∧ _connected s2 = false ∧ _ws s2 = _ws s0 ∧
                sockets s2 = sockets s1 ∧ trace s2 = trace s0 ∧ jobs s2 = [] ∧
                _handlers s2 = _handlers s0)
    as (s2 & Ht2 & Hoc & Hc2 & Hco2 & Hw2 & Hso2 & Htr2 & Hj2 & Hh2).
  { unfold onclose. rewrite Hcb1. destruct Hrole as [-> | ->]; cbv zeta.
    - eexists. split; [|split; [reflexivity|done]].
      apply (set_isHost_sound free); [done|].
      apply (set_lobbyInfo_None_sound free); [done|].
      by apply (set_connected_sound free).
    - eexists. split; [|split; [reflexivity|done]].
      by apply (set_connected_sound free). }
  assert (s' = onclose k s1) as ->.
  { unfold s'. simpl. fold s0. rewrite Hr. fold s1.
    assert (drain (onclose k s1) = onclose k s1) as Hd.
    { apply drain_idle. rewrite Hoc, (emit_plain _ _ _ Ht2) by plain. done. }
    by destruct rs. }
  rewrite Hoc, (emit_plain _ _ _ Ht2) by plain.
  unfold isConnected, readyState_of, handlers_of.
  change (calls (set_trace ?t ?x)) with (calls x).
  change (_connected (set_trace ?t ?x)) with (_connected x).
  change (_ws (set_trace ?t ?x)) with (_ws x).
  change (sockets (set_trace ?t ?x)) with (sockets x).
  change (trace (set_trace ?t ?x)) with t.
  rewrite Hc2, Hco2, Hw2, Hso2, Htr2, Hh2. split_and!; try done.
  intros Hws m. unfold _send.
  assert (ws_open (set_trace (trace s0 ++ TEmit "disconnected" PEmpty
                     :: flat_map (invocation PEmpty)
                          (default [] (_handlers s0 !! "disconnected"))) s2) = None)
    as ->; [|done].
  unfold ws_open. change (_ws (set_trace ?t ?x)) with (_ws x).
  change (sockets (set_trace ?t ?x)) with (sockets x). rewrite Hw2, Hws, Hso2.
  unfold readyState_of in Hr1. by destruct (sockets s1 !! k) as [[u [] cb]|].
Qed.

Lemma socket_close_settles_no_promise_witness :
  phase_of 0 (step (SockClose 0) (run lobby_requested (init (λ _, "k3x9q0a"))))
  = Some Handshake.
Proof.
  pose proof (socket_close_settles_no_promise
                (run lobby_requested (init (λ _, "k3x9q0a"))) 0 Managed OPEN
                (reachable_run _ _ (reachable_init _))) as H.
  assert (calls (step (SockClose 0) (run lobby_requested (init (λ _, "k3x9q0a"))))
          = calls (drain (run lobby_requested (init (λ _, "k3x9q0a"))))) as Hc.
  { refine (proj1 (H _ _ _ (or_introl eq_refl))).
    - vm_compute. reflexivity.
    - discriminate.
    - vm_compute. reflexivity. }
  unfold phase_of. rewrite Hc. vm_compute. reflexivity.
Defined.

(** ** The reaction on a resolved promise *)

Lemma resolved_jobs_ext s s' :
  jobs s' = jobs s → calls s' = calls s → resolved_jobs s → resolved_jobs s'.
Proof.
  intros Hj Hc H j Hin. rewrite Hj in Hin.
  destruct (H j Hin) as (c & v & -> & Hp). exists c, v. split; [done|].
  unfold phase_of in *. by rewrite Hc.
Qed.

Lemma resolved_jobs_settle c v s :
  resolved_jobs s → resolved_jobs (settle c (Resolved v) s).
Proof.
  intros H. unfold settle. destruct (calls s !! c) as [cl|] eqn:Hcl; [|done].
  destruct (is_pending (c_phase cl)) eqn:Hpen; [|done]. cbv zeta.
  assert (∀ c', phase_of c' (set_phase c (Resolved v) s) =
                if decide (c' = c) then Some (Resolved v) else phase_of c' s) as Hph.
  { intros c'. unfold phase_of, set_phase. simpl. case_decide as Hd.
    - subst c'. by rewrite list_lookup_alter_eq, Hcl.
    - by rewrite list_lookup_alter_ne. }
  assert (resolved_jobs (set_phase c (Resolved v) s)) as H1.
  { intros j Hin. destruct (H j Hin) as (c' & v' & -> & Hp). exists c'.
    rewrite Hph. case_decide; [by exists v | by exists v']. }
  destruct (c_then cl); [|done].
  intros j Hin. unfold enqueue in Hin. simpl in Hin.
  apply elem_of_app in Hin as [Hin|Hin].
  - destruct (H1 j Hin) as (c' & v' & -> & Hp). by exists c', v'.
  - apply list_elem_of_singleton in Hin as ->. exists c, v. split; [done|].
    change (phase_of c (set_phase c (Resolved v) s) = Some (Resolved v)).
    rewrite Hph. by case_decide.
Qed.

Lemma calls_settle_ne c c' p s : c' ≠ c → calls (settle c' p s) !! c = calls s !! c.
Proof.
  intros Hne. unfold settle. destruct (calls s !! c') as [cl|]; [|done].
  destruct (is_pending (c_phase cl)); [|done]. cbv zeta.
  destruct (c_then cl); unfold enqueue, set_phase; simpl;
    by rewrite list_lookup_alter_ne.
Qed.

Lemma jobs_settle_incl c p j s : j ∈ jobs s → j ∈ jobs (settle c p s).
Proof.
  intros Hin. unfold settle. destruct (calls s !! c) as [cl|]; [|done].
  destruct (is_pending (c_phase cl)); [|done]. cbv zeta.
  destruct (c_then cl); [|done]. unfold enqueue. simpl. apply elem_of_app. by left.
Qed.

Lemma jobs_settle_queues c p cl s :
  calls s !! c = Some cl → is_pending (c_phase cl) = true → is_Some (c_then cl) →
  JSettled c ∈ jobs (settle c p s).
Proof.
  intros Hcl Hpen [r Hr]. unfold settle. rewrite Hcl, Hpen. cbv zeta. rewrite Hr.
  unfold enqueue. simpl. apply elem_of_app. right. by apply list_elem_of_singleton.
Qed.

Lemma off_calls event h s : calls (off event h s) = calls s.
Proof. apply off_fields. Qed.

Lemma off_jobs event h s : jobs (off event h s) = jobs s.
Proof. apply off_fields. Qed.

(** A handler called by [emit]: what is left of the call is that the
    promise of a closure settles. *)
Lemma guarded_call_cases h data s :
  ∃ x, calls x = calls s ∧ jobs x = jobs s ∧
       (try_catch (call_fn h data) console_error s).2 =
       match closure_call h with
       | Some c => settle c (closure_phase h data) x
       | None => x
       end.
Proof.
  unfold try_catch, call_fn, resolve, reject. cbv zeta.
  destruct h as [f|c|c|c|c|c]; cbn [closure_call closure_phase];
    [destruct (fn_body f data)|..];
    refine (ex_intro _ _ (conj _ (conj _ eq_refl)));
    by rewrite ?off_calls, ?off_jobs.
Qed.

Lemma guarded_call_resolving h data s :
  resolving h → resolved_jobs s →
  resolved_jobs (try_catch (call_fn h data) console_error s).2.
Proof.
  intros Hh H. destruct (guarded_call_cases h data s) as (x & Hc & Hj & ->).
  pose proof (resolved_jobs_ext s x Hj Hc H) as Hx.
  destruct h; try done; by apply resolved_jobs_settle.
Qed.

Lemma forEach_resolving data hs s :
  (∀ h, h ∈ hs → resolving h) → resolved_jobs s →
  resolved_jobs (forEach (λ fn, try_catch (call_fn fn data) console_error) hs s).2.
Proof.
  revert s. induction hs as [|h hs IH]; intros s Hhs H; [done|].
  rewrite forEach_cons. apply IH; [intros h' ?; apply Hhs; by right|].
  apply guarded_call_resolving; [apply Hhs; by left | done].
Qed.

(** The reaction chained on a pending promise is queued when one of the
    handlers settles the promise. *)
Lemma forEach_queues c data hs s :
  JSettled c ∈ jobs s ∨
  ((∃ cl, calls s !! c = Some cl ∧ is_pending (c_phase cl) = true ∧ is_Some (c_then cl)) ∧
   ∃ h, h ∈ hs ∧ closure_call h = Some c) →
  JSettled c ∈ jobs (forEach (λ fn, try_catch (call_fn fn data) console_error) hs s).2.
Proof.
  revert s. induction hs as [|h hs IH]; intros s H.
  - destruct H as [?|[_ (h & Hin & _)]]; [done | by apply elem_of_nil in Hin].
  - rewrite forEach_cons. apply IH.
    destruct (guarded_call_cases h data s) as (x & Hc & Hj & ->).
    destruct H as [Hin|[(cl & Hcl & Hpen & Hth) (h' & Hin' & Hh')]].
    + left. destruct (closure_call h); [apply jobs_settle_incl|]; by rewrite Hj.
    + destruct (closure_call h) as [c'|] eqn:Hcc.
      * destruct (decide (c' = c)) as [->|Hne].
        { left. apply (jobs_settle_queues c _ cl); [by rewrite Hc | done..]. }
        right. split.
        { exists cl. by rewrite calls_settle_ne, Hc. }
        exists h'. split; [|done].
        apply elem_of_cons in Hin' as [->|?]; [congruence | done].
      * right. split; [exists cl; by rewrite Hc|]. exists h'. split; [|done].
        apply elem_of_cons in Hin' as [->|?]; [congruence | done].
Qed.

Lemma react_resolved c cl v s :
  typed s → calls s !! c = Some cl → c_phase cl = Resolved v →
  react c s =
  match c_then cl with
  | Some _ =>
      set_trace (trace s ++ TEmit "ready" (PReady true)
                   :: flat_map (invocation (PReady true)) (handlers_of "ready" s)) s
  | None => s
  end.
Proof.
  intros Ht Hcl Hph. unfold react. rewrite Hcl, Hph.
  destruct (c_then cl) as [[]|]; [|done]. by apply emit_plain.
Qed.

(** Reactions on resolved promises only publish [ready]. *)
Lemma drain_n_resolved n s :
  typed s → resolved_jobs s →
  sockets (drain_n n s) = sockets s ∧ _ws (drain_n n s) = _ws s ∧
  _roomId (drain_n n s) = _roomId s ∧ calls (drain_n n s) = calls s ∧
  _handlers (drain_n n s) = _handlers s ∧
  ∀ c cl, (length (jobs s) ≤ n)%nat → JSettled c ∈ jobs s →
          calls s !! c = Some cl → is_Some (c_then cl) →
          ∃ pre post,
            trace (drain_n n s) =
            trace s ++ pre ++ TEmit "ready" (PReady true)
              :: flat_map (invocation (PReady true)) (handlers_of "ready" s) ++ post.
Proof.
  revert s. induction n as [|n IH]; intros s Ht Hj.
  { split_and!; try done. intros c cl Hn Hin.
    destruct (jobs s); [by apply elem_of_nil in Hin | simpl in Hn; lia]. }
  simpl. destruct (jobs s) as [|j js] eqn:Hjs.
  { split_and!; try done. intros c cl _ Hin. by apply elem_of_nil in Hin. }
  destruct (Hj j) as (c0 & v0 & -> & Hp0); [rewrite Hjs; by left|].
  unfold phase_of in Hp0. destruct (calls s !! c0) as [cl0|] eqn:Hcl0; [|done].
  simpl in Hp0. injection Hp0 as Hp0.
  pose proof (typed_set_jobs js s Ht) as Ht1.
  cbn [run_job]. rewrite (react_resolved c0 cl0 v0 (set_jobs js s) Ht1 Hcl0 Hp0).
  set (s1 := match c_then cl0 with Some _ => _ | None => _ end).
  assert (∃ tr, s1 = set_trace (trace s ++ tr) (set_jobs js s) ∧
                (is_Some (c_then cl0) →
                 tr = TEmit "ready" (PReady true)
                        :: flat_map (invocation (PReady true)) (handlers_of "ready" s)))
    as (tr & Hs1 & Htr).
  { unfold s1. destruct (c_then cl0).
    - eexists. split; [reflexivity|done].
    - exists []. split; [|by intros [? ?]]. simpl. rewrite app_nil_r.
      by destruct s. }
  clearbody s1. subst s1.
  set (s1 := set_trace (trace s ++ tr) (set_jobs js s)).
  assert (typed s1) as Ht2 by (by apply (typed_ext (set_jobs js s))).
  assert (resolved_jobs s1) as Hj1.
  { intros j Hin. change (jobs s1) with js in Hin.
    destruct (Hj j) as (c & v & -> & Hp); [rewrite Hjs; by right|]. by exists c, v. }
  destruct (IH s1 Ht2 Hj1) as (-> & -> & -> & -> & -> & Hready).
  split_and!; try done.
  intros c cl Hn Hin Hcl Hth. apply elem_of_cons in Hin as [Hin|Hin].
  - injection Hin as ->. rewrite Hcl0 in Hcl. injection Hcl as ->.
    assert (trace s1 `prefix_of` trace (drain_n n s1)) as [post Hpost].
    { destruct (drain_n_sound rejecting n s1 eq_refl Ht2) as [_ He]. apply He. }
    exists [], post. rewrite Hpost. change (trace s1) with (trace s ++ tr).
    rewrite (Htr Hth). by rewrite <- app_assoc.
  - destruct (Hready c cl) as (pre & post & ->); [simpl in Hn; change (jobs s1) with js; lia|done..|].
    exists (tr ++ pre), post. change (trace s1) with (trace s ++ tr).
    change (handlers_of "ready" s1) with (handlers_of "ready" s).
    by rewrite <- !app_assoc.
Qed.

Lemma emit_queues_reaction event data h c cl s :
  resolved_jobs s → (∀ h', h' ∈ handlers_of event s → resolving h') →
  h ∈ handlers_of event s → closure_call h = Some c →
  calls s !! c = Some cl → is_pending (c_phase cl) = true → is_Some (c_then cl) →
  resolved_jobs (emit_ event data s) ∧ JSettled c ∈ jobs (emit_ event data s).
Proof.
  intros Hj Hres Hin Hh Hcl Hpen Hth. unfold emit_, emit. split.
  - apply forEach_resolving; [done|]. by apply (resolved_jobs_ext s).
  - apply forEach_queues. right. split; [by exists cl | by exists h].
Qed.

(** The answer of the server to a lobby call queues the reaction chained on
    its promise, and only reactions on resolved promises. *)
Lemma answer_queues_reaction m c cl s :
  typed s → awaits s → jobs s = [] →
  calls s !! c = Some cl → c_phase cl = Handshake → is_Some (c_then cl) →
  answers (c_kind cl) m = true →
  resolved_jobs (_handleMessage m s) ∧ JSettled c ∈ jobs (_handleMessage m s) ∧
  sockets (_handleMessage m s) = sockets s ∧ _ws (_handleMessage m s) = _ws s ∧
  _roomId (_handleMessage m s) = _roomId s.
Proof.
  intros Ht Ha Hjobs Hcl Hph Hth Hans.
  assert (resolved_jobs s) as Hj
    by (intros j Hin; rewrite Hjobs in Hin; by apply elem_of_nil in Hin).
  assert (∀ event, event ≠ "error" →
            ∀ h, h ∈ handlers_of event s → resolving h) as Hres.
  { intros event Hev h Hin. pose proof (typed_handlers s Ht _ _ Hin) as Hok.
    destruct h; try done; by destruct Hok. }
  destruct (c_kind cl) as [g l n mx|g l|g] eqn:Hk;
    destruct m; try done; unfold _handleMessage; cbv zeta.
  - set (s2 := set_isHost true (new_lobbyInfo _ s)).
    set (data := PLobbyCreated _ _).
    destruct (emit_frame "lobbyCreated" data s2)
      as (Hws & _ & _ & _ & _ & Hroom & _ & _ & _ & _ & _ & Hsock & _).
    rewrite Hws, Hroom, Hsock.
    destruct (emit_queues_reaction "lobbyCreated" data (onCreated c) c cl s2)
      as [H1 H2]; try done.
    + by apply Hres.
    + apply (Ha c cl); [done..|]. rewrite Hk. by left.
    + by rewrite Hph.
  - set (s1 := new_lobbyInfo _ (set_players _ s)).
    set (s2 := set_isHost _ s1).
    set (data := PLobbyJoined _ _ _ _).
    destruct (emit_frame "lobbyJoined" data s2)
      as (Hws & _ & _ & _ & _ & Hroom & _ & _ & _ & _ & _ & Hsock & _).
    rewrite Hws, Hroom, Hsock.
    destruct (emit_queues_reaction "lobbyJoined" data (onJoined c) c cl s2)
      as [H1 H2]; try done.
    + by apply Hres.
    + apply (Ha c cl); [done..|]. rewrite Hk. by left.
    + by rewrite Hph.
Qed.

(** X22.  A lobby call of [_init] that succeeds.  In every state the
    engine can be in, when the answer of the server ([lobby_created] for
    [createLobby], [lobby_state] for [joinLobby]) arrives on an open socket
    for a call of [_init] in its handshake, the same task publishes
    [ready] with [multiplayer: true] after everything the dispatch of the
    message logs, and it makes no legacy connection: the sockets, [_ws]
    and [_roomId] stay as they are. *)
Theorem init_lobby_success_publishes_ready
    (s : state) (c k : nat) (cl : call) (r : role) (m : msg)
    (serverUrl : string) (roomId username : option string) :
  reachable s →
  readyState_of k (drain s) = Some OPEN →
  callbacks_of k (drain s) = Some r → r = Managed ∨ r = Legacy →
  calls (drain s) !! c = Some cl → c_phase cl = Handshake →
  c_then cl = Some (InitFallback serverUrl roomId username) →
  answers (c_kind cl) m = true →
  let s' := step (SockMessage k (Some m)) s in
  sockets s' = sockets (drain s) ∧ _ws s' = _ws (drain s) ∧
  _roomId s' = _roomId (drain s) ∧
  ∃ pre post,
    trace s' =
    trace (_handleMessage m (drain s)) ++ pre ++ TEmit "ready" (PReady true)
      :: flat_map (invocation (PReady true)) (handlers_of "ready" s') ++ post.
Proof.
  intros Hs Hr Hcb Hrole Hcl Hph Hth Hans s'.
  pose proof (reachable_typed _ Hs) as Ht.
  destruct (drain_sound rejecting s eq_refl Ht) as [Ht0 _].
  pose proof (awaits_drain s (reachable_awaits s Hs)) as Ha0.
  unfold s'. rewrite (step_dispatches k r _ s Ht Hr Hcb Hrole).
  destruct (answer_queues_reaction m c cl (drain s))
    as (Hj1 & Hin1 & <- & <- & <-); try done; [by apply drain_empties|].
  destruct (_handleMessage_sound m (drain s) Ht0) as [Ht1 He1].
  destruct (ev_calls _ _ _ He1 _ _ Hcl) as (cl1 & Hcl1 & _ & Hth1 & _).
  set (s1 := _handleMessage m (drain s)) in *.
  destruct (drain_n_resolved (2 * length (jobs s1)) s1 Ht1 Hj1)
    as (Hsock & Hws & Hroom & _ & Hh & Hready).
  unfold drain. split_and!; try done.
  destruct (Hready c cl1) as (pre & post & Htr); [lia | done.. | |].
  { rewrite Hth1, Hth. done. }
  exists pre, post. rewrite Htr. unfold handlers_of. by rewrite Hh.
Qed.

Lemma init_lobby_success_publishes_ready_witness :
  sockets (step (SockMessage 0 (Some (lobby_created (Some "L7") (Some "Arena")
                                        (Some false) (Some 4%Z) (Some "p_k3x9q0a"))))
             (run init_lobby_requested (init (λ _, "k3x9q0a"))))
  = sockets (drain (run init_lobby_requested (init (λ _, "k3x9q0a")))).
Proof.
  refine (proj1 (init_lobby_success_publishes_ready
            (run init_lobby_requested (init (λ _, "k3x9q0a"))) 0 0
            (mkCall (CreateCall (Some "g1") None "Arena" 4) Handshake
                    (Some (InitFallback "wss://host" (Some "r1") (Some "Ann"))))
            Managed
            (lobby_created (Some "L7") (Some "Arena") (Some false) (Some 4%Z)
                           (Some "p_k3x9q0a"))
            "wss://host" (Some "r1") (Some "Ann")
            (reachable_run _ _ (reachable_init _)) _ _ (or_introl eq_refl) _
            eq_refl eq_refl eq_refl)).
  - vm_compute. reflexivity.
  - vm_compute. reflexivity.
  - vm_compute. reflexivity.
Defined.
